(** * PaPILO problem-update core: a shallow embedding of
      [src/papilo/core/ProblemUpdate.hpp]

    The class [ProblemUpdate<REAL>] is embedded at [REAL = Rational]: the
    scalars are the rationals [Q], compared with the boolean tests of
    [QArith].  C++ [int] values are unbounded integers [Z]; a [Vec<T>] is a
    [list T] read and written by index, and an access outside the vector is
    the fault [OutOfBounds].  Member functions are computations in a state
    and fault monad over the record [ProblemUpdate], which gathers the
    problem, the postsolve trail, the statistics and the update state the
    class refers to.  The build flag [NDEBUG] decides whether an [assert] is
    evaluated.  Collaborators whose code lives in other files of the
    repository are either parameters (record [Externals], record [Num]) or
    definitions marked as modelled from the specification. *)

From Stdlib Require Import ZArith QArith Qabs Qround Bool List Lia Lqa.
From stdpp Require Import base tactics option list.
Import ListNotations.

Local Open Scope Z_scope.

(** ** Scalars *)

Definition Qlt_bool (x y : Q) : bool := negb (Qle_bool y x).
Definition Qne_bool (x y : Q) : bool := negb (Qeq_bool x y).

(** [static_cast<int>( REAL )]: truncation towards zero. *)
Definition static_cast_int (q : Q) : Z := Z.quot (Qnum q) (Z.pos (Qden q)).

(** ** Flags (papilo/misc/Flags.hpp) *)

Module Flags.
(** Modelled from the spec: [Flags.hpp] is not part of this file.  Flags
    are plain integer masks with the operations [set], [unset],
    [test] (any of) and [equal]. *)
Definition set (f m : Z) : Z := Z.lor f m.
Definition unset (f m : Z) : Z := Z.ldiff f m.
Definition test (f m : Z) : bool := negb (Z.land f m =? 0).
Definition equal (f m : Z) : bool := f =? m.
End Flags.

(** [enum class State : uint8_t], the per-round conflict-detection flags. *)
Module State.
Definition kUnmodified : Z := 0.
Definition kLocked : Z := Z.shiftl 1 0.
Definition kModified : Z := Z.shiftl 1 1.
Definition kBoundsModified : Z := Z.shiftl 1 2.
End State.

Module ColFlag.
(** Modelled from the spec: the enumeration [ColFlag] is declared outside
    this file.  One bit per primitive flag; [kLbUseless], [kUbUseless],
    [kUnbounded] and [kInactive] are the unions the spec gives. *)
Definition kNone : Z := 0.
Definition kLbInf : Z := Z.shiftl 1 0.
Definition kLbHuge : Z := Z.shiftl 1 1.
Definition kUbInf : Z := Z.shiftl 1 2.
Definition kUbHuge : Z := Z.shiftl 1 3.
Definition kIntegral : Z := Z.shiftl 1 4.
Definition kFixed : Z := Z.shiftl 1 5.
Definition kSubstituted : Z := Z.shiftl 1 6.
Definition kImplInt : Z := Z.shiftl 1 7.
Definition kUnbounded : Z := Z.lor kLbInf kUbInf.
Definition kInactive : Z := Z.lor kFixed kSubstituted.
Definition kLbUseless : Z := Z.lor kLbInf kLbHuge.
Definition kUbUseless : Z := Z.lor kUbInf kUbHuge.
End ColFlag.

Module RowFlag.
(** Modelled from the spec: the enumeration [RowFlag] is declared outside
    this file. *)
Definition kNone : Z := 0.
Definition kLhsInf : Z := Z.shiftl 1 0.
Definition kRhsInf : Z := Z.shiftl 1 1.
Definition kEquation : Z := Z.shiftl 1 2.
Definition kRedundant : Z := Z.shiftl 1 3.
End RowFlag.

(** ** Enumerations *)

Module ConflictType.
Inductive t := kNoConflict | kConflict | kPostpone.
End ConflictType.

Module ApplyResult.
Inductive t := kApplied | kRejected | kPostponed | kInfeasible.
End ApplyResult.

Module PresolveStatus.
Inductive t := kUnchanged | kReduced | kUnbndOrInfeas | kInfeasible.
Definition eqb (a b : t) : bool :=
  match a, b with
  | kUnchanged, kUnchanged | kReduced, kReduced
  | kUnbndOrInfeas, kUnbndOrInfeas | kInfeasible, kInfeasible => true
  | _, _ => false
  end.
End PresolveStatus.

Module RowStatus.
Inductive t := kInfeasible | kRedundant | kRedundantLhs | kRedundantRhs | kUnknown.
End RowStatus.

Module ActivityChange.
(** Modelled from the spec: a change "is of min" or "of max". *)
Inductive t := kMin | kMax.
End ActivityChange.

Module BoundChange.
(** Modelled from the spec: the side of a bound change. *)
Inductive t := kLower | kUpper.
End BoundChange.

Module ColReduction.
(** Modelled from the spec: the tag values are declared in
    [Reductions.hpp]; they are distinct negative integers, given here in
    the order in which the spec lists the column operations. *)
Definition NONE : Z := -1.
Definition LOCKED : Z := -2.
Definition LOCKED_STRONG : Z := -3.
Definition BOUNDS_LOCKED : Z := -4.
Definition OBJECTIVE : Z := -5.
Definition FIXED : Z := -6.
Definition FIXED_INFINITY : Z := -7.
Definition LOWER_BOUND : Z := -8.
Definition UPPER_BOUND : Z := -9.
Definition IMPL_INT : Z := -10.
Definition SUBSTITUTE : Z := -11.
Definition SUBSTITUTE_OBJ : Z := -12.
Definition PARALLEL : Z := -13.
Definition REPLACE : Z := -14.
End ColReduction.

Module RowReduction.
(** Modelled from the spec: as for [ColReduction], in the order of the
    spec's list of row operations. *)
Definition NONE : Z := -1.
Definition LOCKED : Z := -2.
Definition LOCKED_STRONG : Z := -3.
Definition LHS : Z := -4.
Definition RHS : Z := -5.
Definition LHS_INF : Z := -6.
Definition RHS_INF : Z := -7.
Definition REDUNDANT : Z := -8.
Definition SPARSIFY : Z := -9.
End RowReduction.

(** ** Data *)

(** [Reduction<REAL>]: a negative [row] or [col] encodes an operation tag. *)
Module Reduction.
Record t := mk { newval : Q; row : Z; col : Z }.
End Reduction.

(** A sparse vector view: the pairs (index, value) of a row or a column. *)
Definition SparseVectorView := list (Z * Q).
Definition getIndices (v : SparseVectorView) : list Z := map fst v.
Definition getValues (v : SparseVectorView) : list Q := map snd v.
Definition getLength (v : SparseVectorView) : Z := Z.of_nat (length v).

Record RowActivity := mkRowActivity {
  act_min : Q;
  act_max : Q;
  ninfmin : Z;
  ninfmax : Z;
  lastchange : Z
}.

Record Triplet := mkTriplet { t_row : Z; t_col : Z; t_val : Q }.

(** Modelled from the spec: [MatrixBuffer.hpp] is not part of this file.
    The buffer holds the pending coefficient changes [(r, c, newVal)];
    [addEntry] records one more, [clear] drops them all. *)
Definition MatrixBuffer := list Triplet.

Record VariableDomains := mkVariableDomains {
  lower_bounds : list Q;
  upper_bounds : list Q;
  flags : list Z
}.

Record Objective := mkObjective {
  coefficients : list Q;
  offset : Q
}.

(** The fields of [ConstraintMatrix<REAL>] this file reads or writes: sides,
    row flags, sizes ([-1] marks a deleted row or column) and both sparse
    storages. *)
Record ConstraintMatrix := mkConstraintMatrix {
  lhs_values : list Q;
  rhs_values : list Q;
  row_flags : list Z;
  row_sizes : list Z;
  col_sizes : list Z;
  row_storage : list SparseVectorView;
  col_storage : list SparseVectorView
}.

Record Problem := mkProblem {
  objective : Objective;
  variableDomains : VariableDomains;
  constraintMatrix : ConstraintMatrix;
  rowActivities : list RowActivity;
  numIntegralCols : Z;
  numContinuousCols : Z
}.

Record Statistics := mkStatistics {
  nboundchgs : Z;
  ncoefchgs : Z;
  nsidechgs : Z;
  ndeletedcols : Z;
  ndeletedrows : Z;
  nrounds : Z
}.

Record PresolveOptions := mkPresolveOptions {
  dualreds : Z;
  minabscoeff : Q;
  maxfillinpersubstitution : Z;
  maxshiftperrow : Z
}.

(** Modelled from the spec: [Postsolve.hpp] is not part of this file.  The
    postsolve trail is an append-only log; every notification appends the
    event with the arguments it was called with. *)
Inductive PostsolveEvent :=
| FixedCol (c : Z) (val : Q)
| FixedInfCol (c : Z) (sign : Z) (bound : Q) (p : Problem)
| Substitution (c : Z) (equality : SparseVectorView) (rhs : Q)
| ParallelCols (col1 : Z) (col1int col1lbinf : bool) (lb1 : Q)
               (col1ubinf : bool) (ub1 : Q)
               (col2 : Z) (col2int col2lbinf : bool) (lb2 : Q)
               (col2ubinf : bool) (ub2 : Q) (col2scale : Q).

Definition Postsolve := list PostsolveEvent.

(** The state [ProblemUpdate<REAL>] owns or refers to. *)
Record ProblemUpdate := mkProblemUpdate {
  problem : Problem;
  postsolve : Postsolve;
  stats : Statistics;
  postponeSubstitutions : bool;
  dirty_row_states : list Z;
  dirty_col_states : list Z;
  deleted_cols : list Z;
  redundant_rows : list Z;
  changed_activities : list Z;
  singletonRows : list Z;
  singletonColumns : list Z;
  emptyColumns : list Z;
  firstNewSingletonCol : Z;
  matrix_buffer : MatrixBuffer;
  intbuffer : list Z;
  realbuffer : list Q;
  tripletbuffer : list Triplet;
  row_state : list Z;
  col_state : list Z
}.

(** ** References into the state

    A [Lens S A] stands for a C++ reference to a member of type [A] of an
    object of type [S]: [view] reads it, [over] updates it in place. *)

Record Lens (S A : Type) := mkLens {
  view : S -> A;
  over : (A -> A) -> S -> S
}.
Arguments mkLens {S A}.
Arguments view {S A}.
Arguments over {S A}.

Definition lens_compose {S A B} (l1 : Lens S A) (l2 : Lens A B) : Lens S B :=
  mkLens (fun s => view l2 (view l1 s))
         (fun f s => over l1 (over l2 f) s).


Definition over_coefficients f (x : Objective) : Objective :=
  mkObjective (f (coefficients x)) (offset x).

Definition over_offset f (x : Objective) : Objective :=
  mkObjective (coefficients x) (f (offset x)).

Definition over_lower_bounds f (x : VariableDomains) : VariableDomains :=
  mkVariableDomains (f (lower_bounds x)) (upper_bounds x) (flags x).

Definition over_upper_bounds f (x : VariableDomains) : VariableDomains :=
  mkVariableDomains (lower_bounds x) (f (upper_bounds x)) (flags x).

Definition over_flags f (x : VariableDomains) : VariableDomains :=
  mkVariableDomains (lower_bounds x) (upper_bounds x) (f (flags x)).

Definition over_lhs_values f (x : ConstraintMatrix) : ConstraintMatrix :=
  mkConstraintMatrix (f (lhs_values x)) (rhs_values x) (row_flags x)
    (row_sizes x) (col_sizes x) (row_storage x) (col_storage x).

Definition over_rhs_values f (x : ConstraintMatrix) : ConstraintMatrix :=
  mkConstraintMatrix (lhs_values x) (f (rhs_values x)) (row_flags x)
    (row_sizes x) (col_sizes x) (row_storage x) (col_storage x).

Definition over_row_flags f (x : ConstraintMatrix) : ConstraintMatrix :=
  mkConstraintMatrix (lhs_values x) (rhs_values x) (f (row_flags x))
    (row_sizes x) (col_sizes x) (row_storage x) (col_storage x).

Definition over_row_sizes f (x : ConstraintMatrix) : ConstraintMatrix :=
  mkConstraintMatrix (lhs_values x) (rhs_values x) (row_flags x) (f
    (row_sizes x)) (col_sizes x) (row_storage x) (col_storage x).

Definition over_col_sizes f (x : ConstraintMatrix) : ConstraintMatrix :=
  mkConstraintMatrix (lhs_values x) (rhs_values x) (row_flags x)
    (row_sizes x) (f (col_sizes x)) (row_storage x) (col_storage x).

Definition over_row_storage f (x : ConstraintMatrix) : ConstraintMatrix :=
  mkConstraintMatrix (lhs_values x) (rhs_values x) (row_flags x)
    (row_sizes x) (col_sizes x) (f (row_storage x)) (col_storage x).

Definition over_col_storage f (x : ConstraintMatrix) : ConstraintMatrix :=
  mkConstraintMatrix (lhs_values x) (rhs_values x) (row_flags x)
    (row_sizes x) (col_sizes x) (row_storage x) (f (col_storage x)).

Definition over_objective f (x : Problem) : Problem :=
  mkProblem (f (objective x)) (variableDomains x) (constraintMatrix x)
    (rowActivities x) (numIntegralCols x) (numContinuousCols x).

Definition over_variableDomains f (x : Problem) : Problem :=
  mkProblem (objective x) (f (variableDomains x)) (constraintMatrix x)
    (rowActivities x) (numIntegralCols x) (numContinuousCols x).

Definition over_constraintMatrix f (x : Problem) : Problem :=
  mkProblem (objective x) (variableDomains x) (f (constraintMatrix x))
    (rowActivities x) (numIntegralCols x) (numContinuousCols x).

Definition over_rowActivities f (x : Problem) : Problem :=
  mkProblem (objective x) (variableDomains x) (constraintMatrix x) (f
    (rowActivities x)) (numIntegralCols x) (numContinuousCols x).

Definition over_numIntegralCols f (x : Problem) : Problem :=
  mkProblem (objective x) (variableDomains x) (constraintMatrix x)
    (rowActivities x) (f (numIntegralCols x)) (numContinuousCols x).

Definition over_numContinuousCols f (x : Problem) : Problem :=
  mkProblem (objective x) (variableDomains x) (constraintMatrix x)
    (rowActivities x) (numIntegralCols x) (f (numContinuousCols x)).

Definition over_nboundchgs f (x : Statistics) : Statistics :=
  mkStatistics (f (nboundchgs x)) (ncoefchgs x) (nsidechgs x)
    (ndeletedcols x) (ndeletedrows x) (nrounds x).

Definition over_ncoefchgs f (x : Statistics) : Statistics :=
  mkStatistics (nboundchgs x) (f (ncoefchgs x)) (nsidechgs x)
    (ndeletedcols x) (ndeletedrows x) (nrounds x).

Definition over_nsidechgs f (x : Statistics) : Statistics :=
  mkStatistics (nboundchgs x) (ncoefchgs x) (f (nsidechgs x))
    (ndeletedcols x) (ndeletedrows x) (nrounds x).

Definition over_ndeletedcols f (x : Statistics) : Statistics :=
  mkStatistics (nboundchgs x) (ncoefchgs x) (nsidechgs x) (f
    (ndeletedcols x)) (ndeletedrows x) (nrounds x).

Definition over_ndeletedrows f (x : Statistics) : Statistics :=
  mkStatistics (nboundchgs x) (ncoefchgs x) (nsidechgs x) (ndeletedcols
    x) (f (ndeletedrows x)) (nrounds x).

Definition over_nrounds f (x : Statistics) : Statistics :=
  mkStatistics (nboundchgs x) (ncoefchgs x) (nsidechgs x) (ndeletedcols
    x) (ndeletedrows x) (f (nrounds x)).

Definition over_problem f (x : ProblemUpdate) : ProblemUpdate :=
  mkProblemUpdate (f (problem x)) (postsolve x) (stats x)
    (postponeSubstitutions x) (dirty_row_states x) (dirty_col_states x)
    (deleted_cols x) (redundant_rows x) (changed_activities x)
    (singletonRows x) (singletonColumns x) (emptyColumns x)
    (firstNewSingletonCol x) (matrix_buffer x) (intbuffer x) (realbuffer
    x) (tripletbuffer x) (row_state x) (col_state x).

Definition over_postsolve f (x : ProblemUpdate) : ProblemUpdate :=
  mkProblemUpdate (problem x) (f (postsolve x)) (stats x)
    (postponeSubstitutions x) (dirty_row_states x) (dirty_col_states x)
    (deleted_cols x) (redundant_rows x) (changed_activities x)
    (singletonRows x) (singletonColumns x) (emptyColumns x)
    (firstNewSingletonCol x) (matrix_buffer x) (intbuffer x) (realbuffer
    x) (tripletbuffer x) (row_state x) (col_state x).

Definition over_stats f (x : ProblemUpdate) : ProblemUpdate :=
  mkProblemUpdate (problem x) (postsolve x) (f (stats x))
    (postponeSubstitutions x) (dirty_row_states x) (dirty_col_states x)
    (deleted_cols x) (redundant_rows x) (changed_activities x)
    (singletonRows x) (singletonColumns x) (emptyColumns x)
    (firstNewSingletonCol x) (matrix_buffer x) (intbuffer x) (realbuffer
    x) (tripletbuffer x) (row_state x) (col_state x).

Definition over_postponeSubstitutions f (x : ProblemUpdate) : ProblemUpdate :=
  mkProblemUpdate (problem x) (postsolve x) (stats x) (f
    (postponeSubstitutions x)) (dirty_row_states x) (dirty_col_states x)
    (deleted_cols x) (redundant_rows x) (changed_activities x)
    (singletonRows x) (singletonColumns x) (emptyColumns x)
    (firstNewSingletonCol x) (matrix_buffer x) (intbuffer x) (realbuffer
    x) (tripletbuffer x) (row_state x) (col_state x).

Definition over_dirty_row_states f (x : ProblemUpdate) : ProblemUpdate :=
  mkProblemUpdate (problem x) (postsolve x) (stats x)
    (postponeSubstitutions x) (f (dirty_row_states x)) (dirty_col_states
    x) (deleted_cols x) (redundant_rows x) (changed_activities x)
    (singletonRows x) (singletonColumns x) (emptyColumns x)
    (firstNewSingletonCol x) (matrix_buffer x) (intbuffer x) (realbuffer
    x) (tripletbuffer x) (row_state x) (col_state x).

Definition over_dirty_col_states f (x : ProblemUpdate) : ProblemUpdate :=
  mkProblemUpdate (problem x) (postsolve x) (stats x)
    (postponeSubstitutions x) (dirty_row_states x) (f (dirty_col_states
    x)) (deleted_cols x) (redundant_rows x) (changed_activities x)
    (singletonRows x) (singletonColumns x) (emptyColumns x)
    (firstNewSingletonCol x) (matrix_buffer x) (intbuffer x) (realbuffer
    x) (tripletbuffer x) (row_state x) (col_state x).

Definition over_deleted_cols f (x : ProblemUpdate) : ProblemUpdate :=
  mkProblemUpdate (problem x) (postsolve x) (stats x)
    (postponeSubstitutions x) (dirty_row_states x) (dirty_col_states x) (f
    (deleted_cols x)) (redundant_rows x) (changed_activities x)
    (singletonRows x) (singletonColumns x) (emptyColumns x)
    (firstNewSingletonCol x) (matrix_buffer x) (intbuffer x) (realbuffer
    x) (tripletbuffer x) (row_state x) (col_state x).

Definition over_redundant_rows f (x : ProblemUpdate) : ProblemUpdate :=
  mkProblemUpdate (problem x) (postsolve x) (stats x)
    (postponeSubstitutions x) (dirty_row_states x) (dirty_col_states x)
    (deleted_cols x) (f (redundant_rows x)) (changed_activities x)
    (singletonRows x) (singletonColumns x) (emptyColumns x)
    (firstNewSingletonCol x) (matrix_buffer x) (intbuffer x) (realbuffer
    x) (tripletbuffer x) (row_state x) (col_state x).

Definition over_changed_activities f (x : ProblemUpdate) : ProblemUpdate :=
  mkProblemUpdate (problem x) (postsolve x) (stats x)
    (postponeSubstitutions x) (dirty_row_states x) (dirty_col_states x)
    (deleted_cols x) (redundant_rows x) (f (changed_activities x))
    (singletonRows x) (singletonColumns x) (emptyColumns x)
    (firstNewSingletonCol x) (matrix_buffer x) (intbuffer x) (realbuffer
    x) (tripletbuffer x) (row_state x) (col_state x).

Definition over_singletonRows f (x : ProblemUpdate) : ProblemUpdate :=
  mkProblemUpdate (problem x) (postsolve x) (stats x)
    (postponeSubstitutions x) (dirty_row_states x) (dirty_col_states x)
    (deleted_cols x) (redundant_rows x) (changed_activities x) (f
    (singletonRows x)) (singletonColumns x) (emptyColumns x)
    (firstNewSingletonCol x) (matrix_buffer x) (intbuffer x) (realbuffer
    x) (tripletbuffer x) (row_state x) (col_state x).

Definition over_singletonColumns f (x : ProblemUpdate) : ProblemUpdate :=
  mkProblemUpdate (problem x) (postsolve x) (stats x)
    (postponeSubstitutions x) (dirty_row_states x) (dirty_col_states x)
    (deleted_cols x) (redundant_rows x) (changed_activities x)
    (singletonRows x) (f (singletonColumns x)) (emptyColumns x)
    (firstNewSingletonCol x) (matrix_buffer x) (intbuffer x) (realbuffer
    x) (tripletbuffer x) (row_state x) (col_state x).

Definition over_emptyColumns f (x : ProblemUpdate) : ProblemUpdate :=
  mkProblemUpdate (problem x) (postsolve x) (stats x)
    (postponeSubstitutions x) (dirty_row_states x) (dirty_col_states x)
    (deleted_cols x) (redundant_rows x) (changed_activities x)
    (singletonRows x) (singletonColumns x) (f (emptyColumns x))
    (firstNewSingletonCol x) (matrix_buffer x) (intbuffer x) (realbuffer
    x) (tripletbuffer x) (row_state x) (col_state x).

Definition over_firstNewSingletonCol f (x : ProblemUpdate) : ProblemUpdate :=
  mkProblemUpdate (problem x) (postsolve x) (stats x)
    (postponeSubstitutions x) (dirty_row_states x) (dirty_col_states x)
    (deleted_cols x) (redundant_rows x) (changed_activities x)
    (singletonRows x) (singletonColumns x) (emptyColumns x) (f
    (firstNewSingletonCol x)) (matrix_buffer x) (intbuffer x) (realbuffer
    x) (tripletbuffer x) (row_state x) (col_state x).

Definition over_matrix_buffer f (x : ProblemUpdate) : ProblemUpdate :=
  mkProblemUpdate (problem x) (postsolve x) (stats x)
    (postponeSubstitutions x) (dirty_row_states x) (dirty_col_states x)
    (deleted_cols x) (redundant_rows x) (changed_activities x)
    (singletonRows x) (singletonColumns x) (emptyColumns x)
    (firstNewSingletonCol x) (f (matrix_buffer x)) (intbuffer x)
    (realbuffer x) (tripletbuffer x) (row_state x) (col_state x).

Definition over_intbuffer f (x : ProblemUpdate) : ProblemUpdate :=
  mkProblemUpdate (problem x) (postsolve x) (stats x)
    (postponeSubstitutions x) (dirty_row_states x) (dirty_col_states x)
    (deleted_cols x) (redundant_rows x) (changed_activities x)
    (singletonRows x) (singletonColumns x) (emptyColumns x)
    (firstNewSingletonCol x) (matrix_buffer x) (f (intbuffer x))
    (realbuffer x) (tripletbuffer x) (row_state x) (col_state x).

Definition over_realbuffer f (x : ProblemUpdate) : ProblemUpdate :=
  mkProblemUpdate (problem x) (postsolve x) (stats x)
    (postponeSubstitutions x) (dirty_row_states x) (dirty_col_states x)
    (deleted_cols x) (redundant_rows x) (changed_activities x)
    (singletonRows x) (singletonColumns x) (emptyColumns x)
    (firstNewSingletonCol x) (matrix_buffer x) (intbuffer x) (f
    (realbuffer x)) (tripletbuffer x) (row_state x) (col_state x).

Definition over_tripletbuffer f (x : ProblemUpdate) : ProblemUpdate :=
  mkProblemUpdate (problem x) (postsolve x) (stats x)
    (postponeSubstitutions x) (dirty_row_states x) (dirty_col_states x)
    (deleted_cols x) (redundant_rows x) (changed_activities x)
    (singletonRows x) (singletonColumns x) (emptyColumns x)
    (firstNewSingletonCol x) (matrix_buffer x) (intbuffer x) (realbuffer
    x) (f (tripletbuffer x)) (row_state x) (col_state x).

Definition over_row_state f (x : ProblemUpdate) : ProblemUpdate :=
  mkProblemUpdate (problem x) (postsolve x) (stats x)
    (postponeSubstitutions x) (dirty_row_states x) (dirty_col_states x)
    (deleted_cols x) (redundant_rows x) (changed_activities x)
    (singletonRows x) (singletonColumns x) (emptyColumns x)
    (firstNewSingletonCol x) (matrix_buffer x) (intbuffer x) (realbuffer
    x) (tripletbuffer x) (f (row_state x)) (col_state x).

Definition over_col_state f (x : ProblemUpdate) : ProblemUpdate :=
  mkProblemUpdate (problem x) (postsolve x) (stats x)
    (postponeSubstitutions x) (dirty_row_states x) (dirty_col_states x)
    (deleted_cols x) (redundant_rows x) (changed_activities x)
    (singletonRows x) (singletonColumns x) (emptyColumns x)
    (firstNewSingletonCol x) (matrix_buffer x) (intbuffer x) (realbuffer
    x) (tripletbuffer x) (row_state x) (f (col_state x)).


Module Field.
Definition coefficients : Lens Objective _ := mkLens coefficients over_coefficients.
Definition offset : Lens Objective _ := mkLens offset over_offset.
Definition lower_bounds : Lens VariableDomains _ := mkLens lower_bounds over_lower_bounds.
Definition upper_bounds : Lens VariableDomains _ := mkLens upper_bounds over_upper_bounds.
Definition flags : Lens VariableDomains _ := mkLens flags over_flags.
Definition lhs_values : Lens ConstraintMatrix _ := mkLens lhs_values over_lhs_values.
Definition rhs_values : Lens ConstraintMatrix _ := mkLens rhs_values over_rhs_values.
Definition row_flags : Lens ConstraintMatrix _ := mkLens row_flags over_row_flags.
Definition row_sizes : Lens ConstraintMatrix _ := mkLens row_sizes over_row_sizes.
Definition col_sizes : Lens ConstraintMatrix _ := mkLens col_sizes over_col_sizes.
Definition row_storage : Lens ConstraintMatrix _ := mkLens row_storage over_row_storage.
Definition col_storage : Lens ConstraintMatrix _ := mkLens col_storage over_col_storage.
Definition objective : Lens Problem _ := mkLens objective over_objective.
Definition variableDomains : Lens Problem _ := mkLens variableDomains over_variableDomains.
Definition constraintMatrix : Lens Problem _ := mkLens constraintMatrix over_constraintMatrix.
Definition rowActivities : Lens Problem _ := mkLens rowActivities over_rowActivities.
Definition numIntegralCols : Lens Problem _ := mkLens numIntegralCols over_numIntegralCols.
Definition numContinuousCols : Lens Problem _ := mkLens numContinuousCols over_numContinuousCols.
Definition nboundchgs : Lens Statistics _ := mkLens nboundchgs over_nboundchgs.
Definition ncoefchgs : Lens Statistics _ := mkLens ncoefchgs over_ncoefchgs.
Definition nsidechgs : Lens Statistics _ := mkLens nsidechgs over_nsidechgs.
Definition ndeletedcols : Lens Statistics _ := mkLens ndeletedcols over_ndeletedcols.
Definition ndeletedrows : Lens Statistics _ := mkLens ndeletedrows over_ndeletedrows.
Definition nrounds : Lens Statistics _ := mkLens nrounds over_nrounds.
Definition problem : Lens ProblemUpdate _ := mkLens problem over_problem.
Definition postsolve : Lens ProblemUpdate _ := mkLens postsolve over_postsolve.
Definition stats : Lens ProblemUpdate _ := mkLens stats over_stats.
Definition postponeSubstitutions : Lens ProblemUpdate _ := mkLens postponeSubstitutions over_postponeSubstitutions.
Definition dirty_row_states : Lens ProblemUpdate _ := mkLens dirty_row_states over_dirty_row_states.
Definition dirty_col_states : Lens ProblemUpdate _ := mkLens dirty_col_states over_dirty_col_states.
Definition deleted_cols : Lens ProblemUpdate _ := mkLens deleted_cols over_deleted_cols.
Definition redundant_rows : Lens ProblemUpdate _ := mkLens redundant_rows over_redundant_rows.
Definition changed_activities : Lens ProblemUpdate _ := mkLens changed_activities over_changed_activities.
Definition singletonRows : Lens ProblemUpdate _ := mkLens singletonRows over_singletonRows.
Definition singletonColumns : Lens ProblemUpdate _ := mkLens singletonColumns over_singletonColumns.
Definition emptyColumns : Lens ProblemUpdate _ := mkLens emptyColumns over_emptyColumns.
Definition firstNewSingletonCol : Lens ProblemUpdate _ := mkLens firstNewSingletonCol over_firstNewSingletonCol.
Definition matrix_buffer : Lens ProblemUpdate _ := mkLens matrix_buffer over_matrix_buffer.
Definition intbuffer : Lens ProblemUpdate _ := mkLens intbuffer over_intbuffer.
Definition realbuffer : Lens ProblemUpdate _ := mkLens realbuffer over_realbuffer.
Definition tripletbuffer : Lens ProblemUpdate _ := mkLens tripletbuffer over_tripletbuffer.
Definition row_state : Lens ProblemUpdate _ := mkLens row_state over_row_state.
Definition col_state : Lens ProblemUpdate _ := mkLens col_state over_col_state.
End Field.

Notation "l1 ▷ l2" := (lens_compose l1 l2) (at level 39, left associativity).

(** The references the member functions bind at their start
    ([Vec<REAL>& lbs = problem.getLowerBounds();] and the like). *)
Module Ref.
Definition domains := Field.problem ▷ Field.variableDomains.
Definition lbs := domains ▷ Field.lower_bounds.
Definition ubs := domains ▷ Field.upper_bounds.
Definition cflags := domains ▷ Field.flags.
Definition obj := Field.problem ▷ Field.objective.
Definition obj_coefficients := obj ▷ Field.coefficients.
Definition obj_offset := obj ▷ Field.offset.
Definition consMatrix := Field.problem ▷ Field.constraintMatrix.
Definition lhs := consMatrix ▷ Field.lhs_values.
Definition rhs := consMatrix ▷ Field.rhs_values.
Definition rflags := consMatrix ▷ Field.row_flags.
Definition rowsize := consMatrix ▷ Field.row_sizes.
Definition colsize := consMatrix ▷ Field.col_sizes.
Definition activities := Field.problem ▷ Field.rowActivities.
Definition numIntegralCols := Field.problem ▷ Field.numIntegralCols.
Definition numContinuousCols := Field.problem ▷ Field.numContinuousCols.
Definition nboundchgs := Field.stats ▷ Field.nboundchgs.
Definition ncoefchgs := Field.stats ▷ Field.ncoefchgs.
Definition nsidechgs := Field.stats ▷ Field.nsidechgs.
Definition ndeletedcols := Field.stats ▷ Field.ndeletedcols.
Definition ndeletedrows := Field.stats ▷ Field.ndeletedrows.
End Ref.

(** ** The state and fault monad *)

Inductive Fault :=
| OutOfBounds       (** a vector or a transaction is read or written outside its range *)
| AssertionFailed   (** an [assert] of a build without [NDEBUG] does not hold *)
| DivisionByZero.   (** a rational is divided by zero *)

Inductive Res (A : Type) :=
| Ok (a : A) (s : ProblemUpdate)
| Err (e : Fault).
Arguments Ok {A}.
Arguments Err {A}.

Definition M (A : Type) : Type := ProblemUpdate -> Res A.

Definition ret {A} (a : A) : M A := fun s => Ok a s.
Definition bind {A B} (m : M A) (f : A -> M B) : M B := fun s =>
  match m s with
  | Ok a s' => f a s'
  | Err e => Err e
  end.

Declare Scope M_scope.
Delimit Scope M_scope with M.
Bind Scope M_scope with M.
Notation "x ← y ; z" := (bind y (fun x => z))
  (at level 20, y at level 100, z at level 200, only parsing) : M_scope.
Notation "x ;; z" := (bind x (fun _ => z))
  (at level 100, z at level 200, only parsing, right associativity) : M_scope.
Local Open Scope M_scope.

Definition fault {A} (e : Fault) : M A := fun _ => Err e.
Definition gets {A} (f : ProblemUpdate -> A) : M A := fun s => Ok (f s) s.
Definition read {A} (l : Lens ProblemUpdate A) : M A := gets (view l).
Definition modify {A} (l : Lens ProblemUpdate A) (f : A -> A) : M unit :=
  fun s => Ok tt (over l f s).
Definition write {A} (l : Lens ProblemUpdate A) (x : A) : M unit :=
  modify l (fun _ => x).
Definition when (b : bool) (m : M unit) : M unit := if b then m else ret tt.

(** [v[i]] on a [Vec]: defined for [0 <= i < v.size()] only. *)
Definition index {A} (v : list A) (i : Z) : option A :=
  if i <? 0 then None else v !! Z.to_nat i.

Definition vec_at {A} (l : Lens ProblemUpdate (list A)) (i : Z) : M A := fun s =>
  match index (view l s) i with
  | Some x => Ok x s
  | None => Err OutOfBounds
  end.

Definition vec_modify {A} (l : Lens ProblemUpdate (list A)) (i : Z) (f : A -> A)
  : M unit := fun s =>
  match index (view l s) i with
  | Some x => Ok tt (over l (fun v => <[Z.to_nat i := f x]> v) s)
  | None => Err OutOfBounds
  end.

Definition vec_set {A} (l : Lens ProblemUpdate (list A)) (i : Z) (x : A) : M unit :=
  vec_modify l i (fun _ => x).

Definition push_back {A} (l : Lens ProblemUpdate (list A)) (x : A) : M unit :=
  modify l (fun v => v ++ [x]).

Definition size {A} (v : list A) : Z := Z.of_nat (length v).

(** Division of rationals; boost's rational type raises on a zero divisor. *)
Definition divide (a b : Q) : M Q :=
  if Qeq_bool b 0 then fault DivisionByZero else ret (a / b)%Q.

(** A loop body either goes on to the next iteration with the values of the
    local variables it maintains, or leaves the function with [return]. *)
Inductive Flow (S R : Type) :=
| Next (s : S)
| Return (r : R).
Arguments Next {S R}.
Arguments Return {S R}.

(** [for( x : l ) body] *)
Fixpoint for_each {A S R} (l : list A) (body : A -> S -> M (Flow S R))
    (locals : S) : M (Flow S R) :=
  match l with
  | [] => ret (Next locals)
  | x :: l' =>
      flow ← body x locals;
      match flow with
      | Next locals' => for_each l' body locals'
      | Return r => ret (Return r)
      end
  end.

(** A loop without [return] and without locals. *)
Fixpoint for_each_ {A} (l : list A) (body : A -> M unit) : M unit :=
  match l with
  | [] => ret tt
  | x :: l' => body x;; for_each_ l' body
  end.

(** [std::all_of] *)
Fixpoint all_of {A} (l : list A) (p : A -> M bool) : M bool :=
  match l with
  | [] => ret true
  | x :: l' => b ← p x; if b then all_of l' p else ret false
  end.

(** [Vec<int>::resize( n )] *)
Definition resize (n : Z) (v : list Z) : list Z :=
  take (Z.to_nat n) v ++ replicate (Z.to_nat n - length v) 0.

(** ** Collaborators *)

(** The numeric helper [Num<REAL>] (papilo/misc/Num.hpp), taken as a
    parameter: the tolerant comparisons and roundings the file calls. *)
Record Num := mkNum {
  getFeasTol : Q;
  isFeasLT : Q -> Q -> bool;
  isFeasGT : Q -> Q -> bool;
  isFeasIntegral : Q -> bool;
  feasCeil : Q -> Q;
  feasFloor : Q -> Q;
  isHugeVal : Q -> bool;
  isEq : Q -> Q -> bool;
  isZero : Q -> bool
}.

(** The by-reference arguments of the matrix operations. *)
Record Worklists := mkWorklists {
  wl_singletonRows : list Z;
  wl_singletonColumns : list Z;
  wl_emptyColumns : list Z
}.

Record MatrixFrame := mkMatrixFrame {
  fr_matrix : ConstraintMatrix;
  fr_domains : VariableDomains;
  fr_intbuffer : list Z;
  fr_realbuffer : list Q;
  fr_tripletbuffer : list Triplet;
  fr_changed_activities : list Z;
  fr_activities : list RowActivity;
  fr_worklists : Worklists
}.

(** A coefficient change reported to the [coeffChanged] callback. *)
Record CoeffChange := mkCoeffChange {
  cc_row : Z; cc_col : Z; cc_oldval : Q; cc_newval : Q
}.

(** Functions of [ConstraintMatrix], [Problem] and [RowActivity] that are
    defined in other files, taken as parameters.  Each one acts on the
    objects it is handed by reference and returns them; an operation that
    takes a callback returns, in order, the notifications it issues. *)
Record Externals := mkExternals {
  checkStatus : Num -> RowActivity -> Z -> Q -> Q -> RowStatus.t;
  update_activities_after_coeffchange :
    Q -> Q -> Z -> Q -> Q -> RowActivity -> RowActivity * list ActivityChange.t;
  changeCoefficients :
    ConstraintMatrix -> MatrixBuffer -> Worklists -> list RowActivity ->
    ConstraintMatrix * Worklists * list RowActivity * list CoeffChange;
  deleteRowsAndCols :
    ConstraintMatrix -> list Z -> list Z -> list RowActivity -> Worklists ->
    ConstraintMatrix * list Z * list Z * list RowActivity * Worklists;
  modifyLeftHandSide : bool -> ConstraintMatrix -> Z -> Q -> ConstraintMatrix;
  modifyRightHandSide : bool -> ConstraintMatrix -> Z -> Q -> ConstraintMatrix;
  checkAggregationSparsityCondition :
    ConstraintMatrix -> Z -> SparseVectorView -> Z -> Z -> list Z -> bool * list Z;
  aggregate : Num -> Z -> SparseVectorView -> Q -> Z -> MatrixFrame -> MatrixFrame;
  sparsify : Num -> Z -> Q -> Z -> Z -> MatrixFrame -> Z * MatrixFrame;
  substituteVarInObj : Num -> Z -> Z -> Problem -> Objective
}.

(** What a member function finds around it: the numeric helper, the
    options, the collaborators, and whether asserts are compiled out. *)
Class Env := mkEnv {
  num : Num;
  presolveOptions : PresolveOptions;
  ext : Externals;
  NDEBUG : bool
}.

(** ** The member functions of [ProblemUpdate]

    Calls of [Message::debug] have no effect on the state and are left out. *)

Section Model.
Context {env : Env}.

(** [assert( cond )]: the condition is evaluated only without [NDEBUG]. *)
Definition assert (cond : M bool) : M unit :=
  if NDEBUG then ret tt
  else b ← cond; if b then ret tt else fault AssertionFailed.

(** Short-circuit [&&] and [||]. *)
Definition andM (a b : M bool) : M bool := x ← a; if x then b else ret false.
Definition orM (a b : M bool) : M bool := x ← a; if x then ret true else b.
Definition notM (a : M bool) : M bool := x ← a; ret (negb x).

(** [flags[i].test( mask )] *)
Definition test_at (l : Lens ProblemUpdate (list Z)) (i mask : Z) : M bool :=
  f ← vec_at l i; ret (Flags.test f mask).

Definition incr (l : Lens ProblemUpdate Z) : M unit := modify l Z.succ.
Definition decr (l : Lens ProblemUpdate Z) : M unit := modify l Z.pred.

(** Modelled from the spec: the problem has columns [c ∈ [0,N)] and rows
    [r ∈ [0,M)]; [getNCols] and [getNRows] are the lengths of the flag
    vectors. *)
Definition getNCols : M Z := v ← read Ref.cflags; ret (size v).
Definition getNRows : M Z := v ← read Ref.rflags; ret (size v).

(** Modelled from the spec: [ConstraintMatrix::isRowRedundant] tests the
    [Redundant] flag of the row. *)
Definition isRowRedundant (row : Z) : M bool :=
  test_at Ref.rflags row RowFlag.kRedundant.

Definition getColumnCoefficients (col : Z) : M SparseVectorView :=
  vec_at (Ref.consMatrix ▷ Field.col_storage) col.

Definition getRowCoefficients (row : Z) : M SparseVectorView :=
  vec_at (Ref.consMatrix ▷ Field.row_storage) row.

Definition setColState (col : Z) (flags : Z) : M unit :=
  assert (n ← getNCols; ret ((0 <=? col) && (col <? n)));;
  st ← vec_at Field.col_state col;
  when (Flags.equal st State.kUnmodified)
    (push_back Field.dirty_col_states col);;
  vec_modify Field.col_state col (fun st => Flags.set st flags).

Definition setRowState (row : Z) (flags : Z) : M unit :=
  assert (n ← getNRows; ret ((0 <=? row) && (row <? n)));;
  (* check that equation flag is set correctly *)
  assert (
    rf ← vec_at Ref.rflags row;
    let sides_differ : M bool :=
      lhs ← vec_at Ref.lhs row; rhs ← vec_at Ref.rhs row;
      ret (Qne_bool lhs rhs) in
    let sides_equal : M bool :=
      lhs ← vec_at Ref.lhs row; rhs ← vec_at Ref.rhs row;
      ret (Qeq_bool lhs rhs) in
    orM (ret (Flags.test rf RowFlag.kRedundant))
   (orM (andM (ret (negb (Flags.test rf RowFlag.kEquation)))
              (orM (ret (Flags.test rf
                            (Z.lor RowFlag.kLhsInf RowFlag.kRhsInf)))
                   sides_differ))
        (andM (ret (Flags.test rf RowFlag.kEquation))
        (andM (ret (negb (Flags.test rf
                             (Z.lor RowFlag.kLhsInf RowFlag.kRhsInf))))
              sides_equal))));;
  st ← vec_at Field.row_state row;
  when (Flags.equal st State.kUnmodified)
    (push_back Field.dirty_row_states row);;
  vec_modify Field.row_state row (fun st => Flags.set st flags).

Definition setPostponeSubstitutions (b : bool) : M unit :=
  write Field.postponeSubstitutions b.

Definition update_activity (actChange : ActivityChange.t) (rowid : Z)
    (activity : RowActivity) : M RowActivity :=
  nrounds ← read (Field.stats ▷ Field.nrounds);
  if lastchange activity =? nrounds then ret activity
  else if match actChange with
          | ActivityChange.kMin => 1 <? ninfmin activity
          | ActivityChange.kMax => false
          end then ret activity
  else if match actChange with
          | ActivityChange.kMax => 1 <? ninfmax activity
          | ActivityChange.kMin => false
          end then ret activity
  else
    redundant ← isRowRedundant rowid;
    if redundant then ret activity
    else
      push_back Field.changed_activities rowid;;
      ret (mkRowActivity (act_min activity) (act_max activity)
              (ninfmin activity) (ninfmax activity) nrounds).

(** Modelled from the spec: the activity tracker is defined in another
    file.  For an entry with coefficient [colval], a change of the lower
    bound affects [min] when [colval > 0] and [max] when [colval < 0], and
    symmetrically for the upper bound.  A bound that was infinite stops
    counting in [ninfmin]/[ninfmax] and contributes [colval * newbound];
    a finite bound moves the sum by [colval * (newbound - oldbound)]. *)
Definition update_activity_after_boundchange (colval : Q)
    (type : BoundChange.t) (oldbound newbound : Q) (oldbound_inf : bool)
    (activity : RowActivity) : RowActivity * option ActivityChange.t :=
  let on_min :=
    if oldbound_inf
    then mkRowActivity (act_min activity + colval * newbound)%Q
           (act_max activity) (ninfmin activity - 1) (ninfmax activity)
           (lastchange activity)
    else mkRowActivity
           (act_min activity + colval * (newbound - oldbound))%Q
           (act_max activity) (ninfmin activity) (ninfmax activity)
           (lastchange activity) in
  let on_max :=
    if oldbound_inf
    then mkRowActivity (act_min activity)
           (act_max activity + colval * newbound)%Q
           (ninfmin activity) (ninfmax activity - 1) (lastchange activity)
    else mkRowActivity (act_min activity)
           (act_max activity + colval * (newbound - oldbound))%Q
           (ninfmin activity) (ninfmax activity) (lastchange activity) in
  let positive := Qlt_bool 0 colval in
  let negative := Qlt_bool colval 0 in
  match type with
  | BoundChange.kLower =>
      if positive then (on_min, Some ActivityChange.kMin)
      else if negative then (on_max, Some ActivityChange.kMax)
      else (activity, None)
  | BoundChange.kUpper =>
      if negative then (on_min, Some ActivityChange.kMin)
      else if positive then (on_max, Some ActivityChange.kMax)
      else (activity, None)
  end.

(** Modelled from the spec: for each entry [(r, v)] of the column the
    activity of row [r] is updated, and after each update the callback
    is invoked on that activity. *)
Fixpoint update_activities_after_boundchange (colvec : SparseVectorView)
    (type : BoundChange.t) (oldbound newbound : Q) (oldbound_inf : bool)
    (activityChange : ActivityChange.t -> Z -> RowActivity -> M RowActivity)
    : M unit :=
  match colvec with
  | [] => ret tt
  | (r, v) :: colvec' =>
      activity ← vec_at Ref.activities r;
      match update_activity_after_boundchange v type oldbound newbound
              oldbound_inf activity with
      | (activity', Some actChange) =>
          activity'' ← activityChange actChange r activity';
          vec_set Ref.activities r activity''
      | (activity', None) => vec_set Ref.activities r activity'
      end;;
      update_activities_after_boundchange colvec' type oldbound newbound
        oldbound_inf activityChange
  end.

Definition markRowRedundant (row : Z) : M unit :=
  redundant ← test_at Ref.rflags row RowFlag.kRedundant;
  when (negb redundant)
    (push_back Field.redundant_rows row;;
     incr Ref.ndeletedrows;;
     vec_modify Ref.rflags row (fun f => Flags.set f RowFlag.kRedundant)).

Definition markColFixed (col : Z) : M unit :=
  assert (inactive ← test_at Ref.cflags col ColFlag.kInactive;
          ret (negb inactive));;
  vec_modify Ref.cflags col (fun f => Flags.set f ColFlag.kFixed);;
  push_back Field.deleted_cols col;;
  incr Ref.ndeletedcols;;
  integral ← test_at Ref.cflags col ColFlag.kIntegral;
  if integral then decr Ref.numIntegralCols
  else decr Ref.numContinuousCols.

Definition fixCol (col : Z) (val : Q) : M PresolveStatus.t :=
  substituted ← test_at Ref.cflags col ColFlag.kSubstituted;
  if substituted then ret PresolveStatus.kUnchanged
  else
    lbchanged ← orM (test_at Ref.cflags col ColFlag.kLbInf)
                    (lb ← vec_at Ref.lbs col; ret (Qne_bool val lb));
    ubchanged ← orM (test_at Ref.cflags col ColFlag.kUbInf)
                    (ub ← vec_at Ref.ubs col; ret (Qne_bool val ub));
    when lbchanged (incr Ref.nboundchgs);;
    when ubchanged (incr Ref.nboundchgs);;
    if lbchanged || ubchanged then
      colvec ← getColumnCoefficients col;
      infeasible ←
        orM (andM (notM (test_at Ref.cflags col ColFlag.kLbInf))
                  (lb ← vec_at Ref.lbs col; ret (isFeasLT num val lb)))
       (orM (andM (notM (test_at Ref.cflags col ColFlag.kUbInf))
                  (ub ← vec_at Ref.ubs col; ret (isFeasGT num val ub)))
            (andM (test_at Ref.cflags col ColFlag.kIntegral)
                  (ret (negb (isFeasIntegral num val)))));
      if infeasible then ret PresolveStatus.kInfeasible
      else
        fixed ← test_at Ref.cflags col ColFlag.kFixed;
        if fixed then ret PresolveStatus.kUnchanged
        else
          when lbchanged
            (lb ← vec_at Ref.lbs col;
             useless ← test_at Ref.cflags col ColFlag.kLbUseless;
             update_activities_after_boundchange colvec BoundChange.kLower
               lb val useless update_activity;;
             vec_set Ref.lbs col val;;
             vec_modify Ref.cflags col
               (fun f => Flags.unset f ColFlag.kLbUseless));;
          when ubchanged
            (ub ← vec_at Ref.ubs col;
             useless ← test_at Ref.cflags col ColFlag.kUbUseless;
             update_activities_after_boundchange colvec BoundChange.kUpper
               ub val useless update_activity;;
             vec_set Ref.ubs col val;;
             vec_modify Ref.cflags col
               (fun f => Flags.unset f ColFlag.kUbUseless));;
          (* remember fixed column *)
          markColFixed col;;
          setColState col State.kBoundsModified;;
          ret PresolveStatus.kReduced
    else
      assert (test_at Ref.cflags col ColFlag.kFixed);;
      ret PresolveStatus.kUnchanged.

Definition fixColInfinity (col : Z) (val : Q) : M PresolveStatus.t :=
  skip ← orM (test_at Ref.cflags col ColFlag.kSubstituted)
        (orM (test_at Ref.cflags col ColFlag.kFixed)
             (ret (Qeq_bool val 0)));
  if skip then ret PresolveStatus.kUnchanged
  else
    assert (andM (ret (Qlt_bool val 0))
                 (notM (test_at Ref.cflags col ColFlag.kLbInf)));;
    assert (andM (ret (Qlt_bool 0 val))
                 (notM (test_at Ref.cflags col ColFlag.kUbInf)));;
    (* activity doesn't need to be upgraded because rows should be mark
       redundant *)
    markColFixed col;;
    setColState col State.kBoundsModified;;
    ret PresolveStatus.kReduced.

Definition changeLB (col : Z) (val : Q) : M PresolveStatus.t :=
  substituted ← test_at Ref.cflags col ColFlag.kSubstituted;
  if substituted then ret PresolveStatus.kUnchanged
  else
    integral ← test_at Ref.cflags col
                 (Z.lor ColFlag.kIntegral ColFlag.kImplInt);
    let newbound := if integral then feasCeil num val else val in
    (* the statements after the clamp of [newbound] to [ubs[col]] *)
    let proceed (newbound : Q) : M PresolveStatus.t :=
      (if negb (isHugeVal num newbound) then
         colvec ← getColumnCoefficients col;
         lb ← vec_at Ref.lbs col;
         useless ← test_at Ref.cflags col ColFlag.kLbUseless;
         update_activities_after_boundchange colvec BoundChange.kLower
           lb newbound useless update_activity;;
         vec_modify Ref.cflags col
           (fun f => Flags.unset f ColFlag.kLbUseless)
       else
         vec_modify Ref.cflags col
           (fun f => Flags.unset f ColFlag.kLbInf));;
      vec_set Ref.lbs col newbound;;
      fixed ← andM (notM (test_at Ref.cflags col ColFlag.kUbInf))
                   (ub ← vec_at Ref.ubs col; lb ← vec_at Ref.lbs col;
                    ret (Qeq_bool ub lb));
      when fixed
        (vec_modify Ref.cflags col (fun f => Flags.set f ColFlag.kFixed);;
         push_back Field.deleted_cols col;;
         incr Ref.ndeletedcols;;
         integral ← test_at Ref.cflags col ColFlag.kIntegral;
         if integral then decr Ref.numIntegralCols
         else decr Ref.numContinuousCols);;
      setColState col State.kBoundsModified;;
      ret PresolveStatus.kReduced in
    moves ← orM (test_at Ref.cflags col ColFlag.kLbInf)
                (lb ← vec_at Ref.lbs col; ret (Qlt_bool lb newbound));
    if moves then
      incr Ref.nboundchgs;;
      above ← andM (notM (test_at Ref.cflags col ColFlag.kUbInf))
                   (ub ← vec_at Ref.ubs col; ret (Qlt_bool ub newbound));
      if above then
        ub ← vec_at Ref.ubs col;
        if isFeasGT num newbound ub then ret PresolveStatus.kInfeasible
        else
          already ← andM (notM (test_at Ref.cflags col ColFlag.kLbInf))
                         (lb ← vec_at Ref.lbs col; ub ← vec_at Ref.ubs col;
                          ret (Qeq_bool lb ub));
          if already then ret PresolveStatus.kUnchanged
          else
            ub ← vec_at Ref.ubs col;
            proceed ub
      else proceed newbound
    else ret PresolveStatus.kUnchanged.

Definition changeUB (col : Z) (val : Q) : M PresolveStatus.t :=
  substituted ← test_at Ref.cflags col ColFlag.kSubstituted;
  if substituted then ret PresolveStatus.kUnchanged
  else
    integral ← test_at Ref.cflags col
                 (Z.lor ColFlag.kIntegral ColFlag.kImplInt);
    let newbound := if integral then feasFloor num val else val in
    (* the statements after the clamp of [newbound] to [lbs[col]] *)
    let proceed (newbound : Q) : M PresolveStatus.t :=
      (if negb (isHugeVal num newbound) then
         colvec ← getColumnCoefficients col;
         ub ← vec_at Ref.ubs col;
         useless ← test_at Ref.cflags col ColFlag.kUbUseless;
         update_activities_after_boundchange colvec BoundChange.kUpper
           ub newbound useless update_activity;;
         vec_modify Ref.cflags col
           (fun f => Flags.unset f ColFlag.kUbUseless)
       else
         vec_modify Ref.cflags col
           (fun f => Flags.unset f ColFlag.kUbInf));;
      vec_set Ref.ubs col newbound;;
      fixed ← andM (notM (test_at Ref.cflags col ColFlag.kLbInf))
                   (ub ← vec_at Ref.ubs col; lb ← vec_at Ref.lbs col;
                    ret (Qeq_bool ub lb));
      when fixed
        (vec_modify Ref.cflags col (fun f => Flags.set f ColFlag.kFixed);;
         push_back Field.deleted_cols col;;
         incr Ref.ndeletedcols;;
         integral ← test_at Ref.cflags col ColFlag.kIntegral;
         if integral then decr Ref.numIntegralCols
         else decr Ref.numContinuousCols);;
      setColState col State.kBoundsModified;;
      ret PresolveStatus.kReduced in
    moves ← orM (test_at Ref.cflags col ColFlag.kUbInf)
                (ub ← vec_at Ref.ubs col; ret (Qlt_bool newbound ub));
    if moves then
      incr Ref.nboundchgs;;
      below ← andM (notM (test_at Ref.cflags col ColFlag.kLbInf))
                   (lb ← vec_at Ref.lbs col; ret (Qlt_bool newbound lb));
      if below then
        lb ← vec_at Ref.lbs col;
        if isFeasLT num newbound lb then ret PresolveStatus.kInfeasible
        else
          already ← andM (notM (test_at Ref.cflags col ColFlag.kUbInf))
                         (lb ← vec_at Ref.lbs col; ub ← vec_at Ref.ubs col;
                          ret (Qeq_bool lb ub));
          if already then ret PresolveStatus.kUnchanged
          else
            lb ← vec_at Ref.lbs col;
            proceed lb
      else proceed newbound
    else ret PresolveStatus.kUnchanged.

Definition worklists (s : ProblemUpdate) : Worklists :=
  mkWorklists (singletonRows s) (singletonColumns s) (emptyColumns s).

Definition set_worklists (wl : Worklists) : M unit :=
  write Field.singletonRows (wl_singletonRows wl);;
  write Field.singletonColumns (wl_singletonColumns wl);;
  write Field.emptyColumns (wl_emptyColumns wl).

(** check changed activities for infeasibility and row redundancy *)
Definition checkChangedActivities : M PresolveStatus.t :=
  changed ← read Field.changed_activities;
  flow ← for_each changed (fun r status =>
    redundant ← test_at Ref.rflags r RowFlag.kRedundant;
    if redundant then ret (Next status)
    else
      activity ← vec_at Ref.activities r;
      rf ← vec_at Ref.rflags r;
      lhs ← vec_at Ref.lhs r;
      rhs ← vec_at Ref.rhs r;
      match checkStatus ext num activity rf lhs rhs with
      | RowStatus.kRedundant =>
          markRowRedundant r;;
          ret (Next PresolveStatus.kReduced)
      | RowStatus.kRedundantLhs =>
          modify Ref.consMatrix
            (fun cm => modifyLeftHandSide ext true cm r 0);;
          ret (Next PresolveStatus.kReduced)
      | RowStatus.kRedundantRhs =>
          modify Ref.consMatrix
            (fun cm => modifyRightHandSide ext true cm r 0);;
          ret (Next PresolveStatus.kReduced)
      | RowStatus.kInfeasible => ret (Return PresolveStatus.kInfeasible)
      | RowStatus.kUnknown => ret (Next status)
      end) PresolveStatus.kUnchanged;
  match flow with
  | Next status => ret status
  | Return r => ret r
  end.

(** The lambda [coeffChanged] of [flushChangedCoeffs]. *)
Definition coeffChanged (c : CoeffChange) : M unit :=
  lb ← vec_at Ref.lbs (cc_col c);
  ub ← vec_at Ref.ubs (cc_col c);
  cf ← vec_at Ref.cflags (cc_col c);
  activity ← vec_at Ref.activities (cc_row c);
  let '(activity', changes) :=
    update_activities_after_coeffchange ext lb ub cf (cc_oldval c)
      (cc_newval c) activity in
  flow ← for_each (R := unit) changes (fun actChange activity =>
            activity' ← update_activity actChange (cc_row c) activity;
            ret (Next activity')) activity';
  match flow with
  | Next activity'' => vec_set Ref.activities (cc_row c) activity''
  | Return _ => ret tt
  end;;
  incr Ref.ncoefchgs.
  (* TODO update up/down-locks -> so that i.e. DualFix can use it *)

(** flush changes coefficients after applying several reductions *)
Definition flushChangedCoeffs : M unit :=
  (* apply outstanding coefficient change *)
  buffer ← read Field.matrix_buffer;
  when (negb (match buffer with [] => true | _ => false end))
    (cm ← read Ref.consMatrix;
     wl ← gets worklists;
     activities ← read Ref.activities;
     let '(cm', wl', activities', changes) :=
       changeCoefficients ext cm buffer wl activities in
     write Ref.consMatrix cm';;
     set_worklists wl';;
     write Ref.activities activities';;
     for_each_ changes coeffChanged;;
     write Field.matrix_buffer []).

(** adds a singleton row as a bound change and marks the row redundant *)
Definition removeSingletonRow (row : Z) : M PresolveStatus.t :=
  skip ← orM (sz ← vec_at Ref.rowsize row; ret (negb (sz =? 1)))
             (test_at Ref.rflags row RowFlag.kRedundant);
  if skip then ret PresolveStatus.kUnchanged
  else
    rowvec ← getRowCoefficients row;
    assert (ret (getLength rowvec =? 1));;
    match rowvec with
    | [] => fault OutOfBounds
    | (col, val) :: _ =>
        lhs ← vec_at Ref.lhs row;
        rhs ← vec_at Ref.rhs row;
        (* TODO: save row for dual-postsolve. *)
        equation ← test_at Ref.rflags row RowFlag.kEquation;
        status ←
          (if equation then
             x ← divide rhs val; fixCol col x
           else if Qlt_bool val 0 then
             lhsinf ← test_at Ref.rflags row RowFlag.kLhsInf;
             status ← (if negb lhsinf
                       then x ← divide lhs val; changeUB col x
                       else ret PresolveStatus.kUnchanged);
             rhsinf ← test_at Ref.rflags row RowFlag.kRhsInf;
             if negb rhsinf &&
                negb (PresolveStatus.eqb status PresolveStatus.kInfeasible)
             then x ← divide rhs val; changeLB col x
             else ret status
           else
             assert (ret (Qlt_bool 0 val));;
             lhsinf ← test_at Ref.rflags row RowFlag.kLhsInf;
             status ← (if negb lhsinf
                       then x ← divide lhs val; changeLB col x
                       else ret PresolveStatus.kUnchanged);
             rhsinf ← test_at Ref.rflags row RowFlag.kRhsInf;
             if negb rhsinf &&
                negb (PresolveStatus.eqb status PresolveStatus.kInfeasible)
             then x ← divide rhs val; changeUB col x
             else ret status);
        markRowRedundant row;;
        ret status
    end.

(** removes the constant contribution of fixed columns
    from the left and right hand sides and the activity *)
Definition removeFixedCols : M unit :=
  deleted ← read Field.deleted_cols;
  for_each_ deleted (fun col =>
    fixed ← test_at Ref.cflags col ColFlag.kFixed;
    if negb fixed then ret tt
    else
      lbinf ← test_at Ref.cflags col ColFlag.kLbInf;
      if lbinf then
        ub ← vec_at Ref.ubs col;
        p ← read Field.problem;
        push_back Field.postsolve (FixedInfCol col (-1) ub p)
      else
        ubinf ← test_at Ref.cflags col ColFlag.kUbInf;
        if ubinf then
          lb ← vec_at Ref.lbs col;
          p ← read Field.problem;
          push_back Field.postsolve (FixedInfCol col 1 lb p)
        else
          assert (lb ← vec_at Ref.lbs col; ub ← vec_at Ref.ubs col;
                  ret (Qeq_bool lb ub));;
          lb ← vec_at Ref.lbs col;
          push_back Field.postsolve (FixedCol col lb);;
          (* if it is fixed to zero activities and sides do not need to
             be updated *)
          if Qeq_bool lb 0 then ret tt
          else
            (* update objective offset *)
            c ← vec_at Ref.obj_coefficients col;
            when (Qne_bool c 0)
              (modify Ref.obj_offset (fun o => o + lb * c)%Q;;
               vec_set Ref.obj_coefficients col 0%Q);;
            (* fixed to nonzero value, so update sides and activities *)
            colvec ← getColumnCoefficients col;
            for_each_ colvec (fun '(row, colval) =>
              (* if the row is redundant it will also be removed and does
                 not need to be updated *)
              redundant ← test_at Ref.rflags row RowFlag.kRedundant;
              if redundant then ret tt
              else
                (* subtract constant contribution from activity and
                   sides *)
                let constant := (lb * colval)%Q in
                vec_modify Ref.activities row (fun a =>
                  mkRowActivity (act_min a - constant)%Q
                    (act_max a - constant)%Q (ninfmin a) (ninfmax a)
                    (lastchange a));;
                lhsinf ← test_at Ref.rflags row RowFlag.kLhsInf;
                when (negb lhsinf)
                  (vec_modify Ref.lhs row (fun x => x - constant)%Q);;
                rhsinf ← test_at Ref.rflags row RowFlag.kRhsInf;
                when (negb rhsinf)
                  (vec_modify Ref.rhs row (fun x => x - constant)%Q);;
                (* due to numerics a ranged row can become an equality *)
                becomes_equation ←
                  andM (notM (test_at Ref.rflags row
                                (Z.lor (Z.lor RowFlag.kLhsInf RowFlag.kRhsInf)
                                       RowFlag.kEquation)))
                       (lhs ← vec_at Ref.lhs row; rhs ← vec_at Ref.rhs row;
                        ret (Qeq_bool lhs rhs));
                when becomes_equation
                  (vec_modify Ref.rflags row
                     (fun f => Flags.set f RowFlag.kEquation)))).

Definition removeEmptyColumns : M PresolveStatus.t :=
  empty ← read Field.emptyColumns;
  if negb (dualreds presolveOptions =? 0) &&
     negb (match empty with [] => true | _ => false end)
  then
    flow ← for_each empty (fun col (_ : unit) =>
      colsize ← vec_at Ref.colsize col;
      if negb (colsize =? 0) then ret (Next tt)
      else
        skip ← andM (ret (dualreds presolveOptions =? 1))
                    (c ← vec_at Ref.obj_coefficients col;
                     ret (Qeq_bool c 0));
        if skip then ret (Next tt)
        else
          inactive ← test_at Ref.cflags col ColFlag.kInactive;
          flow ←
            (if negb inactive then
               assert (sz ← vec_at Ref.colsize col; ret (sz =? 0));;
               coef ← vec_at Ref.obj_coefficients col;
               (* the choice of [fixval]; [Return] leaves the function *)
               choice ←
                 (if Qeq_bool coef 0 then
                    ub_negative ←
                      andM (notM (test_at Ref.cflags col ColFlag.kUbInf))
                           (ub ← vec_at Ref.ubs col; ret (Qlt_bool ub 0));
                    if ub_negative then
                      ub ← vec_at Ref.ubs col; ret (Next ub)
                    else
                      lb_positive ←
                        andM (notM (test_at Ref.cflags col ColFlag.kLbInf))
                             (lb ← vec_at Ref.lbs col; ret (Qlt_bool 0 lb));
                      if lb_positive then
                        lb ← vec_at Ref.lbs col; ret (Next lb)
                      else ret (Next 0%Q)
                  else
                    choice ←
                      (if Qlt_bool coef 0 then
                         ubinf ← test_at Ref.cflags col ColFlag.kUbInf;
                         if ubinf
                         then ret (Return PresolveStatus.kUnbndOrInfeas)
                         else ub ← vec_at Ref.ubs col; ret (Next ub)
                       else
                         assert (ret (Qlt_bool 0 coef));;
                         lbinf ← test_at Ref.cflags col ColFlag.kLbInf;
                         if lbinf
                         then ret (Return PresolveStatus.kUnbndOrInfeas)
                         else lb ← vec_at Ref.lbs col; ret (Next lb));
                    match choice with
                    | Next fixval =>
                        modify Ref.obj_offset (fun o => o + coef * fixval)%Q;;
                        vec_set Ref.obj_coefficients col 0%Q;;
                        ret (Next fixval)
                    | Return r => ret (Return r)
                    end);
               match choice with
               | Next fixval =>
                   push_back Field.postsolve (FixedCol col fixval);;
                   vec_modify Ref.cflags col
                     (fun f => Flags.set f ColFlag.kFixed);;
                   incr Ref.ndeletedcols;;
                   integral ← test_at Ref.cflags col ColFlag.kIntegral;
                   (if integral then decr Ref.numIntegralCols
                    else decr Ref.numContinuousCols);;
                   ret (Next tt)
               | Return r => ret (Return r)
               end
             else ret (Next tt));
          match flow with
          | Next _ =>
              assert (c ← vec_at Ref.obj_coefficients col;
                      ret (Qeq_bool c 0));;
              vec_set Ref.colsize col (-1);;
              ret (Next tt)
          | Return r => ret (Return r)
          end) tt;
    match flow with
    | Next _ =>
        write Field.emptyColumns [];;
        ret PresolveStatus.kReduced
    | Return r => ret r
    end
  else ret PresolveStatus.kUnchanged.

(** The two loops of [flush] that drop the columns that are not
    singletons anymore: [for( ; i != stop; ++i )] with the counter [k] of
    dropped entries.  Every iteration reads [singletonColumns[i]], which is
    out of bounds once [i] reaches the size of the vector, so at most
    [fuel = size - i] iterations complete. *)
Fixpoint compress_singleton_columns (fuel : nat) (i stop k : Z)
    : M (Z * Z) :=
  if i =? stop then ret (i, k)
  else
    c ← vec_at Field.singletonColumns i;
    sz ← vec_at Ref.colsize c;
    k' ← (if negb (sz =? 1) then ret (k + 1)
          else
            when (negb (k =? 0))
              (vec_set Field.singletonColumns (i - k) c);;
            ret k);
    match fuel with
    | O => fault OutOfBounds
    | S fuel' => compress_singleton_columns fuel' (i + 1) stop k'
    end.

(** [std::remove_if] followed by [erase]. *)
Fixpoint remove_if (l : list Z) (p : Z -> M bool) : M (list Z) :=
  match l with
  | [] => ret []
  | x :: l' =>
      drop ← p x;
      kept ← remove_if l' p;
      ret (if drop then kept else x :: kept)
  end.

(** flush changes after applying several reductions *)
Definition flush : M PresolveStatus.t :=
  (* apply outstanding coefficient change *)
  flushChangedCoeffs;;
  (* remove all singleton rows after applying the coefficient changes *)
  rows ← read Field.singletonRows;
  flow ←
    (if negb (match rows with [] => true | _ => false end) then
       flow ← for_each rows (fun row (_ : unit) =>
         status ← removeSingletonRow row;
         if PresolveStatus.eqb status PresolveStatus.kInfeasible
         then ret (Return PresolveStatus.kInfeasible)
         else ret (Next tt)) tt;
       match flow with
       | Next _ => write Field.singletonRows [];; ret (Next tt)
       | Return r => ret (Return r)
       end
     else ret (Next tt));
  match flow with
  | Return r => ret r
  | Next _ =>
      (* check rows with changed activities for redundancy or
         infeasibility and remove them from the changed activities
         vector *)
      status ← checkChangedActivities;
      if PresolveStatus.eqb status PresolveStatus.kInfeasible
      then ret PresolveStatus.kInfeasible
      else
        changed ← read Field.changed_activities;
        kept ← remove_if changed
                 (fun row => test_at Ref.rflags row RowFlag.kRedundant);
        write Field.changed_activities kept;;
        (* remove constants of fixed columns *)
        removeFixedCols;;
        (* delete fixed columns and redundant rows form the matrix *)
        cm ← read Ref.consMatrix;
        redundant ← read Field.redundant_rows;
        deleted ← read Field.deleted_cols;
        activities ← read Ref.activities;
        wl ← gets worklists;
        (let '(cm', redundant', deleted', activities', wl') :=
           deleteRowsAndCols ext cm redundant deleted activities wl in
         write Ref.consMatrix cm';;
         write Field.redundant_rows redundant';;
         write Field.deleted_cols deleted';;
         write Ref.activities activities';;
         set_worklists wl');;
        (* remove singleton columns from list of singleton columns if
           they are not singletons anymore *)
        cols ← read Field.singletonColumns;
        when (negb (match cols with [] => true | _ => false end))
          (first ← read Field.firstNewSingletonCol;
           assert (ret (first <=? size cols));;
           ik ← compress_singleton_columns (length cols) 0 first 0;
           modify Field.firstNewSingletonCol (fun f => f - snd ik);;
           let nsingletoncols := size cols in
           assert (ret (fst ik <=? nsingletoncols));;
           ik ← compress_singleton_columns
                  (length cols - Z.to_nat (fst ik)) (fst ik)
                  nsingletoncols (snd ik);
           let nsingletoncols := nsingletoncols - snd ik in
           modify Field.singletonColumns (resize nsingletoncols);;
           assert (first ← read Field.firstNewSingletonCol;
                   ret ((0 <=? first) && (first <=? nsingletoncols)));;
           assert (cols ← read Field.singletonColumns;
                   all_of cols (fun col =>
                     sz ← vec_at Ref.colsize col; ret (sz =? 1))));;
        (* fix empty columns *)
        status ← removeEmptyColumns;
        if PresolveStatus.eqb status PresolveStatus.kUnbndOrInfeas
        then ret PresolveStatus.kUnbndOrInfeas
        else ret PresolveStatus.kReduced
  end.

Definition clearChangeInfo : M unit :=
  write Field.changed_activities [];;
  cols ← read Field.singletonColumns;
  write Field.firstNewSingletonCol (size cols).

Definition addEntry (row col : Z) (val : Q) : M unit :=
  push_back Field.matrix_buffer (mkTriplet row col val).

(** The [double] literals [1e-3], [1e-2] and [0.1] of
    [cleanupSmallCoefficients].  They are compared and multiplied with
    values of type [REAL], so they enter as the rationals the doubles are:
    [m / 2^k], next to but not equal to the decimal fractions. *)
Definition double_1e_3 : Q := 1152921504606847 # 1152921504606846976.
Definition double_1e_2 : Q := 5764607523034235 # 576460752303423488.
Definition double_0_1 : Q := 3602879701896397 # 36028797018963968.

(** cleanup small coefficients from single row, adds coefficients changes
    to the matrix buffer *)
Definition cleanupSmallCoefficients (row : Z) : M unit :=
  rowvec ← getRowCoefficients row;
  (* number of nonzeros in row *)
  let len := getLength rowvec in
  (* acces to sides of the given row *)
  _ ← vec_at Ref.lhs row;
  _ ← vec_at Ref.rhs row;
  _ ← vec_at Ref.rflags row;
  (* loop over non-zeros of this row *)
  flow ← for_each (R := unit) rowvec (fun '(col, value) total_mod =>
    skip ← test_at Ref.cflags col
             (Z.lor ColFlag.kUnbounded ColFlag.kInactive);
    if skip then ret (Next total_mod)
    else
      assert (ub ← vec_at Ref.ubs col; lb ← vec_at Ref.lbs col;
              ret (Qlt_bool lb ub));;
      (* model Cleanup *)
      let absval := Qabs value in
      if Qlt_bool absval (minabscoeff presolveOptions) then
        addEntry row col 0%Q;;
        ret (Next total_mod)
      else
        small ← andM (ret (Qle_bool absval double_1e_3))
                     (ub ← vec_at Ref.ubs col; lb ← vec_at Ref.lbs col;
                      ret (Qle_bool (absval * (ub - lb) * inject_Z len)
                                    (double_1e_2 * getFeasTol num)));
        if small then
          ub ← vec_at Ref.ubs col;
          lb ← vec_at Ref.lbs col;
          let temp_total_mod := (total_mod + absval * (ub - lb))%Q in
          if Qle_bool temp_total_mod (double_0_1 * getFeasTol num) then
            addEntry row col 0%Q;;
            lb ← vec_at Ref.lbs col;
            when (Qne_bool lb 0)
              (let sidechange := (value * lb)%Q in
               rhsinf ← test_at Ref.rflags row RowFlag.kRhsInf;
               when (negb rhsinf)
                 (vec_modify Ref.rhs row (fun x => x - sidechange)%Q;;
                  incr Ref.nsidechgs);;
               lhsinf ← test_at Ref.rflags row RowFlag.kLhsInf;
               when (negb lhsinf)
                 (vec_modify Ref.lhs row (fun x => x - sidechange)%Q;;
                  incr Ref.nsidechgs);;
               (* due to numerics a ranged row can become an equality *)
               becomes_equation ←
                 andM (notM (test_at Ref.rflags row
                               (Z.lor (Z.lor RowFlag.kLhsInf RowFlag.kRhsInf)
                                      RowFlag.kEquation)))
                      (lhs ← vec_at Ref.lhs row; rhs ← vec_at Ref.rhs row;
                       ret (Qeq_bool lhs rhs));
               when becomes_equation
                 (vec_modify Ref.rflags row
                    (fun f => Flags.set f RowFlag.kEquation)));;
            ret (Next temp_total_mod)
          else ret (Next total_mod)
        else ret (Next total_mod)) 0%Q;
  ret tt.

(** The body of the loop over the rows in [trivialRowPresolve]; the local
    variable it maintains is [status]. *)
Definition trivialRowPresolve_row (row : Z) (status : PresolveStatus.t)
    : M (Flow PresolveStatus.t PresolveStatus.t) :=
  rowsize ← vec_at Ref.rowsize row;
  flow ←
    (if rowsize =? 0 then
       lhs_infeasible ←
         andM (notM (test_at Ref.rflags row RowFlag.kLhsInf))
              (lhs ← vec_at Ref.lhs row; ret (isFeasGT num lhs 0));
       if lhs_infeasible then ret (Return PresolveStatus.kInfeasible)
       else
         rhs_infeasible ←
           andM (notM (test_at Ref.rflags row RowFlag.kRhsInf))
                (rhs ← vec_at Ref.rhs row; ret (isFeasLT num rhs 0));
         if rhs_infeasible then ret (Return PresolveStatus.kInfeasible)
         else
           vec_modify Ref.rflags row
             (fun f => Flags.set f RowFlag.kRedundant);;
           vec_set Ref.rowsize row (-1);;
           ret (Next PresolveStatus.kReduced)
     else if rowsize =? 1 then
       status ← removeSingletonRow row;
       if PresolveStatus.eqb status PresolveStatus.kInfeasible
       then ret (Return status)
       else ret (Next status)
     else
       activity ← vec_at Ref.activities row;
       rf ← vec_at Ref.rflags row;
       lhs ← vec_at Ref.lhs row;
       rhs ← vec_at Ref.rhs row;
       match checkStatus ext num activity rf lhs rhs with
       | RowStatus.kRedundant =>
           markRowRedundant row;;
           ret (Next PresolveStatus.kReduced)
       | RowStatus.kRedundantLhs =>
           modify Ref.consMatrix
             (fun cm => modifyLeftHandSide ext true cm row 0);;
           cleanupSmallCoefficients row;;
           ret (Next PresolveStatus.kReduced)
       | RowStatus.kRedundantRhs =>
           modify Ref.consMatrix
             (fun cm => modifyRightHandSide ext true cm row 0);;
           cleanupSmallCoefficients row;;
           ret (Next PresolveStatus.kReduced)
       | RowStatus.kInfeasible => ret (Return PresolveStatus.kInfeasible)
       | RowStatus.kUnknown =>
           ranged ← notM (test_at Ref.rflags row
                            (Z.lor (Z.lor RowFlag.kRhsInf RowFlag.kLhsInf)
                                   RowFlag.kEquation));
           when ranged
             (assert (notM (test_at Ref.rflags row RowFlag.kRhsInf));;
              assert (notM (test_at Ref.rflags row RowFlag.kLhsInf));;
              assert (notM (test_at Ref.rflags row RowFlag.kEquation));;
              lhs ← vec_at Ref.lhs row;
              rhs ← vec_at Ref.rhs row;
              when (Qeq_bool lhs rhs)
                (vec_modify Ref.rflags row
                   (fun f => Flags.set f RowFlag.kEquation)));;
           cleanupSmallCoefficients row;;
           ret (Next status)
       end);
  match flow with
  | Return r => ret (Return r)
  | Next status =>
      (* row should be either redundant, or the equality flag must be set
         correctly *)
      assert (
        rf ← vec_at Ref.rflags row;
        let inf := Flags.test rf (Z.lor RowFlag.kLhsInf RowFlag.kRhsInf) in
        orM (ret (Flags.test rf RowFlag.kRedundant))
       (orM (andM (ret (negb (Flags.test rf RowFlag.kEquation)))
                  (orM (ret inf)
                       (lhs ← vec_at Ref.lhs row; rhs ← vec_at Ref.rhs row;
                        ret (Qne_bool lhs rhs))))
            (andM (ret (Flags.test rf RowFlag.kEquation))
            (andM (lhs ← vec_at Ref.lhs row; rhs ← vec_at Ref.rhs row;
                   ret (Qeq_bool lhs rhs))
                  (ret (negb inf))))));;
      ret (Next status)
  end.

(** scans through all rows and does some trivial presolve reductions *)
Definition trivialRowPresolve : M PresolveStatus.t :=
  assert (activities ← read Ref.activities; n ← getNRows;
          ret (size activities =? n));;
  n ← getNRows;
  flow ← for_each (seqZ 0 n) trivialRowPresolve_row
           PresolveStatus.kUnchanged;
  match flow with
  | Return r => ret r
  | Next status =>
      flushChangedCoeffs;;
      ret status
  end.

(** returns true if the given transaction conflicts with the current state
    of changes and false otherwise *)
Definition checkTransactionConflicts (transaction : list Reduction.t)
    : M ConflictType.t :=
  (* check if transaction conflicts with current state *)
  flow ← for_each transaction (fun reduction (_ : unit) =>
    let row := Reduction.row reduction in
    let col := Reduction.col reduction in
    let conflict_if (c : bool) : M (Flow unit ConflictType.t) :=
      ret (if c then Return ConflictType.kConflict else Next tt) in
    if (0 <=? row) && (0 <=? col) then
      (* modification of a coefficient is only allowed if the
         coefficients is neither locked *)
      locked ← orM (test_at Field.col_state col State.kLocked)
                   (test_at Field.row_state row State.kLocked);
      conflict_if locked
    else if row <? 0 then
      assert (ret (0 <=? col));;
      let colop := row in
      if (colop =? ColReduction.LOCKED_STRONG) ||
         (colop =? ColReduction.LOCKED) then
        (* if the transaction wants to lock the column it must not be
           modifed yet *)
        modified ← test_at Field.col_state col State.kModified;
        conflict_if modified
      else if colop =? ColReduction.OBJECTIVE then
        (* if the transaction wants to modify the column by changing its
           objective coefficient the column must not be locked *)
        locked ← test_at Field.col_state col State.kLocked;
        conflict_if locked
      else if colop =? ColReduction.BOUNDS_LOCKED then
        modified ← test_at Field.col_state col State.kBoundsModified;
        conflict_if modified
      else if (colop =? ColReduction.PARALLEL) ||
              (colop =? ColReduction.SUBSTITUTE_OBJ) then
        ret (Next tt)
      else if (colop =? ColReduction.SUBSTITUTE) ||
              (colop =? ColReduction.REPLACE) then
        (* we postponed the substitution to be performed last *)
        postpone ← read Field.postponeSubstitutions;
        ret (if postpone then Return ConflictType.kPostpone else Next tt)
      else ret (Next tt)
    else
      assert (ret ((0 <=? row) && (col <? 0)));;
      let rowop := col in
      if (rowop =? RowReduction.LOCKED_STRONG) ||
         (rowop =? RowReduction.LOCKED) then
        (* if the transaction wants to lock the row it must not be
           modified yet *)
        modified ← test_at Field.row_state row
                     (Z.lor State.kModified State.kBoundsModified);
        conflict_if modified
      else if (rowop =? RowReduction.LHS_INF) ||
              (rowop =? RowReduction.LHS) then
        (* if the transaction wants to modify a rows left hand side the
           corresponding row must not be locked *)
        locked ← test_at Field.row_state row State.kLocked;
        conflict_if locked
      else if (rowop =? RowReduction.RHS_INF) ||
              (rowop =? RowReduction.RHS) then
        locked ← test_at Field.row_state row State.kLocked;
        conflict_if locked
      else if rowop =? RowReduction.SPARSIFY then
        postpone ← read Field.postponeSubstitutions;
        ret (if postpone then Return ConflictType.kPostpone else Next tt)
      else ret (Next tt)) tt;
  match flow with
  | Next _ => ret ConflictType.kNoConflict   (* no conflicts found *)
  | Return r => ret r
  end.

(** The objects handed by reference to [aggregate] and [sparsify]. *)
Definition matrixFrame (s : ProblemUpdate) : MatrixFrame :=
  mkMatrixFrame (constraintMatrix (problem s)) (variableDomains (problem s))
    (intbuffer s) (realbuffer s) (tripletbuffer s) (changed_activities s)
    (rowActivities (problem s)) (worklists s).

Definition set_matrixFrame (fr : MatrixFrame) : M unit :=
  write Ref.consMatrix (fr_matrix fr);;
  write Ref.domains (fr_domains fr);;
  write Field.intbuffer (fr_intbuffer fr);;
  write Field.realbuffer (fr_realbuffer fr);;
  write Field.tripletbuffer (fr_tripletbuffer fr);;
  write Field.changed_activities (fr_changed_activities fr);;
  write Ref.activities (fr_activities fr);;
  set_worklists (fr_worklists fr).

(** [constraintMatrix.checkAggregationSparsityCondition( col, equality,
    maxfillinpersubstitution, maxshiftperrow, intbuffer )] *)
Definition sparsityCondition (col : Z) (equality : SparseVectorView)
    : M bool :=
  cm ← read Ref.consMatrix;
  buffer ← read Field.intbuffer;
  let '(ok, buffer') :=
    checkAggregationSparsityCondition ext cm col equality
      (maxfillinpersubstitution presolveOptions)
      (maxshiftperrow presolveOptions) buffer in
  write Field.intbuffer buffer';;
  ret ok.

(** [constraintMatrix.aggregate( num, col, equality, rhs, ... )] *)
Definition aggregateCol (col : Z) (equality : SparseVectorView) (rhs : Q)
    : M unit :=
  nrounds ← read (Field.stats ▷ Field.nrounds);
  fr ← gets matrixFrame;
  set_matrixFrame (aggregate ext num col equality rhs nrounds fr).

Definition decrNumCols (col : Z) : M unit :=
  integral ← test_at Ref.cflags col ColFlag.kIntegral;
  if integral then decr Ref.numIntegralCols
  else decr Ref.numContinuousCols.

(** [if( mutator( col, val ) == PresolveStatus::kInfeasible )
       return ApplyResult::kInfeasible; break;] *)
Definition infeasible_or_break (mutator : M PresolveStatus.t)
    : M (Flow unit ApplyResult.t) :=
  status ← mutator;
  ret (if PresolveStatus.eqb status PresolveStatus.kInfeasible
       then Return ApplyResult.kInfeasible else Next tt).

(** [case ColReduction::IMPL_INT] of [applyTransaction] *)
Definition case_IMPL_INT (reduction : Reduction.t)
    : M (Flow unit ApplyResult.t) :=
  let col := Reduction.col reduction in
  inactive ← test_at Ref.cflags col ColFlag.kInactive;
  if negb inactive then
    vec_modify Ref.cflags col (fun f => Flags.set f ColFlag.kImplInt);;
    lbinf ← test_at Ref.cflags col ColFlag.kLbInf;
    flow ← (if negb lbinf then
              lb ← vec_at Ref.lbs col;
              infeasible_or_break (changeLB col lb)
            else ret (Next tt));
    match flow with
    | Return r => ret (Return r)
    | Next _ =>
        ubinf ← test_at Ref.cflags col ColFlag.kUbInf;
        if negb ubinf then
          ub ← vec_at Ref.ubs col;
          infeasible_or_break (changeUB col ub)
        else ret (Next tt)
    end
  else ret (Next tt).

(** [case ColReduction::SUBSTITUTE] of [applyTransaction] *)
Definition case_SUBSTITUTE (reduction : Reduction.t)
    : M (Flow unit ApplyResult.t) :=
  let col := Reduction.col reduction in
  let equalityrow := static_cast_int (Reduction.newval reduction) in
  rowvec ← getRowCoefficients equalityrow;
  if getLength rowvec =? 1 then
    assert (notM (test_at Ref.rflags equalityrow
                    (Z.lor RowFlag.kLhsInf RowFlag.kRhsInf)));;
    lhs ← vec_at Ref.lhs equalityrow;
    match getValues rowvec with
    | [] => fault OutOfBounds
    | coef :: _ =>
        val ← divide lhs coef;
        infeasible_or_break (fixCol col val)
    end
  else
    assert (st ← vec_at Field.row_state equalityrow;
            ret (Flags.equal st State.kUnmodified));;
    assert (notM (test_at Field.col_state col State.kBoundsModified));;
    (* check that the conditions for substitution are verified *)
    ok ← sparsityCondition col rowvec;
    if negb ok then ret (Return ApplyResult.kRejected)
    else
      colvec ← getColumnCoefficients col;
      let colindices := getIndices colvec in
      let nbrelevantrows := getLength colvec in
      assert (notM (test_at Ref.cflags col
                      (Z.lor ColFlag.kSubstituted ColFlag.kFixed)));;
      vec_modify Ref.cflags col (fun f => Flags.set f ColFlag.kSubstituted);;
      (* change the objective coefficients and offset *)
      modify Field.problem (fun p =>
        over_objective (fun _ => substituteVarInObj ext num col equalityrow p)
          p);;
      (* update row states *)
      for_each_ colindices (fun r => setRowState r State.kModified);;
      (* update col states *)
      rowvec ← getRowCoefficients equalityrow;
      let length := getLength rowvec in
      let indices := getIndices rowvec in
      for_each_ indices (fun c => setColState c State.kModified);;
      eqRHS ← vec_at Ref.lhs equalityrow;
      push_back Field.postsolve (Substitution col rowvec eqRHS);;
      (* make the changes in the constraint matrix *)
      aggregateCol col rowvec eqRHS;;
      modify Ref.ncoefchgs (fun n => n + length * nbrelevantrows);;
      assert (sz ← vec_at Ref.rowsize equalityrow; ret (sz =? -1));;
      assert (v ← getRowCoefficients equalityrow; ret (getLength v =? 0));;
      assert (x ← vec_at Ref.lhs equalityrow; ret (Qeq_bool x 0));;
      assert (x ← vec_at Ref.rhs equalityrow; ret (Qeq_bool x 0));;
      assert (sz ← vec_at Ref.colsize col; ret (sz =? -1));;
      assert (v ← getColumnCoefficients col; ret (getLength v =? 0));;
      assert (c ← vec_at Ref.obj_coefficients col; ret (Qeq_bool c 0));;
      assert (test_at Field.row_state equalityrow State.kModified);;
      assert (test_at Field.col_state col State.kModified);;
      (* statistics *)
      incr Ref.ndeletedcols;;
      incr Ref.ndeletedrows;;
      decrNumCols col;;
      lhs ← vec_at Ref.lhs equalityrow;
      when (Qne_bool lhs 0)
        (modify Ref.nsidechgs (fun n => n + 2 * nbrelevantrows));;
      ret (Next tt).

(** [case ColReduction::SUBSTITUTE_OBJ] of [applyTransaction] *)
Definition case_SUBSTITUTE_OBJ (reduction : Reduction.t)
    : M (Flow unit ApplyResult.t) :=
  let col := Reduction.col reduction in
  let equalityrow := static_cast_int (Reduction.newval reduction) in
  assert (notM (test_at Ref.cflags col ColFlag.kInactive));;
  vec_modify Ref.cflags col (fun f => Flags.set f ColFlag.kSubstituted);;
  (* change the objective coefficients and offset *)
  modify Field.problem (fun p =>
    over_objective (fun _ => substituteVarInObj ext num col equalityrow p)
      p);;
  colvec ← getColumnCoefficients col;
  lower ← orM (test_at Ref.cflags col ColFlag.kLbUseless)
              (lb ← vec_at Ref.lbs col; ret (Qne_bool lb 0));
  when lower
    (lb ← vec_at Ref.lbs col;
     useless ← test_at Ref.cflags col ColFlag.kLbUseless;
     update_activities_after_boundchange colvec BoundChange.kLower lb 0%Q
       useless update_activity);;
  upper ← orM (test_at Ref.cflags col ColFlag.kUbUseless)
              (ub ← vec_at Ref.ubs col; ret (Qne_bool ub 0));
  when upper
    (ub ← vec_at Ref.ubs col;
     useless ← test_at Ref.cflags col ColFlag.kUbUseless;
     update_activities_after_boundchange colvec BoundChange.kUpper ub 0%Q
       useless update_activity);;
  vec_modify Ref.cflags col
    (fun f => Flags.unset f (Z.lor ColFlag.kLbUseless ColFlag.kUbUseless));;
  vec_set Ref.lbs col 0%Q;;
  vec_set Ref.ubs col 0%Q;;
  push_back Field.deleted_cols col;;
  (* update col states *)
  rowvec ← getRowCoefficients equalityrow;
  lhs ← vec_at Ref.lhs equalityrow;
  push_back Field.postsolve (Substitution col rowvec lhs);;
  for_each_ (getIndices rowvec) (fun c => setColState c State.kModified);;
  (* statistics *)
  incr Ref.ndeletedcols;;
  decrNumCols col;;
  ret (Next tt).

(** The view [(values, indices, len)] handed to the activity tracker;
    reading either array beyond its end is out of bounds. *)
Definition make_view (values : list Q) (indices : list Z) (len : Z)
    : M SparseVectorView :=
  if (len <=? size values) && (len <=? size indices)
  then ret (take (Z.to_nat len) (zip indices values))
  else fault OutOfBounds.

(** The empty lambda [[]( ActivityChange, int, const RowActivity& ) {}] *)
Definition no_callback (_ : ActivityChange.t) (_ : Z) (a : RowActivity)
    : M RowActivity := ret a.

(** [case ColReduction::PARALLEL] of [applyTransaction] *)
Definition case_PARALLEL (reduction : Reduction.t)
    : M (Flow unit ApplyResult.t) :=
  let col1 := Reduction.col reduction in
  let col2 := static_cast_int (Reduction.newval reduction) in
  inactive ← orM (test_at Ref.cflags col1 ColFlag.kInactive)
                 (test_at Ref.cflags col2 ColFlag.kInactive);
  if inactive then ret (Return ApplyResult.kRejected)
  else
    setColState col1 State.kBoundsModified;;
    setColState col2 State.kBoundsModified;;
    col1vec ← getColumnCoefficients col1;
    col2vec ← getColumnCoefficients col2;
    let inds := getIndices col1vec in
    let vals1 := getValues col1vec in
    let vals2 := getValues col2vec in
    let collen := getLength col1vec in
    assert (ret (0 <? collen));;
    match vals1, vals2 with
    | [], _ | _, [] => fault OutOfBounds
    | v1 :: _, v2 :: _ =>
    col2scale ← divide v1 v2;
    assert (ret (getLength col2vec =? collen));;
    assert (c1 ← vec_at Ref.obj_coefficients col1;
            c2 ← vec_at Ref.obj_coefficients col2;
            ret (isEq num c1 (c2 * col2scale)%Q));;
    cf1 ← vec_at Ref.cflags col1;
    cf2 ← vec_at Ref.cflags col2;
    let col1lbinf := Flags.test cf1 ColFlag.kLbInf in
    let col1ubinf := Flags.test cf1 ColFlag.kUbInf in
    let col1int := Flags.test cf1 ColFlag.kIntegral in
    let col2lbinf := Flags.test cf2 ColFlag.kLbInf in
    let col2ubinf := Flags.test cf2 ColFlag.kUbInf in
    let col2int := Flags.test cf2 ColFlag.kIntegral in
    lb1 ← vec_at Ref.lbs col1;
    ub1 ← vec_at Ref.ubs col1;
    lb2 ← vec_at Ref.lbs col2;
    ub2 ← vec_at Ref.ubs col2;
    push_back Field.postsolve
      (ParallelCols col1 col1int col1lbinf lb1 col1ubinf ub1
                    col2 col2int col2lbinf lb2 col2ubinf ub2 col2scale);;
    incr Ref.ndeletedcols;;
    (* compute the new domains for column 2 *)
    let newflags := Flags.set ColFlag.kNone
                      (Z.lor ColFlag.kLbInf ColFlag.kUbInf) in
    (* in the case that column 1 is not integral the new column is also
       not integral regardless of whether column 2 is integral or not *)
    (if col1int then decr Ref.numIntegralCols
     else if col2int then decr Ref.numIntegralCols
     else decr Ref.numContinuousCols);;
    let newflags :=
      if col1int then Flags.set newflags ColFlag.kIntegral else newflags in
    let huge (a b : bool) (flag : Z) (f : Z) : Z :=
      if a || b then Flags.set f flag else f in
    let '(newlb, newub, newflags) :=
      if Qlt_bool col2scale 0 then
        let '(newlb, newflags) :=
          if negb col2lbinf && negb col1ubinf then
            ((lb2 + col2scale * ub1)%Q,
             huge (Flags.test cf1 ColFlag.kUbHuge)
                  (Flags.test cf2 ColFlag.kLbHuge) ColFlag.kLbHuge
                  (Flags.unset newflags ColFlag.kLbInf))
          else (0%Q, newflags) in
        let '(newub, newflags) :=
          if negb col2ubinf && negb col1lbinf then
            ((ub2 + col2scale * lb1)%Q,
             huge (Flags.test cf1 ColFlag.kLbHuge)
                  (Flags.test cf2 ColFlag.kUbHuge) ColFlag.kUbHuge
                  (Flags.unset newflags ColFlag.kUbInf))
          else (0%Q, newflags) in
        (newlb, newub, newflags)
      else
        let '(newlb, newflags) :=
          if negb col2lbinf && negb col1lbinf then
            ((lb2 + col2scale * lb1)%Q,
             huge (Flags.test cf1 ColFlag.kLbHuge)
                  (Flags.test cf2 ColFlag.kLbHuge) ColFlag.kLbHuge
                  (Flags.unset newflags ColFlag.kLbInf))
          else (0%Q, newflags) in
        let '(newub, newflags) :=
          if negb col2ubinf && negb col1ubinf then
            ((ub2 + col2scale * ub1)%Q,
             huge (Flags.test cf1 ColFlag.kUbHuge)
                  (Flags.test cf2 ColFlag.kUbHuge) ColFlag.kUbHuge
                  (Flags.unset newflags ColFlag.kUbInf))
          else (0%Q, newflags) in
        (newlb, newub, newflags) in
    (* update the activities if required *)
    when (Flags.test newflags ColFlag.kLbUseless)
      ((* the new columns lower bound does not contribute to the
          activities *)
       if negb (Flags.test cf2 ColFlag.kLbUseless) then
         when (Qne_bool lb2 0)
           (view2 ← make_view vals2 inds collen;
            update_activities_after_boundchange view2 BoundChange.kLower
              lb2 0%Q false no_callback)
       else if Qlt_bool col2scale 0 then
         when (Flags.test cf1 ColFlag.kUbUseless || Qne_bool ub1 0)
           (view1 ← make_view vals1 inds collen;
            update_activities_after_boundchange view1 BoundChange.kUpper
              ub1 0%Q (Flags.test cf1 ColFlag.kUbUseless) no_callback)
       else
         when (Flags.test cf1 ColFlag.kLbUseless || Qne_bool lb1 0)
           (view1 ← make_view vals1 inds collen;
            update_activities_after_boundchange view1 BoundChange.kLower
              lb1 0%Q (Flags.test cf1 ColFlag.kLbUseless) no_callback));;
    when (Flags.test newflags ColFlag.kUbUseless)
      ((* symmetric cases as above for the lower bound *)
       if negb (Flags.test cf2 ColFlag.kUbUseless) then
         when (Qne_bool ub2 0)
           (view2 ← make_view vals2 inds collen;
            update_activities_after_boundchange view2 BoundChange.kUpper
              ub2 0%Q false update_activity)
       else if Qlt_bool col2scale 0 then
         when (Flags.test cf1 ColFlag.kLbUseless || Qne_bool lb1 0)
           (view1 ← make_view vals1 inds collen;
            update_activities_after_boundchange view1 BoundChange.kLower
              lb1 0%Q (Flags.test cf1 ColFlag.kLbUseless) no_callback)
       else
         when (Flags.test cf1 ColFlag.kUbUseless || Qne_bool ub1 0)
           (view1 ← make_view vals1 inds collen;
            update_activities_after_boundchange view1 BoundChange.kUpper
              ub1 0%Q (Flags.test cf1 ColFlag.kUbUseless) no_callback));;
    (* column 1 can now be treated as if it fixed to zero; the flag
       however is not set to ColFlag::kFixed since this indicates that
       their will be a notification to postsolve about that case, instead
       it is set to substituted *)
    vec_set Ref.lbs col1 0%Q;;
    vec_set Ref.ubs col1 0%Q;;
    vec_modify Ref.cflags col1
      (fun f => Flags.unset f (Z.lor ColFlag.kLbUseless ColFlag.kUbUseless));;
    vec_modify Ref.cflags col1 (fun f => Flags.set f ColFlag.kSubstituted);;
    push_back Field.deleted_cols col1;;
    (* the domains of column 2 are now set *)
    vec_set Ref.lbs col2 newlb;;
    vec_set Ref.ubs col2 newub;;
    vec_set Ref.cflags col2 newflags;;
    ret (Next tt)
    end.

(** [case ColReduction::REPLACE] of [applyTransaction]; [next] is the
    record after [reduction], which carries the rest of the
    information. *)
Definition case_REPLACE (reduction next : Reduction.t)
    : M (Flow unit ApplyResult.t) :=
  let col1 := Reduction.col reduction in
  let factor := Reduction.newval reduction in
  assert (ret (Reduction.row next =? ColReduction.NONE));;
  let col2 := Reduction.col next in
  let offset := Reduction.newval next in
  let fixed_or_substituted := Z.lor ColFlag.kFixed ColFlag.kSubstituted in
  (* one variable is fixed, try to fix the other one *)
  one_fixed ← orM (test_at Ref.cflags col1 ColFlag.kFixed)
                  (test_at Ref.cflags col2 ColFlag.kFixed);
  if one_fixed then
    col1_inactive ← test_at Ref.cflags col1 fixed_or_substituted;
    if negb col1_inactive then
      assert (test_at Ref.cflags col2 ColFlag.kFixed);;
      lb2 ← vec_at Ref.lbs col2;
      infeasible_or_break (fixCol col1 (factor * lb2 + offset)%Q)
    else
      col2_inactive ← test_at Ref.cflags col2 fixed_or_substituted;
      if negb col2_inactive then
        assert (test_at Ref.cflags col1 ColFlag.kFixed);;
        lb1 ← vec_at Ref.lbs col1;
        val ← divide (lb1 - offset)%Q factor;
        infeasible_or_break (fixCol col2 val)
      else ret (Next tt)
  else
    (* one variable might have been substituted *)
    one_inactive ← orM (test_at Ref.cflags col1 fixed_or_substituted)
                       (test_at Ref.cflags col2 fixed_or_substituted);
    if one_inactive then ret (Next tt)
    else
      assert (andM (sz ← vec_at Ref.colsize col1; ret (0 <? sz))
                   (sz ← vec_at Ref.colsize col2; ret (0 <? sz)));;
      lb1 ← vec_at Ref.lbs col1;
      ub1 ← vec_at Ref.ubs col1;
      from_lb ← divide (lb1 - offset)%Q factor;
      from_ub ← divide (ub1 - offset)%Q factor;
      let col2_imp_lb := if Qlt_bool 0 factor then from_lb else from_ub in
      let col2_imp_ub := if Qlt_bool 0 factor then from_ub else from_lb in
      lb2 ← vec_at Ref.lbs col2;
      flow ←
        (if Qlt_bool lb2 col2_imp_lb then
           infeasible_or_break (changeLB col2 col2_imp_lb)
         else
           ub2 ← vec_at Ref.ubs col2;
           if Qlt_bool col2_imp_ub ub2 then
             infeasible_or_break (changeUB col2 col2_imp_ub)
           else ret (Next tt));
      match flow with
      | Return r => ret (Return r)
      | Next _ =>
          (* set up the equality x_1 - factor * x_2 = offset;
             argument needs to be sorted *)
          let equalityLHS : SparseVectorView :=
            if col2 <? col1 then [(col2, (- factor)%Q); (col1, 1%Q)]
            else [(col1, 1%Q); (col2, (- factor)%Q)] in
          (* check sparsity *)
          ok ← sparsityCondition col1 equalityLHS;
          when ok
            (colvec ← getColumnCoefficients col1;
             let colindices := getIndices colvec in
             let length := getLength colvec in
             vec_modify Ref.cflags col1
               (fun f => Flags.set f ColFlag.kSubstituted);;
             decrNumCols col1;;
             (* update row flags *)
             for_each_ colindices (fun r => setRowState r State.kModified);;
             (* perform changes in matrix and sides *)
             push_back Field.postsolve
               (Substitution col1 equalityLHS offset);;
             aggregateCol col1 equalityLHS offset;;
             (* update col flags *)
             setColState col1 State.kModified;;
             setColState col2 State.kModified;;
             (* change the objective *)
             c1 ← vec_at Ref.obj_coefficients col1;
             when (Qne_bool c1 0)
               (vec_modify Ref.obj_coefficients col2
                  (fun c2 => c2 + c1 * factor)%Q;;
                c2 ← vec_at Ref.obj_coefficients col2;
                when (isZero num c2) (vec_set Ref.obj_coefficients col2 0%Q);;
                c1 ← vec_at Ref.obj_coefficients col1;
                modify Ref.obj_offset (fun o => o + c1 * offset)%Q;;
                vec_set Ref.obj_coefficients col1 0%Q);;
             (* statistics *)
             when (Qne_bool offset 0)
               (modify Ref.nsidechgs (fun n => n + 2 * length));;
             modify Ref.ncoefchgs (fun n => n + 2 * length);;
             incr Ref.ndeletedcols);;
          ret (Next tt)
      end.

(** [case RowReduction::LHS] and [case RowReduction::RHS]; [left] selects
    the side. *)
Definition case_SIDE (left : bool) (reduction : Reduction.t) : M unit :=
  let row := Reduction.row reduction in
  let newval := Reduction.newval reduction in
  let kInf := if left then RowFlag.kLhsInf else RowFlag.kRhsInf in
  let side := if left then Ref.lhs else Ref.rhs in
  assert (orM (test_at Ref.rflags row kInf)
              (x ← vec_at side row; ret (Qne_bool newval x)));;
  setRowState row State.kBoundsModified;;
  inf ← test_at Ref.rflags row kInf;
  when inf
    (rowvec ← getRowCoefficients row;
     for_each_ (getIndices rowvec)
       (fun c => setColState c State.kModified));;
  modify Ref.consMatrix (fun cm =>
    (if left then modifyLeftHandSide else modifyRightHandSide)
      ext false cm row newval);;
  incr Ref.nsidechgs.

(** [case RowReduction::LHS_INF] and [case RowReduction::RHS_INF] *)
Definition case_SIDE_INF (left : bool) (reduction : Reduction.t) : M unit :=
  let row := Reduction.row reduction in
  let kInf := if left then RowFlag.kLhsInf else RowFlag.kRhsInf in
  inf ← test_at Ref.rflags row kInf;
  when (negb inf)
    (setRowState row State.kBoundsModified;;
     modify Ref.consMatrix (fun cm =>
       (if left then modifyLeftHandSide else modifyRightHandSide)
         ext true cm row 0%Q);;
     incr Ref.nsidechgs).

(** [case RowReduction::SPARSIFY] of [applyTransaction]: the loop over the
    [nsparsifyrows] records that follow, then the statements after it, then
    the rest of the transaction ([continue]).  The view [eqrowvec] of the
    equality row is the one taken before the loop. *)
Fixpoint case_SPARSIFY (continue : list Reduction.t -> M ApplyResult.t)
    (eqrow nsparsifyrows : Z) (eqrowvec : SparseVectorView)
    (rest : list Reduction.t) (i ncancel ncanceledrows : Z)
    {struct rest} : M ApplyResult.t :=
  if i =? nsparsifyrows then
    when (negb (ncancel =? 0))
      (modify Ref.ncoefchgs
         (fun n => n + getLength eqrowvec * ncanceledrows);;
       for_each_ (getIndices eqrowvec)
         (fun c => setColState c State.kModified));;
    continue rest
  else
    match rest with
    | [] => fault OutOfBounds
    | candidate :: rest' =>
        let candrow := Reduction.row candidate in
        let scale := Reduction.newval candidate in
        assert (ret (negb (candrow =? eqrow)));;
        nrounds ← read (Field.stats ▷ Field.nrounds);
        fr ← gets matrixFrame;
        let '(canceled, fr') :=
          sparsify ext num eqrow scale candrow nrounds fr in
        set_matrixFrame fr';;
        if negb (canceled =? 0) then
          setRowState candrow State.kModified;;
          eqrhs ← vec_at Ref.rhs eqrow;
          when (Qne_bool eqrhs 0)
            (lhsinf ← test_at Ref.rflags candrow RowFlag.kLhsInf;
             when (negb lhsinf) (incr Ref.nsidechgs);;
             rhsinf ← test_at Ref.rflags candrow RowFlag.kRhsInf;
             when (negb rhsinf) (incr Ref.nsidechgs));;
          case_SPARSIFY continue eqrow nsparsifyrows eqrowvec rest'
            (i + 1) (ncancel + canceled) (ncanceledrows + 1)
        else
          case_SPARSIFY continue eqrow nsparsifyrows eqrowvec rest'
            (i + 1) ncancel ncanceledrows
    end.

(** One iteration of the loop of [applyTransaction] on the record
    [reduction]; [rest] are the records after it and [continue] runs the
    remaining iterations from the record the iterator then points to. *)
Definition applyReduction (reduction : Reduction.t)
    (rest : list Reduction.t)
    (continue : list Reduction.t -> M ApplyResult.t) : M ApplyResult.t :=
  let row := Reduction.row reduction in
  let col := Reduction.col reduction in
  let newval := Reduction.newval reduction in
  let break_after (m : M unit) : M ApplyResult.t := m;; continue rest in
  let finish (rest : list Reduction.t) (m : M (Flow unit ApplyResult.t))
      : M ApplyResult.t :=
    flow ← m;
    match flow with
    | Next _ => continue rest
    | Return r => ret r
    end in
  if (0 <=? row) && (0 <=? col) then
    break_after
      (setRowState row State.kModified;;
       setColState col State.kModified;;
       addEntry row col newval)
  else if row <? 0 then
    assert (ret (0 <=? col));;
    let colop := row in
    if colop =? ColReduction.NONE then
      break_after (assert (ret false))
    else if colop =? ColReduction.LOCKED_STRONG then
      break_after (setColState col State.kLocked)
    else if colop =? ColReduction.OBJECTIVE then
      break_after
        (setColState col State.kModified;;
         vec_set Ref.obj_coefficients col newval)
    else if colop =? ColReduction.FIXED then
      finish rest (infeasible_or_break (fixCol col newval))
    else if colop =? ColReduction.FIXED_INFINITY then
      finish rest (infeasible_or_break (fixColInfinity col newval))
    else if colop =? ColReduction.LOWER_BOUND then
      finish rest (infeasible_or_break (changeLB col newval))
    else if colop =? ColReduction.UPPER_BOUND then
      finish rest (infeasible_or_break (changeUB col newval))
    else if colop =? ColReduction.IMPL_INT then
      finish rest (case_IMPL_INT reduction)
    else if colop =? ColReduction.SUBSTITUTE then
      finish rest (case_SUBSTITUTE reduction)
    else if colop =? ColReduction.SUBSTITUTE_OBJ then
      finish rest (case_SUBSTITUTE_OBJ reduction)
    else if colop =? ColReduction.PARALLEL then
      finish rest (case_PARALLEL reduction)
    else if colop =? ColReduction.REPLACE then
      (* get the rest of the information from the next reduction *)
      match rest with
      | [] => fault OutOfBounds
      | next :: rest' => finish rest' (case_REPLACE reduction next)
      end
    else continue rest
  else
    assert (ret ((0 <=? row) && (col <? 0)));;
    let rowop := col in
    if rowop =? RowReduction.NONE then
      break_after (assert (ret false))
    else if rowop =? RowReduction.LOCKED_STRONG then
      break_after (setRowState row State.kLocked)
    else if rowop =? RowReduction.LHS then
      break_after (case_SIDE true reduction)
    else if rowop =? RowReduction.RHS then
      break_after (case_SIDE false reduction)
    else if rowop =? RowReduction.LHS_INF then
      break_after (case_SIDE_INF true reduction)
    else if rowop =? RowReduction.RHS_INF then
      break_after (case_SIDE_INF false reduction)
    else if rowop =? RowReduction.REDUNDANT then
      break_after
        (redundant ← test_at Ref.rflags row RowFlag.kRedundant;
         when (negb redundant)
           (setRowState row State.kBoundsModified;;
            markRowRedundant row))
    else if rowop =? RowReduction.SPARSIFY then
      let nsparsifyrows := static_cast_int newval in
      let eqrow := row in
      assert (buffer ← read Field.matrix_buffer;
              ret (match buffer with [] => true | _ => false end));;
      eqrowvec ← getRowCoefficients eqrow;
      _ ← vec_at Ref.rhs eqrow;
      case_SPARSIFY continue eqrow nsparsifyrows eqrowvec rest 0 0 0
    else continue rest.

(** The loop [for( auto iter = first; iter != last; ++iter )]. *)
Fixpoint applyReductions (transaction : list Reduction.t)
    : M ApplyResult.t :=
  match transaction with
  | [] => ret ApplyResult.kApplied
  | reduction :: rest => applyReduction reduction rest applyReductions
  end.

(** returns true if the given transaction was applied and false
    otherwise *)
Definition applyTransaction (transaction : list Reduction.t)
    : M ApplyResult.t :=
  (* check if transaction conflicts with current state *)
  conflictType ← checkTransactionConflicts transaction;
  match conflictType with
  | ConflictType.kConflict => ret ApplyResult.kRejected
  | ConflictType.kPostpone => ret ApplyResult.kPostponed
  | ConflictType.kNoConflict => applyReductions transaction
  end.

(** [mark_huge_values] of the trivial column presolve, called with the
    bounds and flags of the problem. *)
Definition mark_huge_values (col : Z) : M unit :=
  lb_huge ← andM (notM (test_at Ref.cflags col ColFlag.kLbInf))
                 (lb ← vec_at Ref.lbs col; ret (isHugeVal num lb));
  when lb_huge
    (vec_modify Ref.cflags col (fun f => Flags.set f ColFlag.kLbHuge));;
  ub_huge ← andM (notM (test_at Ref.cflags col ColFlag.kUbInf))
                 (ub ← vec_at Ref.ubs col; ret (isHugeVal num ub));
  when ub_huge
    (vec_modify Ref.cflags col (fun f => Flags.set f ColFlag.kUbHuge)).

End Model.

(** ** Concrete collaborators and problems, used in the examples *)

Module Examples.

(** Modelled from the spec: [Num.hpp] is not part of this file.
    Comparisons are tolerant by [feastol], below which values are treated
    as equal; a value is huge when its magnitude reaches [hugeval]. *)
Definition tolerant_num (feastol hugeval epsilon : Q) : Num :=
  {| getFeasTol := feastol;
     isFeasLT a b := Qlt_bool (a - b) (- feastol);
     isFeasGT a b := Qlt_bool feastol (a - b);
     isFeasIntegral a :=
       Qle_bool (Qabs (a - inject_Z (Qfloor (a + (1 # 2))))) feastol;
     feasCeil a := inject_Z (Qceiling (a - feastol));
     feasFloor a := inject_Z (Qfloor (a + feastol));
     isHugeVal a := Qle_bool hugeval (Qabs a);
     isEq a b := Qle_bool (Qabs (a - b)) epsilon;
     isZero a := Qle_bool (Qabs a) epsilon |}.

(** feastol = 1e-6, hugeval = 1e8, epsilon = 1e-9 *)
Definition num : Num :=
  tolerant_num (1 # 1000000) (100000000 # 1) (1 # 1000000000).

(** Collaborators of a matrix on which no operation has anything to do:
    every row status is unknown, nothing is changed or deleted, and no
    aggregation is admitted. *)
Definition idle : Externals :=
  {| checkStatus _ _ _ _ _ := RowStatus.kUnknown;
     update_activities_after_coeffchange _ _ _ _ _ a := (a, []);
     changeCoefficients cm _ wl acts := (cm, wl, acts, []);
     deleteRowsAndCols cm rr dc acts wl := (cm, rr, dc, acts, wl);
     modifyLeftHandSide _ cm _ _ := cm;
     modifyRightHandSide _ cm _ _ := cm;
     checkAggregationSparsityCondition _ _ _ _ _ buf := (false, buf);
     aggregate _ _ _ _ _ fr := fr;
     sparsify _ _ _ _ _ fr := (0, fr);
     substituteVarInObj _ _ _ p := objective p |}.

Definition options (dualreds : Z) : PresolveOptions :=
  mkPresolveOptions dualreds (1 # 10000000000) 10 10.

(** A build with asserts ([debug]) and one with [NDEBUG] ([release]). *)
Definition debug : Env := mkEnv num (options 2) idle false.
Definition release : Env := mkEnv num (options 2) idle true.
Definition debug_nodual : Env := mkEnv num (options 0) idle false.

Definition activity0 : RowActivity := mkRowActivity 0 0 0 0 (-1).

(** A problem with [ncols] continuous columns with bounds [0 <= x <= 1],
    zero objective, and [nrows] empty equations [0 = 0]; nothing is
    pending. *)
Definition blank (ncols nrows : nat) : ProblemUpdate :=
  {| problem :=
       {| objective := mkObjective (replicate ncols 0%Q) 0%Q;
          variableDomains :=
            mkVariableDomains (replicate ncols 0%Q) (replicate ncols 1%Q)
              (replicate ncols ColFlag.kNone);
          constraintMatrix :=
            {| lhs_values := replicate nrows 0%Q;
               rhs_values := replicate nrows 0%Q;
               row_flags := replicate nrows RowFlag.kEquation;
               row_sizes := replicate nrows 0;
               col_sizes := replicate ncols 0;
               row_storage := replicate nrows [];
               col_storage := replicate ncols [] |};
          rowActivities := replicate nrows activity0;
          numIntegralCols := 0;
          numContinuousCols := Z.of_nat ncols |};
     postsolve := [];
     stats := mkStatistics 0 0 0 0 0 0;
     postponeSubstitutions := true;
     dirty_row_states := [];
     dirty_col_states := [];
     deleted_cols := [];
     redundant_rows := [];
     changed_activities := [];
     singletonRows := [];
     singletonColumns := [];
     emptyColumns := [];
     firstNewSingletonCol := 0;
     matrix_buffer := [];
     intbuffer := [];
     realbuffer := [];
     tripletbuffer := [];
     row_state := replicate nrows State.kUnmodified;
     col_state := replicate ncols State.kUnmodified |}.

Definition lock_strong (c : Z) : Reduction.t :=
  Reduction.mk 0 ColReduction.LOCKED_STRONG c.

Definition parallel (c1 c2 : Z) : Reduction.t :=
  Reduction.mk (inject_Z c2) ColReduction.PARALLEL c1.

End Examples.

(** * Properties *)

(** ** Flags as bit masks *)

Module FlagsFacts.

Lemma land_lor_absorb f m : Z.land (Z.lor f m) m = m.
Proof.
  apply Z.bits_inj'; intros n _.
  rewrite Z.land_spec, Z.lor_spec.
  destruct (Z.testbit f n), (Z.testbit m n); reflexivity.
Qed.

Lemma test_set_same f m : m <> 0 -> Flags.test (Flags.set f m) m = true.
Proof.
  intros Hm. unfold Flags.test, Flags.set.
  rewrite land_lor_absorb.
  destruct (Z.eqb_spec m 0); [contradiction | reflexivity].
Qed.

Lemma test_set_disjoint f m m' :
  Z.land m m' = 0 -> Flags.test (Flags.set f m) m' = Flags.test f m'.
Proof.
  intros Hd. unfold Flags.test, Flags.set.
  rewrite Z.land_lor_distr_l, Hd, Z.lor_0_r. reflexivity.
Qed.

Lemma test_unset_disjoint f m m' :
  Z.land m m' = 0 -> Flags.test (Flags.unset f m) m' = Flags.test f m'.
Proof.
  intros Hd. unfold Flags.test, Flags.unset. f_equal. f_equal.
  apply Z.bits_inj'; intros n _.
  rewrite !Z.land_spec, Z.ldiff_spec.
  assert (Hn : Z.testbit (Z.land m m') n = false)
    by (rewrite Hd; apply Z.bits_0).
  rewrite Z.land_spec in Hn.
  destruct (Z.testbit f n), (Z.testbit m n), (Z.testbit m' n);
    simpl in *; congruence.
Qed.

Lemma test_unset_same f m : Flags.test (Flags.unset f m) m = false.
Proof.
  unfold Flags.test, Flags.unset.
  replace (Z.land (Z.ldiff f m) m) with 0; [reflexivity |].
  symmetry. apply Z.bits_inj'; intros n _.
  rewrite Z.land_spec, Z.ldiff_spec, Z.bits_0.
  destruct (Z.testbit f n), (Z.testbit m n); reflexivity.
Qed.

Lemma set_idempotent f m : Flags.set (Flags.set f m) m = Flags.set f m.
Proof. unfold Flags.set. rewrite <- Z.lor_assoc, Z.lor_diag. reflexivity. Qed.

Lemma testbit_bit k n :
  0 <= k -> 0 <= n -> Z.testbit (Z.shiftl 1 k) n = (n =? k).
Proof.
  intros Hk Hn. rewrite Z.shiftl_spec by assumption.
  destruct (Z.eqb_spec n k) as [-> | Hne].
  - rewrite Z.sub_diag. reflexivity.
  - destruct (Z.lt_ge_cases (n - k) 0) as [Hlt | Hge].
    + apply Z.testbit_neg_r; assumption.
    + apply Z.bits_above_log2; [lia | simpl; lia].
Qed.

(** Setting a single flag that is already set changes nothing. *)
Lemma set_bit_present f k :
  0 <= k -> Flags.test f (Z.shiftl 1 k) = true ->
  Flags.set f (Z.shiftl 1 k) = f.
Proof.
  intros Hk Ht. unfold Flags.test, Flags.set in *.
  assert (Hbit : Z.testbit f k = true).
  { destruct (Z.testbit f k) eqn:E; [reflexivity | exfalso].
    assert (Z.land f (Z.shiftl 1 k) = 0) as H0.
    { apply Z.bits_inj'; intros n Hn.
      rewrite Z.land_spec, testbit_bit, Z.bits_0 by assumption.
      destruct (Z.eqb_spec n k) as [-> | _];
        [rewrite E; reflexivity | apply andb_false_r]. }
    rewrite H0 in Ht. discriminate. }
  apply Z.bits_inj'; intros n Hn.
  rewrite Z.lor_spec, testbit_bit by assumption.
  destruct (Z.eqb_spec n k) as [-> | _];
    [rewrite Hbit; reflexivity | apply orb_false_r].
Qed.

End FlagsFacts.

(** ** Vectors *)

Lemma index_Some_range {A} (l : list A) i x :
  index l i = Some x -> 0 <= i /\ (Z.to_nat i < length l)%nat.
Proof.
  unfold index. destruct (Z.ltb_spec i 0) as [Hneg | Hpos]; [discriminate |].
  intros Hl. split; [assumption | eapply lookup_lt_Some; eassumption].
Qed.

Lemma index_insert_eq {A} (l : list A) i y :
  0 <= i -> (Z.to_nat i < length l)%nat ->
  index (<[Z.to_nat i := y]> l) i = Some y.
Proof.
  intros H0 Hlt. unfold index.
  destruct (Z.ltb_spec i 0) as [Hneg | Hpos]; [lia |].
  apply list_lookup_insert_eq. assumption.
Qed.

Lemma index_insert_ne {A} (l : list A) i j y :
  0 <= i -> i <> j -> index (<[Z.to_nat i := y]> l) j = index l j.
Proof.
  intros H0 Hne. unfold index.
  destruct (Z.ltb_spec j 0) as [Hneg | Hpos]; [reflexivity |].
  apply list_lookup_insert_ne. lia.
Qed.

(** The range facts the hypotheses on [index] give. *)
Ltac range_facts :=
  repeat match goal with
  | H : index ?l ?i = Some _ |- _ =>
      lazymatch goal with
      | _ : (Z.to_nat i < length l)%nat |- _ => fail
      | _ => pose proof (proj1 (index_Some_range _ _ _ H));
             pose proof (proj2 (index_Some_range _ _ _ H))
      end
  end.

Ltac in_range := range_facts; rewrite ?length_insert, ?length_app; lia.

Lemma index_app_l {A} (l l' : list A) i x :
  index l i = Some x -> index (l ++ l') i = Some x.
Proof.
  unfold index. destruct (i <? 0); [discriminate |].
  intros Hl. rewrite lookup_app_l; [assumption | eapply lookup_lt_Some; eassumption].
Qed.

(** ** Symbolic execution *)

(** Reduce [view] and [over] on states. *)
Ltac lens_simpl :=
  cbn [view over lens_compose Field.coefficients Field.offset Field.lower_bounds
  Field.upper_bounds Field.flags Field.lhs_values Field.rhs_values
  Field.row_flags Field.row_sizes Field.col_sizes Field.row_storage
  Field.col_storage Field.objective Field.variableDomains
  Field.constraintMatrix Field.rowActivities Field.numIntegralCols
  Field.numContinuousCols Field.nboundchgs Field.ncoefchgs Field.nsidechgs
  Field.ndeletedcols Field.ndeletedrows Field.nrounds Field.problem
  Field.postsolve Field.stats Field.postponeSubstitutions
  Field.dirty_row_states Field.dirty_col_states Field.deleted_cols
  Field.redundant_rows Field.changed_activities Field.singletonRows
  Field.singletonColumns Field.emptyColumns Field.firstNewSingletonCol
  Field.matrix_buffer Field.intbuffer Field.realbuffer Field.tripletbuffer
  Field.row_state Field.col_state Ref.domains Ref.lbs Ref.ubs Ref.cflags
  Ref.obj Ref.obj_coefficients Ref.obj_offset Ref.consMatrix Ref.lhs Ref.rhs
  Ref.rflags Ref.rowsize Ref.colsize Ref.activities Ref.numIntegralCols
  Ref.numContinuousCols Ref.nboundchgs Ref.ncoefchgs Ref.nsidechgs
  Ref.ndeletedcols Ref.ndeletedrows over_coefficients over_offset
  over_lower_bounds over_upper_bounds over_flags over_lhs_values
  over_rhs_values over_row_flags over_row_sizes over_col_sizes
  over_row_storage over_col_storage over_objective over_variableDomains
  over_constraintMatrix over_rowActivities over_numIntegralCols
  over_numContinuousCols over_nboundchgs over_ncoefchgs over_nsidechgs
  over_ndeletedcols over_ndeletedrows over_nrounds over_problem over_postsolve
  over_stats over_postponeSubstitutions over_dirty_row_states
  over_dirty_col_states over_deleted_cols over_redundant_rows
  over_changed_activities over_singletonRows over_singletonColumns
  over_emptyColumns over_firstNewSingletonCol over_matrix_buffer
  over_intbuffer over_realbuffer over_tripletbuffer over_row_state
  over_col_state coefficients offset lower_bounds upper_bounds flags
  lhs_values rhs_values row_flags row_sizes col_sizes row_storage col_storage
  objective variableDomains constraintMatrix rowActivities numIntegralCols
  numContinuousCols nboundchgs ncoefchgs nsidechgs ndeletedcols ndeletedrows
  nrounds problem postsolve stats postponeSubstitutions dirty_row_states
  dirty_col_states deleted_cols redundant_rows changed_activities
  singletonRows singletonColumns emptyColumns firstNewSingletonCol
  matrix_buffer intbuffer realbuffer tripletbuffer row_state col_state] in *.

(** Unfold the monad and its primitives down to matches on results. *)
Ltac monad_unfold :=
  cbv beta iota zeta delta [bind ret gets read modify write when fault
    vec_at vec_modify vec_set push_back incr decr assert andM orM notM
    test_at negb andb orb PresolveStatus.eqb] in *.

(** The scrutinee that blocks the evaluation of [t]. *)
Ltac blocker t :=
  lazymatch t with
  | match ?x with _ => _ end => blocker_or x
  | ?f _ => blocker f
  end
with blocker_or x :=
  match x with
  | _ => blocker x
  | _ => x
  end.

(** Resolve a blocking scrutinee: by a hypothesis that gives its value, by
    evaluation when it is a closed test, or by cases. *)
Ltac resolve x :=
  match goal with
  | H : x = _ |- _ => rewrite H in *
  | _ =>
      lazymatch type of x with bool => idtac end;
      let v := eval vm_compute in x in
      lazymatch v with
      | true => change x with true in *
      | false => change x with false in *
      end
  | _ => destruct x eqn:?
  end.

Ltac step_goal :=
  lazymatch goal with
  | |- ?lhs = _ => let x := blocker lhs in resolve x
  | |- ?P => let x := blocker P in resolve x
  end.

(** Run the left-hand side of the goal as far as the hypotheses decide. *)
Ltac run_with tac :=
  repeat first [ progress monad_unfold | progress lens_simpl
               | progress tac | step_goal ].

Lemma test_lor f a b :
  Flags.test f (Z.lor a b) = Flags.test f a || Flags.test f b.
Proof.
  unfold Flags.test. rewrite Z.land_lor_distr_r.
  destruct (Z.eqb_spec (Z.land f a) 0) as [-> | Ha]; simpl.
  - reflexivity.
  - destruct (Z.eqb_spec (Z.lor (Z.land f a) (Z.land f b)) 0) as [H0 | ]; [| reflexivity].
    apply Z.lor_eq_0_iff in H0. tauto.
Qed.

Lemma test_set_overlap f m m' :
  Z.land m m' <> 0 -> Flags.test (Flags.set f m) m' = true.
Proof.
  intros Hm. unfold Flags.test, Flags.set.
  rewrite Z.land_lor_distr_l.
  destruct (Z.eqb_spec (Z.lor (Z.land f m') (Z.land m m')) 0) as [H0 | ];
    [| reflexivity].
  apply Z.lor_eq_0_iff in H0. tauto.
Qed.

Ltac flag_simpl :=
  first [ rewrite test_set_overlap by (vm_compute; discriminate)
        | rewrite FlagsFacts.test_set_disjoint by reflexivity
        | rewrite FlagsFacts.test_unset_disjoint by reflexivity
        | rewrite FlagsFacts.test_unset_same
        | rewrite index_insert_eq by in_range
        | rewrite index_insert_ne by in_range ].

Ltac run := run_with flag_simpl.

Ltac flag_simpl_in H :=
  first [ rewrite test_set_overlap in H by (vm_compute; discriminate)
        | rewrite FlagsFacts.test_set_disjoint in H by reflexivity
        | rewrite FlagsFacts.test_unset_disjoint in H by reflexivity
        | rewrite FlagsFacts.test_unset_same in H
        | rewrite index_insert_eq in H by in_range
        | rewrite index_insert_ne in H by in_range ].

Ltac step_in H :=
  lazymatch type of H with
  | ?lhs = _ => let x := blocker lhs in resolve x
  end.

(** Run the computation of the hypothesis [H : m s = Ok a s']. *)
Ltac run_in H :=
  repeat first [ progress monad_unfold | progress lens_simpl
               | progress flag_simpl_in H | discriminate H | step_in H ].

Ltac ok_inv H := try (injection H as H); try subst.

(** ** The activity tracker: [update_activity] *)

(** The outcome of an enqueueing call: [rowid] is appended to
    [changed_activities] and the activity is stamped with the round. *)
Definition enqueue (rowid : Z) (activity : RowActivity) (s : ProblemUpdate)
  : Res RowActivity :=
  Ok (mkRowActivity (act_min activity) (act_max activity) (ninfmin activity)
        (ninfmax activity) (nrounds (stats s)))
     (over Field.changed_activities (fun v => v ++ [rowid]) s).

(** The touched side is not multiply-infinite. *)
Definition touched_side_testable (actChange : ActivityChange.t)
    (activity : RowActivity) : Prop :=
  match actChange with
  | ActivityChange.kMin => ninfmin activity <= 1
  | ActivityChange.kMax => ninfmax activity <= 1
  end.

(** Claim C7.  [update_activity(change, r, activity)] appends [r] to
    [changed_activities] and sets [activity.lastchange] to the current round
    if and only if [activity.lastchange] differs from the current round, row
    [r] is not redundant and the touched side is not multiply-infinite;
    otherwise it leaves the activity and the whole state unchanged. *)
Theorem update_activity_enqueues_iff actChange rowid activity s rf :
  index (view Ref.rflags s) rowid = Some rf ->
  let enqueues :=
    lastchange activity <> nrounds (stats s) /\
    Flags.test rf RowFlag.kRedundant = false /\
    touched_side_testable actChange activity in
  (enqueues ->
   update_activity actChange rowid activity s = enqueue rowid activity s) /\
  (~ enqueues -> update_activity actChange rowid activity s = Ok activity s).
Proof.
  intros Hrf enqueues. subst enqueues.
  unfold update_activity, isRowRedundant, touched_side_testable, enqueue.
  monad_unfold. lens_simpl.
  destruct (Z.eqb_spec (lastchange activity) (nrounds (stats s))) as [He | Hne].
  { split; [intros (H & _); contradiction | reflexivity]. }
  destruct actChange.
  - destruct (Z.ltb_spec 1 (ninfmin activity)).
    { split; [intros (_ & _ & H'); lia | reflexivity]. }
    rewrite Hrf. destruct (Flags.test rf RowFlag.kRedundant).
    + split; [intros (_ & H' & _); discriminate | reflexivity].
    + split; [reflexivity | intros H'; exfalso; apply H'; auto].
  - destruct (Z.ltb_spec 1 (ninfmax activity)).
    { split; [intros (_ & _ & H'); lia | reflexivity]. }
    rewrite Hrf. destruct (Flags.test rf RowFlag.kRedundant).
    + split; [intros (_ & H' & _); discriminate | reflexivity].
    + split; [reflexivity | intros H'; exfalso; apply H'; auto].
Qed.

(** On a problem with one row that is not redundant and was not touched in
    this round, a change of [min] enqueues the row. *)
Lemma update_activity_enqueues_iff_witness :
  let s := Examples.blank 1 1 in
  index (view Ref.rflags s) 0 = Some RowFlag.kEquation /\
  update_activity ActivityChange.kMin 0 Examples.activity0 s =
  enqueue 0 Examples.activity0 s.
Proof.
  split; [reflexivity |].
  apply (update_activity_enqueues_iff ActivityChange.kMin 0
           Examples.activity0 (Examples.blank 1 1) RowFlag.kEquation);
    [reflexivity |].
  split; [discriminate | split; [reflexivity | simpl; lia]].
Defined.

(** ** Record-only primitives: [markRowRedundant], [markColFixed] *)

(** Claim C4, as amended.  [markRowRedundant(r)] is idempotent: calling it
    twice leaves the same state as calling it once, and the deleted-row
    counter grows by one only when the row was not yet redundant.
    [markColFixed(c)] is not: every call that returns sets [Fixed], appends
    [c] to [deleted_cols] and increments the deleted-column counter; a second
    call fails the assert when asserts are compiled in, and counts the
    column a second time when they are not. *)
Theorem markRowRedundant_idempotent_markColFixed_counts {env : Env} r c s :
  (markRowRedundant r;; markRowRedundant r) s = markRowRedundant r s /\
  (forall rf, index (view Ref.rflags s) r = Some rf ->
     exists s', markRowRedundant r s = Ok tt s' /\
       ndeletedrows (stats s') =
       ndeletedrows (stats s) +
       (if Flags.test rf RowFlag.kRedundant then 0 else 1)) /\
  (forall s', markColFixed c s = Ok tt s' ->
     ndeletedcols (stats s') = ndeletedcols (stats s) + 1 /\
     deleted_cols s' = deleted_cols s ++ [c] /\
     (exists f, index (view Ref.cflags s') c = Some f /\
                Flags.test f ColFlag.kFixed = true) /\
     (if NDEBUG
      then exists s'', markColFixed c s' = Ok tt s'' /\
             ndeletedcols (stats s'') = ndeletedcols (stats s) + 2 /\
             deleted_cols s'' = deleted_cols s ++ [c; c]
      else markColFixed c s' = Err AssertionFailed)).
Proof.
  split; [| split].
  - unfold markRowRedundant. run; reflexivity.
  - intros rf Hrf. unfold markRowRedundant. lens_simpl.
    destruct (Flags.test rf RowFlag.kRedundant) eqn:Ht;
      eexists; (split; [run; reflexivity | lens_simpl; lia]).
  - unfold markColFixed. intros s' H. run_in H; ok_inv H; lens_simpl.
    all: split; [reflexivity || lia | split; [reflexivity |]].
    all: split;
      [ eexists; split;
          [apply index_insert_eq; in_range | flag_simpl; reflexivity] |].
    all: try (eexists; split;
                [ run; reflexivity
                | lens_simpl; split;
                    [lia | rewrite <- app_assoc; reflexivity] ]).
    all: run; reflexivity.
Qed.

(** A column that is marked fixed twice is counted twice when asserts are
    compiled out, and the second call stops at the assert otherwise. *)
Lemma markColFixed_not_idempotent :
  let s := Examples.blank 1 0 in
  (markColFixed (env := Examples.release) 0;;
   markColFixed (env := Examples.release) 0) s
    <> markColFixed (env := Examples.release) 0 s /\
  (markColFixed (env := Examples.debug) 0;;
   markColFixed (env := Examples.debug) 0) s = Err AssertionFailed.
Proof.
  split; [| reflexivity].
  vm_compute. intros H. discriminate H.
Qed.

(** ** Empty columns: [removeEmptyColumns] *)

(** Claim C10.  With [dualreds = 0], [removeEmptyColumns] returns
    [Unchanged] and modifies nothing: no column is fixed or notified to
    postsolve, no [colsize] is set to [-1], the objective and the statistics
    are unchanged and the worklist [emptyColumns] is not cleared. *)
Theorem removeEmptyColumns_without_dualreds {env : Env} s :
  dualreds presolveOptions = 0 ->
  removeEmptyColumns s = Ok PresolveStatus.kUnchanged s.
Proof.
  intros H. unfold removeEmptyColumns. monad_unfold. rewrite H. reflexivity.
Qed.

(** With dual reductions disabled an empty column stays on the worklist. *)
Lemma removeEmptyColumns_without_dualreds_witness :
  let s := over Field.emptyColumns (fun _ => [0]) (Examples.blank 1 0) in
  dualreds (presolveOptions (Env := Examples.debug_nodual)) = 0 /\
  removeEmptyColumns (env := Examples.debug_nodual) s =
  Ok PresolveStatus.kUnchanged s.
Proof.
  split; [reflexivity |].
  apply (removeEmptyColumns_without_dualreds (env := Examples.debug_nodual)).
  reflexivity.
Defined.

(** ** Fixing at infinity: [fixColInfinity] *)

(** When asserts are compiled out, every call [fixColInfinity(c, v)] with
    [v] non-zero on a column that is neither [Fixed] nor [Substituted]
    marks [c] fixed (flag, [deleted_cols] and counter), leaves [lb], [ub]
    and all row activities untouched, and returns [Reduced]. *)
Lemma fixColInfinity_marks_fixed {env : Env} c v s f st :
  NDEBUG = true ->
  index (view Ref.cflags s) c = Some f ->
  index (view Field.col_state s) c = Some st ->
  Flags.test f ColFlag.kInactive = false ->
  Qeq_bool v 0 = false ->
  exists s',
    fixColInfinity c v s = Ok PresolveStatus.kReduced s' /\
    view Ref.cflags s' =
      <[Z.to_nat c := Flags.set f ColFlag.kFixed]> (view Ref.cflags s) /\
    deleted_cols s' = deleted_cols s ++ [c] /\
    ndeletedcols (stats s') = ndeletedcols (stats s) + 1 /\
    view Ref.lbs s' = view Ref.lbs s /\
    view Ref.ubs s' = view Ref.ubs s /\
    view Ref.activities s' = view Ref.activities s.
Proof.
  intros Hnd Hf Hst Hin Hv.
  unfold ColFlag.kInactive in Hin. rewrite test_lor in Hin.
  apply orb_false_iff in Hin as [Hfixed Hsub].
  destruct (fixColInfinity c v s) as [r s' | e] eqn:H;
    unfold fixColInfinity, markColFixed, setColState, getNCols in H;
    run_in H; ok_inv H.
  all: eexists; split; [reflexivity |]; lens_simpl;
    repeat split; reflexivity || lia.
Qed.

Lemma fixColInfinity_marks_fixed_witness :
  exists s',
    fixColInfinity (env := Examples.release) 0 1 (Examples.blank 1 0) =
      Ok PresolveStatus.kReduced s' /\
    view Ref.cflags s' = [ColFlag.kFixed] /\
    deleted_cols s' = [0] /\
    ndeletedcols (stats s') = 1 /\
    view Ref.lbs s' = [0%Q] /\
    view Ref.ubs s' = [1%Q] /\
    view Ref.activities s' = [].
Proof.
  exact (fixColInfinity_marks_fixed (env := Examples.release) 0 1
           (Examples.blank 1 0) ColFlag.kNone State.kUnmodified
           eq_refl eq_refl eq_refl eq_refl eq_refl).
Defined.

(** Claim C5.  The two asserts of [fixColInfinity] contradict each other:
    the first requires [val < 0], the second [val > 0].  In a build with
    asserts, every call that gets past the early return, that is every call
    with [v] non-zero on a column that is neither [Fixed] nor
    [Substituted], stops at one of them: the assertions never hold
    together, and the column is not marked. *)
Theorem fixColInfinity_asserts_contradict {env : Env} c v s f :
  NDEBUG = false ->
  index (view Ref.cflags s) c = Some f ->
  Flags.test f ColFlag.kInactive = false ->
  Qeq_bool v 0 = false ->
  fixColInfinity c v s = Err AssertionFailed.
Proof.
  intros Hnd Hf Hin Hv.
  unfold ColFlag.kInactive in Hin. rewrite test_lor in Hin.
  apply orb_false_iff in Hin as [Hfixed Hsub].
  assert (Qlt_bool v 0 && Qlt_bool 0 v = false) as Hsigns.
  { destruct (Qlt_bool v 0) eqn:Hneg; [| reflexivity].
    destruct (Qlt_bool 0 v) eqn:Hpos; [| reflexivity].
    unfold Qlt_bool in Hneg, Hpos.
    apply negb_true_iff in Hneg, Hpos.
    destruct (Qlt_le_dec v 0) as [Hlt | Hle].
    - apply Qlt_le_weak, Qle_bool_iff in Hlt. congruence.
    - apply Qle_bool_iff in Hle. congruence. }
  unfold fixColInfinity. run.
  all: try reflexivity.
  all: discriminate Hsigns.
Qed.

(** Fixing the column [0 <= x <= 1] at plus or at minus infinity. *)
Lemma fixColInfinity_asserts_contradict_witness :
  fixColInfinity (env := Examples.debug) 0 1 (Examples.blank 1 0) =
    Err AssertionFailed /\
  fixColInfinity (env := Examples.debug) 0 (-1) (Examples.blank 1 0) =
    Err AssertionFailed.
Proof.
  split;
    apply (fixColInfinity_asserts_contradict (env := Examples.debug) 0 _
             (Examples.blank 1 0) ColFlag.kNone);
    reflexivity.
Defined.

(** ** Conflicts of column locks *)

(** Expose the fields of the states of an equation. *)
Ltac state_unfold :=
  cbv beta delta [
    over_coefficients over_offset over_lower_bounds over_upper_bounds
    over_flags over_lhs_values over_rhs_values over_row_flags over_row_sizes
    over_col_sizes over_row_storage over_col_storage over_objective
    over_variableDomains over_constraintMatrix over_rowActivities
    over_numIntegralCols over_numContinuousCols over_nboundchgs
    over_ncoefchgs over_nsidechgs over_ndeletedcols over_ndeletedrows
    over_nrounds over_problem over_postsolve over_stats
    over_postponeSubstitutions over_dirty_row_states over_dirty_col_states
    over_deleted_cols over_redundant_rows over_changed_activities
    over_singletonRows over_singletonColumns over_emptyColumns
    over_firstNewSingletonCol over_matrix_buffer over_intbuffer
    over_realbuffer over_tripletbuffer over_row_state over_col_state] in *;
  lens_simpl.

Lemma equal_set_unmodified f m :
  m <> 0 -> Flags.equal (Flags.set f m) 0 = false.
Proof.
  intros Hm. unfold Flags.equal, Flags.set.
  destruct (Z.eqb_spec (Z.lor f m) 0) as [H0 | ]; [| reflexivity].
  apply Z.lor_eq_0_iff in H0. tauto.
Qed.

Ltac unfold_lock H :=
  unfold applyTransaction, checkTransactionConflicts, applyReductions,
    applyReduction, for_each, setColState, getNCols in H;
  cbn [Reduction.row Reduction.col Reduction.newval] in H;
  change (0 <=? ColReduction.LOCKED_STRONG) with false in H;
  change (ColReduction.LOCKED_STRONG <? 0) with true in H;
  change (ColReduction.LOCKED_STRONG =? ColReduction.LOCKED_STRONG)
    with true in H;
  change (ColReduction.LOCKED_STRONG =? ColReduction.NONE) with false in H.

(** A transaction that consists of a [LOCKED_STRONG] operation on a column
    whose per-round state does not record [Modified] is applied, and a
    second such transaction in the same round is applied as well, leaving
    the state as the first one left it.  A transaction that starts with a
    [LOCKED_STRONG] on a column whose state records [Modified] is rejected
    and leaves the state unchanged. *)
Lemma lock_strong_twice {env : Env} c v s st :
  index (view Field.col_state s) c = Some st ->
  c < size (view Ref.cflags s) ->
  let lock := Reduction.mk v ColReduction.LOCKED_STRONG c in
  (Flags.test st State.kModified = false ->
   exists s1,
     applyTransaction [lock] s = Ok ApplyResult.kApplied s1 /\
     applyTransaction [lock] s1 = Ok ApplyResult.kApplied s1) /\
  (Flags.test st State.kModified = true ->
   forall rest,
     applyTransaction (lock :: rest) s = Ok ApplyResult.kRejected s).
Proof.
  intros Hst Hc lock. subst lock.
  pose proof (index_Some_range _ _ _ Hst) as [Hc0 _].
  assert (Hr : (0 <=? c) = true) by lia.
  assert (Hr' : (c <? size (flags (variableDomains (problem s)))) = true)
    by (lens_simpl; lia).
  split; intros Hm.
  - destruct (applyTransaction [Reduction.mk v ColReduction.LOCKED_STRONG c] s)
      as [r s1 | e] eqn:H;
      unfold_lock H; run_in H; ok_inv H.
    all: eexists; split; [reflexivity |].
    all: match goal with |- applyTransaction ?tx ?s1 = _ =>
           destruct (applyTransaction tx s1) as [r s2 | e] eqn:H
         end; unfold_lock H; run_in H.
    all: try (rewrite equal_set_unmodified in * by discriminate; discriminate).
    all: ok_inv H; state_unfold;
      rewrite FlagsFacts.set_idempotent, list_insert_insert_eq; reflexivity.
  - intros rest.
    destruct (applyTransaction
                (Reduction.mk v ColReduction.LOCKED_STRONG c :: rest) s)
      as [r s1 | e] eqn:H;
      unfold_lock H; run_in H; ok_inv H; reflexivity.
Qed.

(** Two transactions of the same round that both lock-strong column 5: the
    second one is applied, not rejected. *)
Lemma second_lock_strong_is_applied :
  let s := Examples.blank 6 0 in
  let lock := Examples.lock_strong 5 in
  match applyTransaction (env := Examples.debug) [lock] s with
  | Ok first s1 =>
      first = ApplyResult.kApplied /\
      applyTransaction (env := Examples.debug) [lock] s1 =
        Ok ApplyResult.kApplied s1 /\
      applyTransaction (env := Examples.debug) [lock] s1 <>
        Ok ApplyResult.kRejected s1
  | Err _ => False
  end.
Proof. vm_compute. repeat split. discriminate. Qed.

(** ** Rejected transactions *)

(** The column operations that reject while the transaction is applied. *)
Definition rejecting (reduction : Reduction.t) : Prop :=
  Reduction.row reduction = ColReduction.SUBSTITUTE \/
  Reduction.row reduction = ColReduction.PARALLEL.

Lemma for_each_readonly {A S R} (l : list A) (body : A -> S -> M (Flow S R)) :
  (forall x acc s r s', body x acc s = Ok r s' -> s' = s) ->
  forall acc s r s', for_each l body acc s = Ok r s' -> s' = s.
Proof.
  intros Hbody. induction l as [| x l IH]; intros acc s r s' H; simpl in H.
  - unfold ret in H. congruence.
  - unfold bind in H. destruct (body x acc s) as [[acc' | r'] s1 |] eqn:Hx;
      [| | discriminate].
    + apply Hbody in Hx. subst s1. eapply IH; eassumption.
    + apply Hbody in Hx. unfold ret in H. congruence.
Qed.

(** The conflict check only reads the state. *)
Lemma checkTransactionConflicts_readonly {env : Env} tx s r s' :
  checkTransactionConflicts tx s = Ok r s' -> s' = s.
Proof.
  unfold checkTransactionConflicts. intros H.
  unfold bind at 1 in H.
  match type of H with
  | match for_each ?l ?body ?acc ?s with _ => _ end = _ =>
      destruct (for_each l body acc s) as [flow s1 |] eqn:Hloop; [| discriminate]
  end.
  apply for_each_readonly in Hloop.
  - subst s1. destruct flow; unfold ret in H; congruence.
  - clear. intros reduction [] s r s' H.
    run_in H; ok_inv H; reflexivity.
Qed.

Lemma infeasible_or_break_flow (m : M PresolveStatus.t) s flow s' :
  infeasible_or_break m s = Ok flow s' ->
  flow = Next tt \/ flow = Return ApplyResult.kInfeasible.
Proof.
  unfold infeasible_or_break. intros H. run_in H; ok_inv H.
  destruct a; auto.
Qed.

(** Close a goal on the flow of a case by the flows of the calls in it. *)
Ltac flow_cases :=
  repeat match goal with
  | Hq : infeasible_or_break _ _ = Ok _ _ |- _ =>
      apply infeasible_or_break_flow in Hq; destruct Hq
  | u : unit |- _ => destruct u
  end;
  subst; try discriminate; auto.

Lemma case_IMPL_INT_flow {env : Env} reduction s flow s' :
  case_IMPL_INT reduction s = Ok flow s' ->
  flow = Next tt \/ flow = Return ApplyResult.kInfeasible.
Proof.
  unfold case_IMPL_INT. intros H. run_in H; ok_inv H; flow_cases.
Qed.

Lemma case_SUBSTITUTE_OBJ_flow {env : Env} reduction s flow s' :
  case_SUBSTITUTE_OBJ reduction s = Ok flow s' -> flow = Next tt.
Proof.
  unfold case_SUBSTITUTE_OBJ. intros H. run_in H; ok_inv H; flow_cases.
Qed.

Lemma case_REPLACE_flow {env : Env} reduction next s flow s' :
  case_REPLACE reduction next s = Ok flow s' ->
  flow = Next tt \/ flow = Return ApplyResult.kInfeasible.
Proof.
  unfold case_REPLACE. intros H. run_in H; ok_inv H; flow_cases.
Qed.

Lemma case_SPARSIFY_rejected {env : Env} continue eqrow n eqrowvec rest :
  forall i ncancel ncanceledrows s s',
  case_SPARSIFY continue eqrow n eqrowvec rest i ncancel ncanceledrows s =
    Ok ApplyResult.kRejected s' ->
  exists rest' s1, rest' `suffix_of` rest /\
    continue rest' s1 = Ok ApplyResult.kRejected s'.
Proof.
  induction rest as [| candidate rest IH]; intros i nc ncr s s' H;
    simpl in H.
  - run_in H; ok_inv H.
    all: eexists _, _; split; [reflexivity | eassumption].
  - run_in H; ok_inv H.
    all: try (eexists _, _; split; [reflexivity | eassumption]).
    all: apply IH in H; destruct H as (rest' & sk & Hs & Hk);
      eexists _, _; split; [apply suffix_cons_r; eassumption | eassumption].
Qed.


(** An iteration returns [Rejected] either by itself, on a rejecting
    operation, or through the iterations that follow. *)
Lemma applyReduction_rejected {env : Env} reduction rest continue s s' :
  applyReduction reduction rest continue s = Ok ApplyResult.kRejected s' ->
  rejecting reduction \/
  exists rest' s1, rest' `suffix_of` rest /\
    continue rest' s1 = Ok ApplyResult.kRejected s'.
Proof.
  unfold applyReduction, rejecting. intros H.
  run_in H; ok_inv H.
  all: try match goal with
       | Hq : case_SPARSIFY _ _ _ _ _ _ _ _ _ = Ok _ _ |- _ =>
           apply case_SPARSIFY_rejected in Hq
       end.
  all: try match goal with
       | Hq : infeasible_or_break _ _ = Ok (Return _) _ |- _ =>
           apply infeasible_or_break_flow in Hq; destruct Hq; discriminate
       | Hq : case_IMPL_INT _ _ = Ok (Return _) _ |- _ =>
           apply case_IMPL_INT_flow in Hq; destruct Hq; discriminate
       | Hq : case_SUBSTITUTE_OBJ _ _ = Ok (Return _) _ |- _ =>
           apply case_SUBSTITUTE_OBJ_flow in Hq; discriminate
       | Hq : case_REPLACE _ _ _ = Ok (Return _) _ |- _ =>
           apply case_REPLACE_flow in Hq; destruct Hq; discriminate
       end.
  all: try match goal with
       | Hq : (_ =? ColReduction.SUBSTITUTE) = true |- _ =>
           left; left; apply Z.eqb_eq; exact Hq
       | Hq : (_ =? ColReduction.PARALLEL) = true |- _ =>
           left; right; apply Z.eqb_eq; exact Hq
       end.
  all: try (right; eexists _, _; split; [reflexivity | eassumption]).
  all: try (right; eexists _, _; split;
              [apply suffix_cons_r; reflexivity | eassumption]).
  all: right; assumption.
Qed.

Lemma Exists_suffix {A} (P : A -> Prop) (l l' : list A) :
  l' `suffix_of` l -> Exists P l' -> Exists P l.
Proof. intros [k ->] H. apply Exists_app. right. exact H. Qed.

Lemma applyReductions_rejected {env : Env} tx :
  forall tx', tx' `suffix_of` tx ->
  forall s s', applyReductions tx' s = Ok ApplyResult.kRejected s' ->
  Exists rejecting tx'.
Proof.
  induction tx as [| reduction rest IH]; intros tx' Hsuffix s s' H.
  - apply suffix_nil_inv in Hsuffix. subst tx'. discriminate H.
  - destruct tx' as [| r' tx']; [discriminate H |].
    apply suffix_cons_inv in Hsuffix as [Heq | Hsuffix];
      [| eapply IH; eassumption].
    injection Heq as -> ->.
    simpl in H. apply applyReduction_rejected in H
      as [Hr | (rest' & s1 & Hs & Hk)].
    + apply Exists_cons_hd. exact Hr.
    + apply Exists_cons_tl. eapply Exists_suffix; [exact Hs |].
      eapply IH; eassumption.
Qed.

(** Claim C1, as amended.  When [applyTransaction] returns [Rejected],
    either the conflict check found a conflict, and then the call has no
    effect at all: the problem data, the postsolve trail, the statistics,
    the worklists and the row and column states are exactly as before; or
    the conflict check passed and the transaction contains a [SUBSTITUTE] or
    a [PARALLEL] column operation, the two operations that can refuse while
    the transaction is being applied. *)
Theorem rejected_by_conflict_has_no_effect {env : Env} tx s s' :
  applyTransaction tx s = Ok ApplyResult.kRejected s' ->
  (checkTransactionConflicts tx s = Ok ConflictType.kConflict s /\ s' = s) \/
  (checkTransactionConflicts tx s = Ok ConflictType.kNoConflict s /\
   Exists rejecting tx).
Proof.
  unfold applyTransaction, bind. intros H.
  destruct (checkTransactionConflicts tx s) as [conflictType s1 |] eqn:Hc;
    [| discriminate].
  pose proof (checkTransactionConflicts_readonly _ _ _ _ Hc). subst s1.
  destruct conflictType.
  - right. split; [reflexivity |].
    eapply applyReductions_rejected; [reflexivity | exact H].
  - left. split; [reflexivity |]. unfold ret in H. congruence.
  - discriminate H.
Qed.

(** A transaction that locks a column whose state records [Modified]. *)
Lemma rejected_by_conflict_has_no_effect_witness :
  let s := over Field.col_state (fun _ => [State.kModified])
             (Examples.blank 1 0) in
  let tx := [Examples.lock_strong 0] in
  applyTransaction (env := Examples.debug) tx s =
    Ok ApplyResult.kRejected s /\
  ((checkTransactionConflicts (env := Examples.debug) tx s =
      Ok ConflictType.kConflict s /\ s = s) \/
   (checkTransactionConflicts (env := Examples.debug) tx s =
      Ok ConflictType.kNoConflict s /\ Exists rejecting tx)).
Proof.
  split; [reflexivity |].
  apply (rejected_by_conflict_has_no_effect (env := Examples.debug)).
  reflexivity.
Defined.

(** A transaction that locks column 0 and then merges it into column 1,
    which is already fixed: the merge is refused, the transaction returns
    [Rejected], and the lock of column 0 stays recorded. *)
Lemma rejected_transaction_keeps_earlier_effects :
  let s := over Ref.cflags (fun _ => [ColFlag.kNone; ColFlag.kFixed])
             (Examples.blank 2 0) in
  let tx := [Examples.lock_strong 0; Examples.parallel 0 1] in
  match applyTransaction (env := Examples.debug) tx s with
  | Ok result s' =>
      result = ApplyResult.kRejected /\
      s' <> s /\
      col_state s = [State.kUnmodified; State.kUnmodified] /\
      col_state s' = [State.kLocked; State.kUnmodified] /\
      dirty_col_states s = [] /\
      dirty_col_states s' = [0]
  | Err _ => False
  end.
Proof.
  vm_compute. repeat split. intros H. discriminate H.
Qed.

(** ** Empty rows in [trivialRowPresolve] *)

(** The state in which [row] is marked redundant by the empty-row case. *)
Definition dropped_empty_row (row rf : Z) (s : ProblemUpdate) : ProblemUpdate :=
  over Ref.rowsize (fun v => <[Z.to_nat row := -1]> v)
    (over Ref.rflags
       (fun v => <[Z.to_nat row := Flags.set rf RowFlag.kRedundant]> v) s).

(** The iteration of the loop of [trivialRowPresolve] on a row of size 0
    ends in [return Infeasible] if and only if the finite left-hand side of
    the row is feasibility-greater than 0 or its finite right-hand side is
    feasibility-less than 0; otherwise the row is marked redundant and its
    size set to [-1].  With tolerant comparisons, sides within [feasTol] of
    0 are not infeasible. *)
Lemma trivialRowPresolve_row_empty {env : Env} row status s rf lhs rhs :
  index (view Ref.rowsize s) row = Some 0 ->
  index (view Ref.rflags s) row = Some rf ->
  index (view Ref.lhs s) row = Some lhs ->
  index (view Ref.rhs s) row = Some rhs ->
  let infeasible :=
    (Flags.test rf RowFlag.kLhsInf = false /\ isFeasGT num lhs 0 = true) \/
    (Flags.test rf RowFlag.kRhsInf = false /\ isFeasLT num rhs 0 = true) in
  (infeasible ->
   trivialRowPresolve_row row status s =
     Ok (Return PresolveStatus.kInfeasible) s) /\
  (~ infeasible ->
   trivialRowPresolve_row row status s =
     Ok (Next PresolveStatus.kReduced) (dropped_empty_row row rf s)) /\
  ((forall a b, isFeasGT num a b = Qlt_bool (getFeasTol num) (a - b)) ->
   (forall a b, isFeasLT num a b = Qlt_bool (a - b) (- getFeasTol num)) ->
   (Qabs lhs <= getFeasTol num)%Q -> (Qabs rhs <= getFeasTol num)%Q ->
   ~ infeasible).
Proof.
  intros Hsz Hrf Hlhs Hrhs infeasible. subst infeasible.
  unfold trivialRowPresolve_row, dropped_empty_row.
  split; [| split].
  - intros Hinf.
    destruct (Flags.test rf RowFlag.kLhsInf) eqn:Hl;
    destruct (isFeasGT num lhs 0) eqn:Hgt;
    destruct (Flags.test rf RowFlag.kRhsInf) eqn:Hr;
    destruct (isFeasLT num rhs 0) eqn:Hlt;
    try (exfalso; destruct Hinf as [[? ?] | [? ?]]; discriminate);
    run; reflexivity.
  - intros Hinf.
    destruct (Flags.test rf RowFlag.kLhsInf) eqn:Hl;
    destruct (isFeasGT num lhs 0) eqn:Hgt;
    destruct (Flags.test rf RowFlag.kRhsInf) eqn:Hr;
    destruct (isFeasLT num rhs 0) eqn:Hlt;
    try (exfalso; apply Hinf; auto; fail).
    all: run; reflexivity.
  - intros Hgt Hlt Hl Hr.
    apply Qabs_Qle_condition in Hl. apply Qabs_Qle_condition in Hr.
    intros [[_ H] | [_ H]].
    + rewrite Hgt in H. unfold Qlt_bool in H. apply negb_true_iff in H.
      assert (Hle : Qle_bool (lhs - 0) (getFeasTol num) = true)
        by (apply Qle_bool_iff; lra).
      congruence.
    + rewrite Hlt in H. unfold Qlt_bool in H. apply negb_true_iff in H.
      assert (Hle : Qle_bool (- getFeasTol num) (rhs - 0) = true)
        by (apply Qle_bool_iff; lra).
      congruence.
Qed.

(** A loop over [l1 ++ l2] is the loop over [l1], then, unless it
    returned, the loop over [l2]. *)
Lemma for_each_app {A S T} (l1 l2 : list A) (body : A -> S -> M (Flow S T)) :
  forall locals s,
    for_each (l1 ++ l2) body locals s =
    match for_each l1 body locals s with
    | Ok (Next locals') s' => for_each l2 body locals' s'
    | Ok (Return r) s' => Ok (Return r) s'
    | Err e => Err e
    end.
Proof.
  induction l1 as [| x l1 IH]; intros locals s; simpl.
  - reflexivity.
  - unfold bind. destruct (body x locals s) as [[locals' | r] s' | e].
    + apply IH.
    + reflexivity.
    + reflexivity.
Qed.

(** The rows up to [row], [row] itself, and the rows after it. *)
Lemma seqZ_split n row :
  0 <= row < n ->
  seqZ 0 n = seqZ 0 row ++ row :: seqZ (row + 1) (n - (row + 1)).
Proof.
  intros Hrow.
  replace n with (row + (n - row)) at 1 by lia.
  rewrite seqZ_app by lia. f_equal.
  rewrite seqZ_cons by lia. f_equal. f_equal; lia.
Qed.

(** [trivialRowPresolve] from row [first] of [n] on, with the status the
    rows before have left: the remaining iterations of its loop and the
    statements after the loop. *)
Definition remaining_rows {env : Env} (first n : Z)
    (status : PresolveStatus.t) : M PresolveStatus.t :=
  flow ← for_each (seqZ first (n - first)) trivialRowPresolve_row status;
  match flow with
  | Return r => ret r
  | Next status =>
      flushChangedCoeffs;;
      ret status
  end.

(** Claim C8.  In [trivialRowPresolve], a row of size 0 yields [Infeasible]
    if and only if its finite left-hand side is feasibility-greater than 0
    or its finite right-hand side is feasibility-less than 0: when the loop
    reaches such a row, in the state [s0] the rows before it have left,
    [trivialRowPresolve] returns [Infeasible] there and then; otherwise the
    row is marked redundant, its size is set to [-1], and
    [trivialRowPresolve] goes on with the next row and the status
    [Reduced].  In particular, with tolerant comparisons, an empty row
    whose sides lie within [feasTol] of 0 is marked redundant, not
    infeasible. *)
Theorem empty_row_infeasible_iff {env : Env} row status s s0 rf lhs rhs :
  size (view Ref.activities s) = size (view Ref.rflags s) ->
  0 <= row < size (view Ref.rflags s) ->
  for_each (seqZ 0 row) trivialRowPresolve_row PresolveStatus.kUnchanged s =
    Ok (Next status) s0 ->
  index (view Ref.rowsize s0) row = Some 0 ->
  index (view Ref.rflags s0) row = Some rf ->
  index (view Ref.lhs s0) row = Some lhs ->
  index (view Ref.rhs s0) row = Some rhs ->
  let infeasible :=
    (Flags.test rf RowFlag.kLhsInf = false /\ isFeasGT num lhs 0 = true) \/
    (Flags.test rf RowFlag.kRhsInf = false /\ isFeasLT num rhs 0 = true) in
  (infeasible ->
   trivialRowPresolve s = Ok PresolveStatus.kInfeasible s0) /\
  (~ infeasible ->
   trivialRowPresolve_row row status s0 =
     Ok (Next PresolveStatus.kReduced) (dropped_empty_row row rf s0) /\
   trivialRowPresolve s =
     remaining_rows (row + 1) (size (view Ref.rflags s))
       PresolveStatus.kReduced (dropped_empty_row row rf s0)) /\
  ((forall a b, isFeasGT num a b = Qlt_bool (getFeasTol num) (a - b)) ->
   (forall a b, isFeasLT num a b = Qlt_bool (a - b) (- getFeasTol num)) ->
   (Qabs lhs <= getFeasTol num)%Q -> (Qabs rhs <= getFeasTol num)%Q ->
   ~ infeasible).
Proof.
  intros Hactivities Hrow Hbefore Hsz Hrf Hlhs Hrhs infeasible.
  destruct (trivialRowPresolve_row_empty row status s0 rf lhs rhs
              Hsz Hrf Hlhs Hrhs) as (Hbad & Hgood & Htolerance).
  fold infeasible in Hbad, Hgood, Htolerance.
  assert (trivialRowPresolve s =
          remaining_rows 0 (size (view Ref.rflags s))
            PresolveStatus.kUnchanged s) as Hrun.
  { unfold trivialRowPresolve, remaining_rows, assert, getNRows.
    rewrite Z.sub_0_r.
    destruct NDEBUG; unfold bind, ret, read, gets; [reflexivity |].
    rewrite Hactivities, Z.eqb_refl. reflexivity. }
  unfold remaining_rows in Hrun. rewrite Z.sub_0_r in Hrun.
  rewrite (seqZ_split _ row Hrow) in Hrun.
  unfold bind in Hrun. rewrite for_each_app, Hbefore in Hrun.
  simpl for_each in Hrun. unfold bind in Hrun.
  split; [| split; [| exact Htolerance]].
  - intros Hinf. rewrite (Hbad Hinf) in Hrun. exact Hrun.
  - intros Hinf. split; [exact (Hgood Hinf) |].
    rewrite (Hgood Hinf) in Hrun. exact Hrun.
Qed.

(** Two empty rows: [-5e-7 <= 0 <= 5e-7] and [1 <= 0 <= 2], with
    [feasTol = 1e-6]. *)
Definition empty_rows : ProblemUpdate :=
  over Ref.lhs (fun _ => [(-1 # 2000000)%Q; 1%Q])
    (over Ref.rhs (fun _ => [(1 # 2000000)%Q; 2%Q])
       (over Ref.rflags (fun _ => [RowFlag.kNone; RowFlag.kNone])
          (Examples.blank 0 2))).

(** The first row is marked redundant, the second one is infeasible. *)
Lemma empty_row_infeasible_iff_witness :
  trivialRowPresolve_row (env := Examples.debug) 0
    PresolveStatus.kUnchanged empty_rows =
    Ok (Next PresolveStatus.kReduced)
      (dropped_empty_row 0 RowFlag.kNone empty_rows) /\
  view Ref.rowsize (dropped_empty_row 0 RowFlag.kNone empty_rows) =
    [-1; 0] /\
  trivialRowPresolve (env := Examples.debug) empty_rows =
    Ok PresolveStatus.kInfeasible
      (dropped_empty_row 0 RowFlag.kNone empty_rows).
Proof.
  split; [| split; [reflexivity |]].
  - destruct (empty_row_infeasible_iff (env := Examples.debug) 0
                PresolveStatus.kUnchanged empty_rows empty_rows
                RowFlag.kNone (-1 # 2000000)%Q (1 # 2000000)%Q
                eq_refl (conj (Z.le_refl 0) eq_refl) eq_refl
                eq_refl eq_refl eq_refl eq_refl)
      as (_ & Hredundant & Htolerance).
    apply Hredundant. apply Htolerance.
    + intros a b. reflexivity.
    + intros a b. reflexivity.
    + unfold Qle. simpl. lia.
    + unfold Qle. simpl. lia.
  - apply (empty_row_infeasible_iff (env := Examples.debug) 1
             PresolveStatus.kReduced empty_rows
             (dropped_empty_row 0 RowFlag.kNone empty_rows)
             RowFlag.kNone 1%Q 2%Q);
      [reflexivity | split; [discriminate | reflexivity]
      | vm_compute; reflexivity | reflexivity | reflexivity | reflexivity
      | reflexivity |].
    left. split; reflexivity.
Defined.

(** ** Huge bounds *)

(** The single row [x = 0] over a free column [x]: both bounds of the column
    are infinite and each side of the activity of the row counts one
    infinite contribution. *)
Definition free_column : ProblemUpdate :=
  over Ref.cflags (fun _ => [Z.lor ColFlag.kLbInf ColFlag.kUbInf])
    (over Ref.activities (fun _ => [mkRowActivity 0 0 1 1 (-1)])
       (over Ref.consMatrix
          (fun cm =>
             over_row_storage (fun _ => [[(0, 1%Q)]])
               (over_col_storage (fun _ => [[(0, 1%Q)]])
                  (over_row_sizes (fun _ => [1])
                     (over_col_sizes (fun _ => [1]) cm))))
          (Examples.blank 1 1))).

Lemma changeLB_huge {env : Env} col val s s' f lb' :
  changeLB col val s = Ok PresolveStatus.kReduced s' ->
  index (view Ref.cflags s) col = Some f ->
  index (view Ref.lbs s') col = Some lb' ->
  isHugeVal num lb' = true ->
  view Ref.activities s' = view Ref.activities s /\
  changed_activities s' = changed_activities s /\
  exists f', index (view Ref.cflags s') col = Some f' /\
    Flags.test f' ColFlag.kLbInf = false /\
    Flags.test f' ColFlag.kLbHuge = Flags.test f ColFlag.kLbHuge.
Proof.
  intros H Hf Hlb Hhuge.
  unfold changeLB, setColState, getNCols in H.
  run_in H; ok_inv H; lens_simpl.
  all: try (rewrite index_insert_eq in Hlb by in_range;
            injection Hlb as <-; congruence).
  all: split; [reflexivity | split; [reflexivity |]].
  all: eexists; split; [rewrite index_insert_eq by in_range; reflexivity |].
  all: split; repeat flag_simpl; reflexivity.
Qed.

Lemma changeUB_huge {env : Env} col val s s' f ub' :
  changeUB col val s = Ok PresolveStatus.kReduced s' ->
  index (view Ref.cflags s) col = Some f ->
  index (view Ref.ubs s') col = Some ub' ->
  isHugeVal num ub' = true ->
  view Ref.activities s' = view Ref.activities s /\
  changed_activities s' = changed_activities s /\
  exists f', index (view Ref.cflags s') col = Some f' /\
    Flags.test f' ColFlag.kUbInf = false /\
    Flags.test f' ColFlag.kUbHuge = Flags.test f ColFlag.kUbHuge.
Proof.
  intros H Hf Hub Hhuge.
  unfold changeUB, setColState, getNCols in H.
  run_in H; ok_inv H; lens_simpl.
  all: try (rewrite index_insert_eq in Hub by in_range;
            injection Hub as <-; congruence).
  all: split; [reflexivity | split; [reflexivity |]].
  all: eexists; split; [rewrite index_insert_eq by in_range; reflexivity |].
  all: split; repeat flag_simpl; reflexivity.
Qed.

(** Claim C3, as the code has it.  When [changeLB] stores a huge lower
    bound it leaves every row activity and the list of changed activities as
    they were, so the infinite contribution stays counted; on the flags of
    the column it only clears [kLbInf]: [kLbHuge] is kept if it was set and
    is not set otherwise.  [changeUB] does the same with [kUbInf] and
    [kUbHuge]. *)
Theorem huge_bound_only_clears_infinity {env : Env} col val s f :
  index (view Ref.cflags s) col = Some f ->
  (forall s' lb',
     changeLB col val s = Ok PresolveStatus.kReduced s' ->
     index (view Ref.lbs s') col = Some lb' ->
     isHugeVal num lb' = true ->
     view Ref.activities s' = view Ref.activities s /\
     changed_activities s' = changed_activities s /\
     exists f', index (view Ref.cflags s') col = Some f' /\
       Flags.test f' ColFlag.kLbInf = false /\
       Flags.test f' ColFlag.kLbHuge = Flags.test f ColFlag.kLbHuge) /\
  (forall s' ub',
     changeUB col val s = Ok PresolveStatus.kReduced s' ->
     index (view Ref.ubs s') col = Some ub' ->
     isHugeVal num ub' = true ->
     view Ref.activities s' = view Ref.activities s /\
     changed_activities s' = changed_activities s /\
     exists f', index (view Ref.cflags s') col = Some f' /\
       Flags.test f' ColFlag.kUbInf = false /\
       Flags.test f' ColFlag.kUbHuge = Flags.test f ColFlag.kUbHuge).
Proof.
  intros Hf; split; intros s' b' Hrun Hb Hhuge.
  - exact (changeLB_huge col val s s' f b' Hrun Hf Hb Hhuge).
  - exact (changeUB_huge col val s s' f b' Hrun Hf Hb Hhuge).
Qed.

(** On the free column, a lower bound of [10^9] (huge: the threshold is
    [10^8]) is stored, the column is left with [kUbInf] alone, neither
    [kLbInf] nor [kLbHuge], and the activity of the row still counts an
    infinite contribution on each side. *)
Lemma huge_bound_only_clears_infinity_witness :
  exists s',
    changeLB (env := Examples.debug) 0 (1000000000 # 1) free_column =
      Ok PresolveStatus.kReduced s' /\
    view Ref.lbs s' = [(1000000000 # 1)%Q] /\
    view Ref.activities s' = [mkRowActivity 0 0 1 1 (-1)] /\
    exists f', index (view Ref.cflags s') 0 = Some f' /\
      Flags.test f' ColFlag.kLbInf = false /\
      Flags.test f' ColFlag.kLbHuge = false.
Proof.
  edestruct
    (proj1 (huge_bound_only_clears_infinity (env := Examples.debug)
              0 (1000000000 # 1) free_column
              (Z.lor ColFlag.kLbInf ColFlag.kUbInf) eq_refl))
    as (Hact & _ & Hflags);
    [vm_compute; reflexivity | reflexivity | reflexivity |].
  eexists; split; [vm_compute; reflexivity |].
  exact (conj eq_refl (conj Hact Hflags)).
Defined.

(** [mark_huge_values] on the same column with the same bound stored does
    set [kLbHuge]. *)
Example mark_huge_values_sets_LbHuge :
  exists s',
    mark_huge_values (env := Examples.debug) 0
      (over Ref.lbs (fun _ => [(1000000000 # 1)%Q])
         (over Ref.cflags (fun _ => [ColFlag.kUbInf]) free_column)) =
      Ok tt s' /\
    view Ref.cflags s' = [Z.lor ColFlag.kUbInf ColFlag.kLbHuge].
Proof. eexists; split; [vm_compute; reflexivity | reflexivity]. Qed.

(** ** The counter of bound changes *)

Lemma changeLB_infeasible {env : Env} col val s s' :
  changeLB col val s = Ok PresolveStatus.kInfeasible s' ->
  s' = over Ref.nboundchgs Z.succ s.
Proof.
  intros H.
  unfold changeLB, setColState, getNCols in H.
  run_in H; ok_inv H; reflexivity.
Qed.

Lemma changeUB_infeasible {env : Env} col val s s' :
  changeUB col val s = Ok PresolveStatus.kInfeasible s' ->
  s' = over Ref.nboundchgs Z.succ s.
Proof.
  intros H.
  unfold changeUB, setColState, getNCols in H.
  run_in H; ok_inv H; reflexivity.
Qed.

Lemma changeLB_unchanged {env : Env} col val s s' :
  changeLB col val s = Ok PresolveStatus.kUnchanged s' ->
  s' = s \/ s' = over Ref.nboundchgs Z.succ s.
Proof.
  intros H.
  unfold changeLB, setColState, getNCols in H.
  run_in H; ok_inv H; auto.
Qed.

Lemma changeUB_unchanged {env : Env} col val s s' :
  changeUB col val s = Ok PresolveStatus.kUnchanged s' ->
  s' = s \/ s' = over Ref.nboundchgs Z.succ s.
Proof.
  intros H.
  unfold changeUB, setColState, getNCols in H.
  run_in H; ok_inv H; auto.
Qed.

(** Claim C9, as the code has it.  [changeLB] and [changeUB] count the bound
    change before they compare the new bound with the opposite one: a call
    that returns infeasible has changed no bound, no flag and nothing else of
    the state, and has added one to [nboundchgs]. *)
Theorem infeasible_bound_change_is_counted {env : Env} col val s s' :
  changeLB col val s = Ok PresolveStatus.kInfeasible s' \/
  changeUB col val s = Ok PresolveStatus.kInfeasible s' ->
  s' = over Ref.nboundchgs Z.succ s /\
  nboundchgs (stats s') = nboundchgs (stats s) + 1 /\
  view Ref.lbs s' = view Ref.lbs s /\
  view Ref.ubs s' = view Ref.ubs s /\
  view Ref.cflags s' = view Ref.cflags s.
Proof.
  intros [H | H];
    [apply changeLB_infeasible in H | apply changeUB_infeasible in H];
    subst s'; repeat split; lens_simpl; apply Z.add_1_r.
Qed.

(** A lower bound of [5] on a column with bounds [0 <= x <= 1]. *)
Lemma infeasible_bound_change_is_counted_witness :
  changeLB (env := Examples.debug) 0 5 (Examples.blank 1 0) =
    Ok PresolveStatus.kInfeasible
      (over Ref.nboundchgs Z.succ (Examples.blank 1 0)) /\
  nboundchgs (stats (over Ref.nboundchgs Z.succ (Examples.blank 1 0))) =
    nboundchgs (stats (Examples.blank 1 0)) + 1 /\
  view Ref.lbs (over Ref.nboundchgs Z.succ (Examples.blank 1 0)) = [0%Q] /\
  view Ref.ubs (over Ref.nboundchgs Z.succ (Examples.blank 1 0)) = [1%Q].
Proof.
  pose proof
    (infeasible_bound_change_is_counted (env := Examples.debug) 0 5
       (Examples.blank 1 0) (over Ref.nboundchgs Z.succ (Examples.blank 1 0))
       (or_introl eq_refl)) as (_ & Hn & Hl & Hu & _).
  exact (conj eq_refl (conj Hn (conj Hl Hu))).
Defined.

(** A fixed column [x = 1]: a lower bound above [1] by less than the
    tolerance changes nothing, is reported as unchanged, and is counted. *)
Example unchanged_bound_change_is_counted :
  let s := over Ref.cflags (fun _ => [ColFlag.kFixed])
             (over Ref.lbs (fun _ => [1%Q]) (Examples.blank 1 0)) in
  changeLB (env := Examples.debug) 0 (2000001 # 2000000) s =
    Ok PresolveStatus.kUnchanged (over Ref.nboundchgs Z.succ s).
Proof. reflexivity. Qed.

(** ** Frame rules

    [respects R m]: every run of [m] that returns takes a state to one that
    is related to it by [R].  For a preorder [R] the property follows the
    structure of [m]. *)

Definition respects (R : relation ProblemUpdate) {A} (m : M A) : Prop :=
  forall s a s', m s = Ok a s' -> R s s'.

Lemma bind_Ok {A B} (m : M A) (f : A -> M B) s b s' :
  bind m f s = Ok b s' -> exists a s1, m s = Ok a s1 /\ f a s1 = Ok b s'.
Proof.
  unfold bind. destruct (m s) as [a s1 |]; [eauto | discriminate].
Qed.

Section Respects.
Context (R : relation ProblemUpdate) `{!PreOrder R}.
Context {env : Env}.

Lemma respects_ret {A} (a : A) : respects R (ret a).
Proof. intros s a' s' H. unfold ret in H. injection H as _ <-. reflexivity. Qed.

Lemma respects_fault {A} e : respects R (fault (A := A) e).
Proof. intros s a s' H. discriminate. Qed.

Lemma respects_bind {A B} (m : M A) (f : A -> M B) :
  respects R m -> (forall a, respects R (f a)) -> respects R (bind m f).
Proof.
  intros Hm Hf s b s' H. apply bind_Ok in H as (a & s1 & H1 & H2).
  transitivity s1; [eapply Hm | eapply Hf]; eassumption.
Qed.

Lemma respects_gets {A} (f : ProblemUpdate -> A) : respects R (gets f).
Proof. intros s a s' H. unfold gets in H. injection H as _ <-. reflexivity. Qed.

Lemma respects_read {A} (l : Lens ProblemUpdate A) : respects R (read l).
Proof. apply respects_gets. Qed.

Lemma respects_vec_at {A} (l : Lens ProblemUpdate (list A)) i :
  respects R (vec_at l i).
Proof.
  intros s a s' H. unfold vec_at in H.
  destruct (index (view l s) i); [| discriminate].
  injection H as _ <-. reflexivity.
Qed.

Lemma respects_test_at l i mask : respects R (test_at l i mask).
Proof.
  apply respects_bind; [apply respects_vec_at | intros; apply respects_ret].
Qed.

Lemma respects_modify {A} (l : Lens ProblemUpdate A) f :
  (forall s, R s (over l f s)) -> respects R (modify l f).
Proof. intros Hl s a s' H. unfold modify in H. injection H as _ <-. apply Hl. Qed.

Lemma respects_vec_modify {A} (l : Lens ProblemUpdate (list A)) i f :
  (forall g s, R s (over l g s)) -> respects R (vec_modify l i f).
Proof.
  intros Hl s a s' H. unfold vec_modify in H.
  destruct (index (view l s) i); [| discriminate].
  injection H as _ <-. apply Hl.
Qed.

Lemma respects_when b (m : M unit) : respects R m -> respects R (when b m).
Proof. intros Hm. destruct b; [exact Hm | apply respects_ret]. Qed.

Lemma respects_assert (cond : M bool) :
  respects R cond -> respects R (assert cond).
Proof.
  intros Hc. unfold assert. destruct NDEBUG; [apply respects_ret |].
  apply respects_bind; [exact Hc |].
  intros []; [apply respects_ret | apply respects_fault].
Qed.

Lemma respects_divide a b : respects R (divide a b).
Proof.
  unfold divide. destruct (Qeq_bool b 0);
    [apply respects_fault | apply respects_ret].
Qed.

Lemma respects_for_each {A S T} (l : list A) (body : A -> S -> M (Flow S T)) :
  (forall x locals, respects R (body x locals)) ->
  forall locals, respects R (for_each l body locals).
Proof.
  intros Hbody. induction l as [| x l IH]; intros locals; simpl.
  - apply respects_ret.
  - apply respects_bind; [apply Hbody |].
    intros [locals' | r]; [apply IH | apply respects_ret].
Qed.

Lemma respects_for_each_ {A} (l : list A) (body : A -> M unit) :
  (forall x, respects R (body x)) -> respects R (for_each_ l body).
Proof.
  intros Hbody. induction l as [| x l IH]; simpl.
  - apply respects_ret.
  - apply respects_bind; [apply Hbody | intros _; exact IH].
Qed.

Lemma respects_all_of {A} (l : list A) (p : A -> M bool) :
  (forall x, respects R (p x)) -> respects R (all_of l p).
Proof.
  intros Hp. induction l as [| x l IH]; simpl.
  - apply respects_ret.
  - apply respects_bind; [apply Hp |].
    intros []; [exact IH | apply respects_ret].
Qed.

Lemma respects_remove_if (l : list Z) (p : Z -> M bool) :
  (forall x, respects R (p x)) -> respects R (remove_if l p).
Proof.
  intros Hp. induction l as [| x l IH]; simpl.
  - apply respects_ret.
  - apply respects_bind; [apply Hp | intros drop].
    apply respects_bind; [exact IH | intros kept; apply respects_ret].
Qed.

End Respects.

(** Follow the structure of a member function; [side] proves that a write
    through a lens respects the relation, and what is called is looked up
    among the hints of [frame]. *)
Create HintDb frame.

Ltac rule lemma := apply lemma; try exact _.

Ltac frame_step side :=
  lazymatch goal with
  | |- respects _ (let _ := _ in _) => cbv zeta
  | |- respects _ ((fun _ => _) _) => cbv beta
  | |- respects _ (bind _ _) => rule respects_bind; [| intros ?]
  | |- respects _ (ret _) => rule respects_ret
  | |- respects _ (fault _) => rule respects_fault
  | |- respects _ (gets _) => rule respects_gets
  | |- respects _ (read _) => rule respects_read
  | |- respects _ (vec_at _ _) => rule respects_vec_at
  | |- respects _ (test_at _ _ _) => rule respects_test_at
  | |- respects _ (divide _ _) => rule respects_divide
  | |- respects _ (when _ _) => rule respects_when
  | |- respects _ (assert _) => rule respects_assert
  | |- respects _ (andM _ _) => unfold andM
  | |- respects _ (orM _ _) => unfold orM
  | |- respects _ (notM _) => unfold notM
  | |- respects _ (incr _) => unfold incr
  | |- respects _ (decr _) => unfold decr
  | |- respects _ (write _ _) => unfold write
  | |- respects _ (push_back _ _) => unfold push_back
  | |- respects _ (vec_set _ _ _) => unfold vec_set
  | |- respects _ (modify _ _) => rule respects_modify; intros ?; side
  | |- respects _ (vec_modify _ _ _) =>
      rule respects_vec_modify; intros ? ?; side
  | |- respects _ (for_each _ _ _) => rule respects_for_each; intros ? ?
  | |- respects _ (for_each_ _ _) => rule respects_for_each_; intros ?
  | |- respects _ (all_of _ _) => rule respects_all_of; intros ?
  | |- respects _ (remove_if _ _) => rule respects_remove_if; intros ?
  | |- respects _ (match ?x with _ => _ end) => destruct x
  | |- respects _ _ => solve [auto with frame]
  end.

Ltac frame side := repeat frame_step side.

(** *** Reading only *)

Ltac readonly := frame ltac:(fail).

(** *** The bookkeeping of singleton_column columns

    Only [flush] and [clearChangeInfo] write [firstNewSingletonCol], and
    [singletonColumns] is handed to the matrix only. *)

Definition grows : relation ProblemUpdate := fun s s' =>
  firstNewSingletonCol s' = firstNewSingletonCol s /\
  (length (singletonColumns s) <= length (singletonColumns s'))%nat.

#[export] Instance grows_preorder : PreOrder grows.
Proof.
  split.
  - intros s. split; [reflexivity | apply le_n].
  - intros s1 s2 s3 [H1 L1] [H2 L2]. split; [congruence | lia].
Qed.

Ltac untouched := split; [reflexivity | apply le_n].
Ltac grow := frame untouched.

Section Grows.
Context {env : Env}.

Lemma update_activity_grows actChange rowid activity :
  respects grows (update_activity actChange rowid activity).
Proof. unfold update_activity, isRowRedundant. grow. Qed.

Lemma update_activities_after_boundchange_grows colvec type oldbound newbound
    oldbound_inf activityChange :
  (forall c r a, respects grows (activityChange c r a)) ->
  respects grows (update_activities_after_boundchange colvec type oldbound
                    newbound oldbound_inf activityChange).
Proof.
  intros Hcallback. induction colvec as [| [r v] colvec IH]; simpl; grow.
Qed.

Lemma markRowRedundant_grows row : respects grows (markRowRedundant row).
Proof. unfold markRowRedundant. grow. Qed.

Lemma setColState_grows col flags : respects grows (setColState col flags).
Proof. unfold setColState, getNCols. grow. Qed.

Lemma markColFixed_grows col : respects grows (markColFixed col).
Proof. unfold markColFixed. grow. Qed.

#[local] Hint Resolve update_activity_grows
  update_activities_after_boundchange_grows markRowRedundant_grows
  setColState_grows markColFixed_grows : frame.

Lemma fixCol_grows col val : respects grows (fixCol col val).
Proof. unfold fixCol, getColumnCoefficients. grow. Qed.

Lemma changeLB_grows col val : respects grows (changeLB col val).
Proof. unfold changeLB, getColumnCoefficients. grow. Qed.

Lemma changeUB_grows col val : respects grows (changeUB col val).
Proof. unfold changeUB, getColumnCoefficients. grow. Qed.

#[local] Hint Resolve fixCol_grows changeLB_grows changeUB_grows : frame.

Lemma removeSingletonRow_grows row : respects grows (removeSingletonRow row).
Proof. unfold removeSingletonRow, getRowCoefficients. grow. Qed.

Lemma checkChangedActivities_grows : respects grows checkChangedActivities.
Proof. unfold checkChangedActivities. grow. Qed.

Lemma coeffChanged_grows c : respects grows (coeffChanged c).
Proof. unfold coeffChanged. grow. Qed.

Lemma removeFixedCols_grows : respects grows removeFixedCols.
Proof. unfold removeFixedCols, getColumnCoefficients. grow. Qed.

(** The operations of [ConstraintMatrix] that are handed the worklists are
    defined in another file.  Both only append to the list of singleton_column
    columns: they never drop or overwrite an entry that is already there. *)
Definition extends_singletonColumns (e : Externals) : Prop :=
  (forall cm buffer wl activities,
     (length (wl_singletonColumns wl) <=
      length (wl_singletonColumns
                (snd (fst (fst (changeCoefficients e cm buffer wl
                                  activities))))))%nat) /\
  (forall cm redundant deleted activities wl,
     (length (wl_singletonColumns wl) <=
      length (wl_singletonColumns
                (snd (deleteRowsAndCols e cm redundant deleted activities
                        wl))))%nat).

Lemma flushChangedCoeffs_grows :
  extends_singletonColumns ext -> respects grows flushChangedCoeffs.
Proof.
  intros [Hchange _] s a s' H.
  unfold flushChangedCoeffs, set_worklists, worklists in H.
  run_in H; ok_inv H.
  - reflexivity.
  - apply (respects_for_each_ grows) in Heqr;
      [| intros ?; apply coeffChanged_grows].
    destruct Heqr as [Hfirst Hsize].
    match type of Heqp with
    | changeCoefficients ?e ?cm ?buf ?wl ?acts = _ =>
        specialize (Hchange cm buf wl acts); rewrite Heqp in Hchange
    end.
    split; [exact Hfirst | exact (Nat.le_trans _ _ _ Hchange Hsize)].
Qed.

End Grows.

(** ** The worklist of singleton_column columns after [flush] *)

Definition singleton_column (s : ProblemUpdate) (c : Z) : Prop :=
  index (view Ref.colsize s) c = Some 1.

Section Compaction.
Context {env : Env}.

Lemma compress_singleton_columns_spec fuel :
  forall i stop k s ik s',
    compress_singleton_columns fuel i stop k s = Ok ik s' ->
    0 <= k <= i -> i <= size (singletonColumns s) ->
    (forall j, 0 <= j < i - k ->
       exists c, index (singletonColumns s) j = Some c /\ singleton_column s c) ->
    fst ik = stop /\ i <= stop <= size (singletonColumns s) /\
    k <= snd ik /\ snd ik - k <= stop - i /\
    view Ref.colsize s' = view Ref.colsize s /\
    firstNewSingletonCol s' = firstNewSingletonCol s /\
    length (singletonColumns s') = length (singletonColumns s) /\
    (forall j, 0 <= j < stop - snd ik ->
       exists c, index (singletonColumns s') j = Some c /\ singleton_column s' c).
Proof.
  induction fuel as [| fuel IH]; intros i stop k s ik s' H Hk Hi Hkept;
    simpl in H.
  - run_in H; ok_inv H.
    apply Z.eqb_eq in Heqb; subst; simpl.
    repeat split; auto; lia.
  - run_in H; ok_inv H.
    + apply Z.eqb_eq in Heqb; subst; simpl.
      repeat split; auto; lia.
    + (* a singleton_column, and nothing dropped so far: the entry stays *)
      apply Z.eqb_eq in Heqb0, Heqb1. subst z0 k. range_facts.
      apply IH in H as (Hstop & Hrange & Hk' & Hdropped & Hrest);
        [| unfold size; lia | unfold size; lia |].
      * apply Z.eqb_neq in Heqb. repeat split; try tauto; lia.
      * intros j Hj. destruct (Z.eq_dec j i) as [-> | Hne].
        -- exists z. split; assumption.
        -- apply Hkept. lia.
    + (* a singleton_column: the entry moves down by [k] *)
      apply Z.eqb_eq in Heqb0. apply Z.eqb_neq in Heqb1. subst z0.
      range_facts.
      apply IH in H as (Hstop & Hrange & Hk' & Hdropped & Hsizes & Hfirst
                        & Hlength & Hkept');
        lens_simpl; unfold over_singletonColumns, size in *; simpl in *;
        rewrite ?length_insert in *; [| lia | lia |].
      * apply Z.eqb_neq in Heqb. repeat split; try tauto; lia.
      * intros j Hj. destruct (Z.eq_dec j (i - k)) as [-> | Hne].
        -- exists z. split; [apply index_insert_eq; lia | assumption].
        -- rewrite index_insert_ne by lia. apply Hkept. lia.
    + (* not a singleton_column anymore: one more entry is dropped *)
      apply Z.eqb_neq in Heqb0. range_facts.
      apply IH in H as (Hstop & Hrange & Hk' & Hdropped & Hrest);
        [| unfold size; lia | unfold size; lia |].
      * apply Z.eqb_neq in Heqb. repeat split; try tauto; lia.
      * intros j Hj. apply Hkept. lia.
Qed.

End Compaction.

(** *** After the compaction

    [removeEmptyColumns] writes the size of a column only where it was
    zero. *)

Definition settled : relation ProblemUpdate := fun s s' =>
  singletonColumns s' = singletonColumns s /\
  firstNewSingletonCol s' = firstNewSingletonCol s /\
  forall c, singleton_column s c -> singleton_column s' c.

#[export] Instance settled_preorder : PreOrder settled.
Proof.
  split.
  - intros s. repeat split; auto.
  - intros s1 s2 s3 (Hl1 & Hf1 & Hs1) (Hl2 & Hf2 & Hs2).
    repeat split; [congruence | congruence | auto].
Qed.

Lemma settled_drop_empty s s' col :
  index (view Ref.colsize s) col = Some 0 ->
  singletonColumns s' = singletonColumns s ->
  firstNewSingletonCol s' = firstNewSingletonCol s ->
  view Ref.colsize s' = <[Z.to_nat col := -1]> (view Ref.colsize s) ->
  settled s s'.
Proof.
  intros Hempty Hlist Hfirst Hsizes. repeat split; [assumption.. |].
  intros c Hc. unfold singleton_column in *. rewrite Hsizes.
  destruct (Z.eq_dec col c) as [-> | Hne]; [congruence |].
  rewrite index_insert_ne by in_range. exact Hc.
Qed.

Section Settled.
Context {env : Env}.

Lemma removeEmptyColumns_settled : respects settled removeEmptyColumns.
Proof.
  unfold removeEmptyColumns.
  rule respects_bind; [rule respects_read | intros empty].
  match goal with |- respects _ (if ?b then _ else _) => destruct b end;
    [| rule respects_ret].
  rule respects_bind;
    [| intros [[] | r]; frame ltac:(repeat split; auto)].
  rule respects_for_each. intros col [] s flow s' H.
  run_in H; ok_inv H.
  all: try reflexivity.
  all: apply Z.eqb_eq in Heqb; subst z.
  all: eapply settled_drop_empty; [eassumption | reflexivity..].
Qed.

End Settled.

(** *** The two loops of the compaction *)

Lemma resize_kept (P : Z -> Prop) n (l : list Z) :
  0 <= n <= size l ->
  (forall j, 0 <= j < n -> exists c, index l j = Some c /\ P c) ->
  Forall P (resize n l) /\ size (resize n l) = n.
Proof.
  unfold size, resize. intros Hn Hkept.
  replace (Z.to_nat n - length l)%nat with 0%nat by lia.
  simpl. rewrite app_nil_r. split.
  - apply Forall_lookup_2. intros j x Hx.
    apply lookup_take_Some in Hx as [Hx Hj].
    destruct (Hkept (Z.of_nat j)) as (c & Hc & HP); [lia |].
    unfold index in Hc. destruct (Z.ltb_spec (Z.of_nat j) 0); [lia |].
    rewrite Nat2Z.id in Hc. congruence.
  - rewrite length_take_le by lia. lia.
Qed.

Definition consistent (s : ProblemUpdate) : Prop :=
  Forall (singleton_column s) (singletonColumns s) /\
  0 <= firstNewSingletonCol s <= size (singletonColumns s).

Section Flush.
Context {env : Env}.

#[local] Hint Resolve removeSingletonRow_grows checkChangedActivities_grows
  removeFixedCols_grows : frame.

Lemma compaction_consistent s ik sa ik' sb :
  compress_singleton_columns (length (singletonColumns s)) 0
    (firstNewSingletonCol s) 0 s = Ok ik sa ->
  compress_singleton_columns
    (length (singletonColumns s) - Z.to_nat (fst ik)) (fst ik)
    (size (singletonColumns s)) (snd ik)
    (over Field.firstNewSingletonCol (fun f => f - snd ik) sa) = Ok ik' sb ->
  consistent
    (over Field.singletonColumns
       (resize (size (singletonColumns s) - snd ik')) sb).
Proof.
  intros Hold Hnew.
  apply compress_singleton_columns_spec in Hold
    as (Hstop & Hrange & Hk & Hdropped & Hsizes & Hfirst & Hlength & Hkept);
    [| lia | unfold size; lia | intros j Hj; lia].
  apply compress_singleton_columns_spec in Hnew
    as (Hstop' & Hrange' & Hk' & Hdropped' & Hsizes' & Hfirst' & Hlength'
        & Hkept');
    [| lia | simpl; unfold size in *; lia
     | intros j Hj; apply Hkept; lia].
  simpl in *.
  destruct (resize_kept (singleton_column sb) (size (singletonColumns s) - snd ik')
              (singletonColumns sb)) as [Hall Hsize].
  - unfold size in *. lia.
  - exact Hkept'.
  - split; simpl; [exact Hall |]. rewrite Hsize, Hfirst', Hfirst. lia.
Qed.

Lemma for_each_Return {A S T} (P : T -> Prop) (l : list A)
    (body : A -> S -> M (Flow S T)) :
  (forall x locals s r s', body x locals s = Ok (Return r) s' -> P r) ->
  forall locals s r s', for_each l body locals s = Ok (Return r) s' -> P r.
Proof.
  intros Hbody. induction l as [| x l IH]; intros locals s r s' H; simpl in H.
  - discriminate.
  - apply bind_Ok in H as ([locals' | r'] & s1 & Hx & H).
    + eapply IH; eassumption.
    + injection H as <- <-. eapply Hbody; eassumption.
Qed.

Lemma readonly_eq {A} (m : M A) s a s' :
  respects eq m -> m s = Ok a s' -> s' = s.
Proof. intros Hm H. symmetry. eapply Hm; eassumption. Qed.

(** Take the first call off a run that returned. *)
Ltac first_call H x s1 Hx := apply bind_Ok in H as (x & s1 & Hx & H).

Ltac first_read H :=
  let x := fresh "x" in let s1 := fresh "s" in let Hx := fresh "Hx" in
  apply bind_Ok in H as (x & s1 & Hx & H);
  unfold read, gets in Hx; injection Hx as <- <-.

Ltac first_assert H :=
  let x := fresh "x" in let s1 := fresh "s" in let Hx := fresh "Hx" in
  apply bind_Ok in H as (x & s1 & Hx & H);
  apply readonly_eq in Hx; [subst s1 | readonly].

Ltac first_modify H :=
  let x := fresh "x" in let s1 := fresh "s" in let Hx := fresh "Hx" in
  apply bind_Ok in H as (x & s1 & Hx & H);
  unfold modify in Hx; injection Hx as _ <-.

(** The frame of the first call, by the structure of what is called. *)
Ltac first_frame R H x s1 Hx :=
  apply bind_Ok in H as (x & s1 & Hx & H);
  let Hframe := fresh "Hframe" in
  match type of Hx with
  | ?m _ = _ => assert (respects R m) as Hframe by frame untouched
  end;
  pose proof (Hframe _ _ _ Hx); clear Hframe.

(** Claim C6.  Let [firstNewSingletonCol] lie between 0 and the size of
    [singletonColumns] when [flush] is called, and let the matrix only
    append to the worklist it is handed.  After a call of [flush] that
    returns and does not report infeasibility, every index stored in
    [singletonColumns] is a column of size 1, and [firstNewSingletonCol] lies
    between 0 and the size of [singletonColumns].  The asserts at the end of
    the compaction are not needed for this: the statement holds with and
    without [NDEBUG]. *)
Theorem flush_keeps_singleton_columns_consistent s status s' :
  extends_singletonColumns ext ->
  0 <= firstNewSingletonCol s <= size (singletonColumns s) ->
  flush s = Ok status s' ->
  status <> PresolveStatus.kInfeasible ->
  Forall (singleton_column s') (singletonColumns s') /\
  0 <= firstNewSingletonCol s' <= size (singletonColumns s').
Proof.
  intros Hext Hentry H Hstatus. unfold flush in H.
  first_call H u s1 Hcoeffs.
  apply (flushChangedCoeffs_grows Hext) in Hcoeffs.
  first_read H.
  first_frame grows H flow s2 Hrows.
  destruct flow as [[] | r].
  2: { (* a singleton_column row was infeasible *)
    injection H as <- <-. exfalso. apply Hstatus.
    destruct (singletonRows s1); [discriminate |]. simpl negb in Hrows.
    cbv iota in Hrows.
    apply bind_Ok in Hrows as ([[] | r'] & s1' & Hloop & Hrows).
    - apply bind_Ok in Hrows as (? & ? & _ & Hrows). discriminate.
    - injection Hrows as <- <-.
      revert Hloop.
      apply (for_each_Return (fun r => r = PresolveStatus.kInfeasible)).
      intros row [] s0 r0 s0' Hbody.
      apply bind_Ok in Hbody as (status0 & ? & _ & Hbody).
      destruct (PresolveStatus.eqb status0 PresolveStatus.kInfeasible);
        [injection Hbody as <- _; reflexivity | discriminate]. }
  first_frame grows H status0 s3 Hactivities.
  destruct (PresolveStatus.eqb status0 PresolveStatus.kInfeasible).
  { injection H as <- _. contradiction. }
  first_read H.
  first_frame grows H kept s4 Hkept.
  first_frame grows H u1 s5 Hwrite.
  first_frame grows H u2 s6 Hfixed.
  do 4 first_read H.
  apply bind_Ok in H as (wl & ? & Hwl & H).
  unfold gets in Hwl; injection Hwl as <- <-.
  first_call H u3 s7 Hdelete.
  assert (grows s6 s7) as Hmatrix.
  { clear - Hext Hdelete. destruct Hext as [_ Hdeleted].
    match type of Hdelete with
    | context [deleteRowsAndCols ?e ?cm ?r ?d ?a ?w] =>
        specialize (Hdeleted cm r d a w);
        destruct (deleteRowsAndCols e cm r d a w) as [[[[cm' r'] d'] a'] wl']
    end.
    unfold set_worklists, write in Hdelete.
    do 6 first_modify Hdelete.
    unfold modify in Hdelete. injection Hdelete as _ <-.
    split; [reflexivity | exact Hdeleted]. }
  assert (grows s s7) as [Hfirst Hsize]
    by (repeat (etransitivity; [eassumption |]); reflexivity).
  clear - Hentry Hfirst Hsize H.
  first_read H.
  first_call H u4 s8 Hcompact.
  first_call H status1 s9 Hempty.
  apply removeEmptyColumns_settled in Hempty as (Hlist & Hfirst' & Hsingle).
  assert (s' = s9) as ->
    by (destruct (PresolveStatus.eqb _ _); injection H as _ <-; reflexivity).
  cut (consistent s8).
  { intros [Hall Hrange]. rewrite Hlist, Hfirst'. split; [| exact Hrange].
    eapply Forall_impl; [exact Hall | exact Hsingle]. }
  clear - Hentry Hfirst Hsize Hcompact.
  destruct (negb _) eqn:Hnonempty; simpl in Hcompact.
  - (* the two loops *)
    first_read Hcompact. first_assert Hcompact.
    first_call Hcompact ik sa Hold.
    first_modify Hcompact. first_assert Hcompact.
    first_call Hcompact ik' sb Hnew.
    first_modify Hcompact. first_assert Hcompact.
    apply readonly_eq in Hcompact; [subst s8 | readonly].
    exact (compaction_consistent _ _ _ _ _ Hold Hnew).
  - (* nothing to compact *)
    injection Hcompact as _ <-.
    destruct (singletonColumns s7) eqn:Hcols; [| discriminate].
    unfold consistent, size in *. rewrite Hcols, Hfirst. simpl in *.
    split; [constructor | lia].
Qed.

End Flush.

(** Three columns recorded as singletons, of sizes 1, 2 and 1, the first two
    of them seen before: the second one is dropped, the third one moves
    down, and one column remains that was seen before. *)
Definition three_singletons : ProblemUpdate :=
  over Field.singletonColumns (fun _ => [0; 1; 2])
    (over Field.firstNewSingletonCol (fun _ => 2)
       (over Ref.colsize (fun _ => [1; 2; 1]) (Examples.blank 3 0))).

Lemma flush_keeps_singleton_columns_consistent_witness :
  exists s',
    flush (env := Examples.debug) three_singletons =
      Ok PresolveStatus.kReduced s' /\
    singletonColumns s' = [0; 2] /\
    firstNewSingletonCol s' = 1 /\
    Forall (singleton_column s') (singletonColumns s') /\
    0 <= firstNewSingletonCol s' <= size (singletonColumns s').
Proof.
  eexists. split; [vm_compute; reflexivity |].
  split; [reflexivity |]. split; [reflexivity |].
  apply (flush_keeps_singleton_columns_consistent (env := Examples.debug)
           three_singletons PresolveStatus.kReduced).
  - split; intros; apply le_n.
  - vm_compute. split; discriminate.
  - vm_compute. reflexivity.
  - discriminate.
Defined.


(** * The remaining member functions

    The functions of this part use members of the class that the record
    [ProblemUpdate] leaves out: the random permutations and the deletion
    counts at the last compression.  They are gathered in [Bookkeeping] and
    passed along explicitly; the locks of the columns, which the problem
    holds, are passed as a vector. *)

(** Modelled from the spec: [Locks] is declared in another file;
    [locks[c] = { down, up }] counts the rows that make it unsafe to relax
    [c] downward and upward. *)
Record Locks := mkLocks { up : Z; down : Z }.

Record Bookkeeping := mkBookkeeping {
  random_col_perm : list Z;
  random_row_perm : list Z;
  lastcompress_ndelcols : Z;
  lastcompress_ndelrows : Z
}.

(** Functions of [Problem], [Postsolve] and of [compress_vector.hpp] that
    [compress] calls, taken as parameters: [problem.compress( full )]
    returns the mappings of the rows and of the columns,
    [compress_index_vector( mapping, vec )] renumbers an index vector, and
    [postsolve.compress( rowmapping, colmapping, full )] renumbers the
    trail. *)
Record Compressor := mkCompressor {
  problem_compress : bool -> Problem -> Problem * (list Z * list Z);
  compress_index_vector : list Z -> list Z -> list Z;
  postsolve_compress : list Z -> list Z -> bool -> Postsolve -> Postsolve
}.

(** [presolveOptions.compressfac] is a [double] and the tests
    [nactive < n * compressfac] of [clearStates] are evaluated in double
    precision: whether the factor is nonzero and the outcome of the test
    are taken as parameters. *)
Record CompressOptions := mkCompressOptions {
  compressfac_nonzero : bool;
  below_compressfac : Z -> Z -> bool
}.

(** [v[i]] on a vector that is no part of the state. *)
Definition vec_read {A} (v : list A) (i : Z) : M A :=
  match index v i with
  | Some x => ret x
  | None => fault OutOfBounds
  end.

Section Model2.
Context {env : Env} (compressor : Compressor) (compressOptions : CompressOptions).

Definition getNActiveRows (b : Bookkeeping) : M Z :=
  nrows ← getNRows;
  ndeletedrows ← read Ref.ndeletedrows;
  ret (nrows - ndeletedrows + lastcompress_ndelrows b).

Definition getNActiveCols (b : Bookkeeping) : M Z :=
  ncols ← getNCols;
  ndeletedcols ← read Ref.ndeletedcols;
  ret (ncols - ndeletedcols + lastcompress_ndelcols b).

Definition isColBetterForSubstitution (b : Bookkeeping) (col1 col2 : Z)
    : M bool :=
  col1size ← vec_at Ref.colsize col1;
  col2size ← vec_at Ref.colsize col2;
  (* first criterion is sparsity *)
  if col1size <? col2size then ret true
  else if col2size <? col1size then ret false
  else
    (* second criterion is whether the objective is zero *)
    c1 ← vec_at Ref.obj_coefficients col1;
    c2 ← vec_at Ref.obj_coefficients col2;
    let obj1zero := Qeq_bool c1 0 in
    let obj2zero := Qeq_bool c2 0 in
    if obj1zero && negb obj2zero then ret true
    else if negb obj1zero && obj2zero then ret false
    else
      (* tie breaker is the random column permutation *)
      p1 ← vec_read (random_col_perm b) col1;
      p2 ← vec_read (random_col_perm b) col2;
      ret (p1 <? p2).

(** The tasks of [tbb::parallel_invoke] work on different members; they
    are run one after the other.  [shrink_to_fit] changes no content, and
    the observers are no part of the state. *)
Definition compress (full : bool) (b : Bookkeeping) : M Bookkeeping :=
  ncols ← getNCols;
  nactivecols ← getNActiveCols b;
  nrows ← getNRows;
  nactiverows ← getNActiveRows b;
  if (ncols =? nactivecols) && (nrows =? nactiverows) && negb full then ret b
  else
    p ← read Field.problem;
    let '(p', (rowmapping, colmapping)) := problem_compress compressor full p in
    write Field.problem p';;
    assert (l ← read Field.redundant_rows;
            ret (match l with [] => true | _ => false end));;
    assert (l ← read Field.deleted_cols;
            ret (match l with [] => true | _ => false end));;
    assert (l ← read Field.dirty_col_states;
            ret (match l with [] => true | _ => false end));;
    assert (l ← read Field.dirty_row_states;
            ret (match l with [] => true | _ => false end));;
    assert (l ← read Field.matrix_buffer;
            ret (match l with [] => true | _ => false end));;
    nrows ← getNRows;
    modify Field.row_state (resize nrows);;
    ncols ← getNCols;
    modify Field.col_state (resize ncols);;
    let row_perm := compress_index_vector compressor rowmapping
                      (random_row_perm b) in
    let col_perm := compress_index_vector compressor colmapping
                      (random_col_perm b) in
    modify Field.postsolve
      (postsolve_compress compressor rowmapping colmapping full);;
    (* update row index sets *)
    modify Field.changed_activities
      (compress_index_vector compressor rowmapping);;
    modify Field.singletonRows (compress_index_vector compressor rowmapping);;
    (* update column index sets *)
    cols ← read Field.singletonColumns;
    first ← read Field.firstNewSingletonCol;
    let numNewSingletonCols := size cols - first in
    modify Field.singletonColumns
      (compress_index_vector compressor colmapping);;
    cols ← read Field.singletonColumns;
    write Field.firstNewSingletonCol
      (Z.max 0 (size cols - numNewSingletonCols));;
    modify Field.emptyColumns (compress_index_vector compressor colmapping);;
    ndeletedrows ← read Ref.ndeletedrows;
    ndeletedcols ← read Ref.ndeletedcols;
    ret (mkBookkeeping col_perm row_perm ndeletedcols ndeletedrows).

Definition clearStates (b : Bookkeeping) : M Bookkeeping :=
  (* clear states of rows *)
  rows ← read Field.dirty_row_states;
  for_each_ rows
    (fun row => vec_set Field.row_state row State.kUnmodified);;
  write Field.dirty_row_states [];;
  assert (states ← read Field.row_state;
          all_of states
            (fun st => ret (Flags.equal st State.kUnmodified)));;
  (* clear states of columns *)
  cols ← read Field.dirty_col_states;
  for_each_ cols
    (fun col => vec_set Field.col_state col State.kUnmodified);;
  write Field.dirty_col_states [];;
  assert (states ← read Field.col_state;
          all_of states
            (fun st => ret (Flags.equal st State.kUnmodified)));;
  if compressfac_nonzero compressOptions then
    ncols ← getNCols;
    due ← orM (andM (ret (100 <? ncols))
                    (nactivecols ← getNActiveCols b;
                     ret (below_compressfac compressOptions nactivecols
                            ncols)))
              (nrows ← getNRows;
               andM (ret (100 <? nrows))
                    (nactiverows ← getNActiveRows b;
                     ret (below_compressfac compressOptions nactiverows
                            nrows)));
    if due then compress false b else ret b
  else ret b.

(** for integral columns round the bounds to integral values; [status] is
    the variable the caller passes by reference *)
Definition roundIntegralColumns (col : Z) (status : PresolveStatus.t)
    : M PresolveStatus.t :=
  integral ← test_at Ref.cflags col ColFlag.kIntegral;
  if integral then
    lbinf ← test_at Ref.cflags col ColFlag.kLbInf;
    status ←
      (if negb lbinf then
         lb ← vec_at Ref.lbs col;
         let ceillb := inject_Z (Qceiling lb) in
         if Qne_bool ceillb lb then
           incr Ref.nboundchgs;;
           vec_set Ref.lbs col ceillb;;
           ret PresolveStatus.kReduced
         else ret status
       else ret status);
    ubinf ← test_at Ref.cflags col ColFlag.kUbInf;
    if negb ubinf then
      ub ← vec_at Ref.ubs col;
      let floorub := inject_Z (Qfloor ub) in
      if Qne_bool floorub ub then
        incr Ref.nboundchgs;;
        vec_set Ref.ubs col floorub;;
        ret PresolveStatus.kReduced
      else ret status
    else ret status
  else ret status.

(** [default: assert( false )] falls through to [case 0]. *)
Definition is_dualfix_enabled (col : Z) : M bool :=
  let dualreds := dualreds presolveOptions in
  if dualreds =? 1 then
    c ← vec_at Ref.obj_coefficients col; ret (Qne_bool c 0)
  else if dualreds =? 2 then ret true
  else
    when (negb (dualreds =? 0)) (assert (ret false));;
    ret false.

Definition apply_dualfix (locks : list Locks) (col : Z)
    : M PresolveStatus.t :=
  enabled ← is_dualfix_enabled col;
  if enabled then
    fix_down ← andM (l ← vec_read locks col; ret (down l =? 0))
                    (c ← vec_at Ref.obj_coefficients col;
                     ret (Qle_bool 0 c));
    flow ←
      (if fix_down then
         lbinf ← test_at Ref.cflags col ColFlag.kLbInf;
         if lbinf then
           c ← vec_at Ref.obj_coefficients col;
           if Qne_bool c 0
           then ret (Return PresolveStatus.kUnbndOrInfeas)
           else ret (Next tt)
         else
           lb ← vec_at Ref.lbs col;
           vec_set Ref.ubs col lb;;
           vec_modify Ref.cflags col
             (fun f => Flags.unset f ColFlag.kUbInf);;
           incr Ref.nboundchgs;;
           markColFixed col;;
           ret (Return PresolveStatus.kReduced)
       else ret (Next tt));
    match flow with
    | Return r => ret r
    | Next _ =>
        fix_up ← andM (l ← vec_read locks col; ret (up l =? 0))
                      (c ← vec_at Ref.obj_coefficients col;
                       ret (Qle_bool c 0));
        if fix_up then
          ubinf ← test_at Ref.cflags col ColFlag.kUbInf;
          if ubinf then
            c ← vec_at Ref.obj_coefficients col;
            if Qne_bool c 0
            then ret PresolveStatus.kUnbndOrInfeas
            else ret PresolveStatus.kUnchanged
          else
            ub ← vec_at Ref.ubs col;
            vec_set Ref.lbs col ub;;
            vec_modify Ref.cflags col
              (fun f => Flags.unset f ColFlag.kLbInf);;
            incr Ref.nboundchgs;;
            markColFixed col;;
            ret PresolveStatus.kReduced
        else ret PresolveStatus.kUnchanged
    end
  else ret PresolveStatus.kUnchanged.

(** The body of the loop over the columns in [trivialColumnPresolve].  The
    first part ends in [return] ([Return]), in [continue] with a status
    ([Next (Some _)]), or goes on ([Next None]). *)
Definition trivialColumnPresolve_col (locks : list Locks) (col : Z)
    (status : PresolveStatus.t)
    : M (Flow PresolveStatus.t PresolveStatus.t) :=
  inactive ← test_at Ref.cflags col ColFlag.kInactive;
  if inactive then ret (Next status)
  else
    (* for integral columns round the bounds to integral values *)
    status ← roundIntegralColumns col status;
    mark_huge_values col;;
    unbounded ← test_at Ref.cflags col ColFlag.kUnbounded;
    flow ←
      (if negb unbounded then
         lb ← vec_at Ref.lbs col;
         ub ← vec_at Ref.ubs col;
         if Qlt_bool ub lb then ret (Return PresolveStatus.kInfeasible)
         else if Qeq_bool lb ub then
           (* remember fixed columns *)
           markColFixed col;;
           ret (Next (Some PresolveStatus.kReduced))
         else ret (Next None)
       else ret (Next None));
    match flow with
    | Return r => ret (Return r)
    | Next (Some status) => ret (Next status)
    | Next None =>
        status ← apply_dualfix locks col;
        if PresolveStatus.eqb status PresolveStatus.kUnbndOrInfeas
        then ret (Return status)
        else if PresolveStatus.eqb status PresolveStatus.kReduced
        then ret (Next status)
        else
          colsize ← vec_at Ref.colsize col;
          (if colsize =? 0 then push_back Field.emptyColumns col
           else if colsize =? 1 then push_back Field.singletonColumns col
           else ret tt);;
          ret (Next status)
    end.

(** scans through all columns and does some trivial presolve reductions *)
Definition trivialColumnPresolve (locks : list Locks)
    : M PresolveStatus.t :=
  n ← getNCols;
  flow ← for_each (seqZ 0 n) (trivialColumnPresolve_col locks)
           PresolveStatus.kUnchanged;
  match flow with
  | Return r => ret r
  | Next status => ret status
  end.

End Model2.

(** * Further properties of the member functions *)

(** ** Frames through calls

    The frame rules follow one member function; the tactic [follow] also
    enters the member functions it calls. *)

Section RespectsCalls.
Context (R : relation ProblemUpdate) `{!PreOrder R}.

Lemma respects_vec_modify_at {A} (l : Lens ProblemUpdate (list A)) i f :
  (forall x s, index (view l s) i = Some x ->
     R s (over l (fun v => <[Z.to_nat i := f x]> v) s)) ->
  respects R (vec_modify l i f).
Proof.
  intros Hl s a s' H. unfold vec_modify in H.
  destruct (index (view l s) i) eqn:Hx; [| discriminate].
  injection H as _ <-. apply Hl. exact Hx.
Qed.

Lemma respects_update_activities_after_boundchange colvec type oldbound
    newbound oldbound_inf activityChange :
  (forall g s, R s (over Ref.activities g s)) ->
  (forall c r a, respects R (activityChange c r a)) ->
  respects R (update_activities_after_boundchange colvec type oldbound
                newbound oldbound_inf activityChange).
Proof.
  intros Hwrite Hcallback.
  induction colvec as [| [r v] colvec IH]; simpl;
    frame ltac:(apply Hwrite).
Qed.

Lemma respects_compress_singleton_columns {env : Env} fuel :
  (forall g s, R s (over Field.singletonColumns g s)) ->
  forall i stop k, respects R (compress_singleton_columns fuel i stop k).
Proof.
  intros Hwrite.
  induction fuel as [| fuel IH]; intros i stop k; simpl;
    frame ltac:(apply Hwrite).
Qed.

End RespectsCalls.

Ltac enter_member m :=
  lazymatch m with
  | update_activity _ _ _ => unfold update_activity
  | isRowRedundant _ => unfold isRowRedundant
  | getNCols => unfold getNCols
  | getNRows => unfold getNRows
  | getColumnCoefficients _ => unfold getColumnCoefficients
  | getRowCoefficients _ => unfold getRowCoefficients
  | setColState _ _ => unfold setColState
  | setRowState _ _ => unfold setRowState
  | markRowRedundant _ => unfold markRowRedundant
  | markColFixed _ => unfold markColFixed
  | fixCol _ _ => unfold fixCol
  | fixColInfinity _ _ => unfold fixColInfinity
  | changeLB _ _ => unfold changeLB
  | changeUB _ _ => unfold changeUB
  | checkChangedActivities => unfold checkChangedActivities
  | coeffChanged _ => unfold coeffChanged
  | flushChangedCoeffs => unfold flushChangedCoeffs
  | removeSingletonRow _ => unfold removeSingletonRow
  | removeFixedCols => unfold removeFixedCols
  | removeEmptyColumns => unfold removeEmptyColumns
  | clearChangeInfo => unfold clearChangeInfo
  | addEntry _ _ _ => unfold addEntry
  | cleanupSmallCoefficients _ => unfold cleanupSmallCoefficients
  | trivialRowPresolve_row _ _ => unfold trivialRowPresolve_row
  | trivialRowPresolve => unfold trivialRowPresolve
  | checkTransactionConflicts _ => unfold checkTransactionConflicts
  | set_worklists _ => unfold set_worklists
  | set_matrixFrame _ => unfold set_matrixFrame
  | sparsityCondition _ _ => unfold sparsityCondition
  | aggregateCol _ _ _ => unfold aggregateCol
  | decrNumCols _ => unfold decrNumCols
  | infeasible_or_break _ => unfold infeasible_or_break
  | case_IMPL_INT _ => unfold case_IMPL_INT
  | case_SUBSTITUTE _ => unfold case_SUBSTITUTE
  | case_SUBSTITUTE_OBJ _ => unfold case_SUBSTITUTE_OBJ
  | case_PARALLEL _ => unfold case_PARALLEL
  | case_REPLACE _ _ => unfold case_REPLACE
  | case_SIDE _ _ => unfold case_SIDE
  | case_SIDE_INF _ _ => unfold case_SIDE_INF
  | make_view _ _ _ => unfold make_view
  | no_callback _ _ _ => unfold no_callback
  | mark_huge_values _ => unfold mark_huge_values
  | vec_read _ _ => unfold vec_read
  | getNActiveRows _ => unfold getNActiveRows
  | getNActiveCols _ => unfold getNActiveCols
  | roundIntegralColumns _ _ => unfold roundIntegralColumns
  | is_dualfix_enabled _ => unfold is_dualfix_enabled
  | apply_dualfix _ _ => unfold apply_dualfix
  | trivialColumnPresolve_col _ _ _ => unfold trivialColumnPresolve_col
  | trivialColumnPresolve _ => unfold trivialColumnPresolve
  end.

Ltac follow_step side :=
  lazymatch goal with
  | |- respects _ (update_activities_after_boundchange _ _ _ _ _ _) =>
      rule respects_update_activities_after_boundchange;
      [intros ? ?; side | intros ? ? ?]
  | |- respects _ (compress_singleton_columns _ _ _ _) =>
      rule respects_compress_singleton_columns; intros ? ?; side
  | |- respects _ (vec_modify _ _ _) =>
      rule respects_vec_modify_at; intros ? ? ?; side
  | |- respects _ ((match ?x with _ => _ end) _) => destruct x
  | |- respects _ ?m => first [enter_member m | frame_step side]
  end.

Ltac follow side := repeat follow_step side.

(** ** What [flush] reports and leaves behind *)

Definition same_matrix_buffer : relation ProblemUpdate := fun s s' =>
  matrix_buffer s' = matrix_buffer s.

#[export] Instance same_matrix_buffer_preorder : PreOrder same_matrix_buffer.
Proof.
  split; [intros s; reflexivity |].
  intros s1 s2 s3 H1 H2. unfold same_matrix_buffer in *. congruence.
Qed.

Section FlushOutcome.
Context {env : Env}.

Lemma flushChangedCoeffs_empties s u s' :
  flushChangedCoeffs s = Ok u s' -> matrix_buffer s' = [].
Proof.
  unfold flushChangedCoeffs. intros H.
  apply bind_Ok in H as (buffer & s0 & Hread & H).
  unfold read, gets in Hread. injection Hread as <- <-.
  destruct (matrix_buffer s) eqn:Hbuffer; unfold when in H;
    cbn [negb] in H.
  - unfold ret in H. injection H as _ <-. exact Hbuffer.
  - repeat (apply bind_Ok in H as (? & ? & _ & H)).
    destruct (changeCoefficients _ _ _ _ _) as [[[cm' wl'] acts'] changes].
    repeat (apply bind_Ok in H as (? & ? & _ & H)).
    unfold write, modify in H. injection H as _ <-. reflexivity.
Qed.

Lemma removeSingletonRows_Return rows s r s' :
  for_each rows
    (fun row (_ : unit) =>
       status ← removeSingletonRow row;
       if PresolveStatus.eqb status PresolveStatus.kInfeasible
       then ret (Return PresolveStatus.kInfeasible)
       else ret (Next tt)) tt s = Ok (Return r) s' ->
  r = PresolveStatus.kInfeasible.
Proof.
  apply (for_each_Return (fun r => r = PresolveStatus.kInfeasible)).
  intros row [] s0 r0 s0' Hbody.
  apply bind_Ok in Hbody as (status0 & ? & _ & Hbody).
  destruct (PresolveStatus.eqb status0 PresolveStatus.kInfeasible);
    [injection Hbody as <- _; reflexivity | discriminate].
Qed.

Lemma removeEmptyColumns_unbounded_needs_dualreds s s' :
  removeEmptyColumns s = Ok PresolveStatus.kUnbndOrInfeas s' ->
  dualreds presolveOptions <> 0.
Proof.
  unfold removeEmptyColumns. intros H Hdual.
  apply bind_Ok in H as (empty & ? & _ & H).
  rewrite Hdual in H. discriminate.
Qed.

(** The statuses of [flush]: it reports infeasibility found by a singleton
    row or a changed activity, an unbounded or infeasible empty column (only
    with dual reductions enabled), and otherwise [kReduced], also when
    nothing was pending; it never reports [kUnchanged]. *)
Theorem flush_status s status s' :
  flush s = Ok status s' ->
  status = PresolveStatus.kInfeasible \/
  status = PresolveStatus.kReduced \/
  (status = PresolveStatus.kUnbndOrInfeas /\ dualreds presolveOptions <> 0).
Proof.
  intros H. unfold flush in H.
  do 2 (apply bind_Ok in H as (? & ? & _ & H)).
  apply bind_Ok in H as (flow & s2 & Hrows & H).
  destruct flow as [[] | r].
  2: { left. injection H as <- _.
       destruct (negb _); [| discriminate].
       apply bind_Ok in Hrows as ([[] | r'] & s1' & Hloop & Hrows).
       - apply bind_Ok in Hrows as (? & ? & _ & Hrows). discriminate.
       - injection Hrows as <- _.
         exact (removeSingletonRows_Return _ _ _ _ Hloop). }
  apply bind_Ok in H as (status0 & s3 & _ & H).
  destruct (PresolveStatus.eqb status0 PresolveStatus.kInfeasible).
  { left. injection H as <- _. reflexivity. }
  do 12 (apply bind_Ok in H as (? & ? & _ & H)).
  apply bind_Ok in H as (status1 & s9 & Hempty & H).
  destruct (PresolveStatus.eqb status1 PresolveStatus.kUnbndOrInfeas)
    eqn:Hunbounded; unfold ret in H; injection H as <- _; [| auto].
  right. right. split; [reflexivity |].
  destruct status1; try discriminate.
  exact (removeEmptyColumns_unbounded_needs_dualreds _ _ Hempty).
Qed.

(** [flush] leaves no coefficient change pending: the matrix buffer is
    empty after every call that returns, whatever it reports. *)
Theorem flush_empties_matrix_buffer s status s' :
  flush s = Ok status s' -> matrix_buffer s' = [].
Proof.
  intros H. unfold flush in H.
  apply bind_Ok in H as (u & s1 & Hcoeffs & H).
  apply flushChangedCoeffs_empties in Hcoeffs.
  match type of H with
  | ?m _ = _ =>
      assert (respects same_matrix_buffer m) as Hframe
        by follow ltac:(reflexivity)
  end.
  apply Hframe in H. unfold same_matrix_buffer in H. congruence.
Qed.

End FlushOutcome.

(** ** Comparisons and inversion of runs *)

Lemma Qlt_bool_lt a b : Qlt_bool a b = true <-> (a < b)%Q.
Proof.
  unfold Qlt_bool. rewrite negb_true_iff, <- not_true_iff_false, Qle_bool_iff.
  split; [apply Qnot_le_lt | apply Qlt_not_le].
Qed.

Lemma Qlt_bool_ge a b : Qlt_bool a b = false <-> (b <= a)%Q.
Proof. unfold Qlt_bool. rewrite negb_false_iff. apply Qle_bool_iff. Qed.

(** Turn the outcomes of the comparisons into facts on the rationals. *)
Ltac compare_facts :=
  repeat match goal with
  | Hc : Qlt_bool _ _ = true |- _ => apply Qlt_bool_lt in Hc
  | Hc : Qlt_bool _ _ = false |- _ => apply Qlt_bool_ge in Hc
  | Hc : Qle_bool _ _ = true |- _ => apply Qle_bool_iff in Hc
  | Hc : Qeq_bool _ _ = true |- _ => apply Qeq_bool_eq in Hc
  | Hc : Qeq_bool _ _ = false |- _ => apply Qeq_bool_neq in Hc
  | Hc : Qne_bool _ _ = false |- _ =>
      unfold Qne_bool in Hc; apply negb_false_iff, Qeq_bool_eq in Hc
  | Hc : Qne_bool _ _ = true |- _ =>
      unfold Qne_bool in Hc; apply negb_true_iff, Qeq_bool_neq in Hc
  end.

Lemma test_unset_covered f m m' :
  Z.land m' m = m' -> Flags.test (Flags.unset f m) m' = false.
Proof.
  intros Hcovered. unfold Flags.test, Flags.unset.
  replace (Z.land (Z.ldiff f m) m') with 0; [reflexivity |].
  symmetry. apply Z.bits_inj'; intros n _.
  rewrite Z.land_spec, Z.ldiff_spec, Z.bits_0.
  assert (Z.testbit m' n = Z.testbit m' n && Z.testbit m n) as Hbit
    by (rewrite <- Z.land_spec, Hcovered; reflexivity).
  destruct (Z.testbit f n), (Z.testbit m n), (Z.testbit m' n);
    simpl in *; congruence.
Qed.

Lemma test_at_Ok l i mask s b s' :
  test_at l i mask s = Ok b s' ->
  s' = s /\ exists f, index (view l s) i = Some f /\ b = Flags.test f mask.
Proof.
  unfold test_at, bind, vec_at, ret. intros H.
  destruct (index (view l s) i) as [f |]; [| discriminate].
  injection H as <- <-. eauto.
Qed.

(** Take a call that only reads off a run that returned. *)
Ltac skip_read H :=
  let x := fresh "x" in let s1 := fresh "s" in let Hx := fresh "Hx" in
  apply bind_Ok in H as (x & s1 & Hx & H);
  apply readonly_eq in Hx; [subst s1 | solve [follow ltac:(fail)]].

(** Take a read and a write off a run that returned. *)
Ltac peel_read H :=
  let x := fresh "x" in let s1 := fresh "s" in let Hx := fresh "Hx" in
  apply bind_Ok in H as (x & s1 & Hx & H);
  unfold getNActiveCols, getNActiveRows, getNCols, getNRows, read, gets,
    bind, ret in Hx;
  injection Hx as <- <-.

Ltac peel_write H :=
  let x := fresh "x" in let s1 := fresh "s" in let Hx := fresh "Hx" in
  apply bind_Ok in H as (x & s1 & Hx & H);
  unfold write, modify in Hx; injection Hx as _ <-.


(** Take a call off a run that returned, keeping that it respects [R]. *)
Ltac frame_call R side H :=
  let x := fresh "x" in let s1 := fresh "s" in let Hx := fresh "Hx" in
  apply bind_Ok in H as (x & s1 & Hx & H);
  match type of Hx with
  | ?m _ = _ =>
      let Hm := fresh in
      assert (respects R m) as Hm by (follow side);
      apply Hm in Hx; clear Hm
  end.

(** The value a run returns is the value of its last call. *)
Ltac last_call H :=
  repeat first
    [ apply bind_Ok in H as (? & ? & _ & H)
    | match type of H with
      | (match ?x with _ => _ end) _ = Ok _ _ =>
          destruct x; try discriminate H
      | (let _ := _ in _) _ = Ok _ _ => cbv zeta in H
      end ].

Ltac flow_of H :=
  unfold ret in H; injection H as <- _;
  repeat match goal with
  | |- context [if ?b then _ else _] => destruct b
  end;
  auto.



(** ** Conflicts and postponed transactions *)

(** A loop that returns does so in one of its iterations. *)
Lemma for_each_Return_at (R : relation ProblemUpdate) `{!PreOrder R}
    {A S T} (l : list A) (body : A -> S -> M (Flow S T)) :
  (forall x locals, respects R (body x locals)) ->
  forall locals s r s',
    for_each l body locals s = Ok (Return r) s' ->
    exists x locals1 s1,
      In x l /\ R s s1 /\ body x locals1 s1 = Ok (Return r) s'.
Proof.
  intros Hbody. induction l as [| x l IH]; intros locals s r s' H; simpl in H.
  - discriminate.
  - apply bind_Ok in H as ([locals' | r'] & s1 & Hx & H).
    + apply IH in H as (y & locals1 & s2 & Hin & HR & Hy).
      exists y, locals1, s2. split; [right; exact Hin |].
      split; [| exact Hy].
      transitivity s1; [eapply Hbody; exact Hx | exact HR].
    + injection H as <- <-.
      exists x, locals, s. split; [left; reflexivity |].
      split; [reflexivity | exact Hx].
Qed.

Lemma index_Forall {A} (P : A -> Prop) (l : list A) i x :
  Forall P l -> index l i = Some x -> P x.
Proof.
  unfold index. intros Hall. destruct (i <? 0); [discriminate |].
  intros Hx. eapply Forall_lookup_1; eassumption.
Qed.

(** No row and no column has been touched in this round. *)
Definition unmodified (s : ProblemUpdate) : Prop :=
  Forall (fun st => st = State.kUnmodified) (row_state s) /\
  Forall (fun st => st = State.kUnmodified) (col_state s).

(** The operations that are put off while substitutions are postponed. *)
Definition postponable (reduction : Reduction.t) : Prop :=
  (Reduction.row reduction < 0 /\
   (Reduction.row reduction = ColReduction.SUBSTITUTE \/
    Reduction.row reduction = ColReduction.REPLACE)) \/
  (0 <= Reduction.row reduction /\
   Reduction.col reduction = RowReduction.SPARSIFY).

Section Conflicts.
Context {env : Env}.

Lemma checkTransactionConflicts_body_readonly :
  forall tx, respects eq (checkTransactionConflicts tx).
Proof. intros tx. follow ltac:(fail). Qed.

(** In a round in which nothing has been touched yet, no transaction
    conflicts. *)
Theorem no_conflict_while_unmodified tx s result s' :
  unmodified s ->
  checkTransactionConflicts tx s = Ok result s' ->
  result <> ConflictType.kConflict.
Proof.
  intros [Hrows Hcols] H Hconflict. subst result.
  unfold checkTransactionConflicts in H.
  apply bind_Ok in H as ([[] | r] & s1 & Hloop & H); [discriminate |].
  injection H as -> _.
  apply (for_each_Return_at eq) in Hloop
    as (reduction & [] & s0 & _ & <- & Hbody);
    [| intros ? ?; follow ltac:(fail)].
  run_in Hbody; ok_inv Hbody.
  all: repeat match goal with
       | Hz : index (col_state _) _ = Some ?z |- _ =>
           apply (index_Forall _ _ _ _ Hcols) in Hz; subst z
       | Hz : index (row_state _) _ = Some ?z |- _ =>
           apply (index_Forall _ _ _ _ Hrows) in Hz; subst z
       end.
  all: try match goal with
       | Htest : Flags.test _ _ = true |- _ =>
           vm_compute in Htest; discriminate Htest
       end.
  all: try match goal with
       | Hflow : _ = Return ConflictType.kConflict |- _ =>
           vm_compute in Hflow; discriminate Hflow
       end.
  all: destruct (postponeSubstitutions _); discriminate Hbody.
Qed.

Lemma case_SUBSTITUTE_flow reduction s flow s' :
  case_SUBSTITUTE reduction s = Ok flow s' ->
  flow = Next tt \/ flow = Return ApplyResult.kInfeasible \/
  flow = Return ApplyResult.kRejected.
Proof.
  unfold case_SUBSTITUTE. intros H. last_call H; flow_of H.
Qed.

Lemma case_PARALLEL_flow reduction s flow s' :
  case_PARALLEL reduction s = Ok flow s' ->
  flow = Next tt \/ flow = Return ApplyResult.kRejected.
Proof.
  unfold case_PARALLEL. intros H. last_call H; flow_of H.
Qed.

Lemma case_SPARSIFY_result continue eqrow n eqrowvec rest :
  forall i ncancel ncanceledrows s result s',
  case_SPARSIFY continue eqrow n eqrowvec rest i ncancel ncanceledrows s =
    Ok result s' ->
  exists rest' s1, rest' `suffix_of` rest /\
    continue rest' s1 = Ok result s'.
Proof.
  induction rest as [| candidate rest IH]; intros i nc ncr s result s' H;
    simpl in H.
  - last_call H. all: eexists _, _; split; [reflexivity | eassumption].
  - last_call H.
    all: try (eexists _, _; split; [reflexivity | eassumption]).
    all: apply IH in H; destruct H as (rest' & sk & Hs & Hk);
      eexists _, _; split; [apply suffix_cons_r; eassumption | eassumption].
Qed.

(** An iteration does not postpone: [Postponed] can only come from the
    iterations that follow. *)
Lemma applyReduction_postponed reduction rest continue s s' :
  applyReduction reduction rest continue s = Ok ApplyResult.kPostponed s' ->
  exists rest' s1, rest' `suffix_of` rest /\
    continue rest' s1 = Ok ApplyResult.kPostponed s'.
Proof.
  unfold applyReduction. intros H.
  run_in H; ok_inv H.
  all: try match goal with
       | Hq : case_SPARSIFY _ _ _ _ _ _ _ _ _ = Ok _ _ |- _ =>
           apply case_SPARSIFY_result in Hq
       end.
  all: try match goal with
       | Hq : infeasible_or_break _ _ = Ok (Return _) _ |- _ =>
           apply infeasible_or_break_flow in Hq; destruct Hq; discriminate
       | Hq : case_IMPL_INT _ _ = Ok (Return _) _ |- _ =>
           apply case_IMPL_INT_flow in Hq; destruct Hq; discriminate
       | Hq : case_SUBSTITUTE _ _ = Ok (Return _) _ |- _ =>
           apply case_SUBSTITUTE_flow in Hq; destruct Hq as [? | [? | ?]];
           discriminate
       | Hq : case_SUBSTITUTE_OBJ _ _ = Ok (Return _) _ |- _ =>
           apply case_SUBSTITUTE_OBJ_flow in Hq; discriminate
       | Hq : case_PARALLEL _ _ = Ok (Return _) _ |- _ =>
           apply case_PARALLEL_flow in Hq; destruct Hq; discriminate
       | Hq : case_REPLACE _ _ _ = Ok (Return _) _ |- _ =>
           apply case_REPLACE_flow in Hq; destruct Hq; discriminate
       end.
  all: try (eexists _, _; split; [reflexivity | eassumption]).
  all: try (eexists _, _; split;
              [apply suffix_cons_r; reflexivity | eassumption]).
  all: assumption.
Qed.

Lemma applyReductions_not_postponed tx :
  forall tx', tx' `suffix_of` tx ->
  forall s s', applyReductions tx' s <> Ok ApplyResult.kPostponed s'.
Proof.
  induction tx as [| reduction rest IH]; intros tx' Hsuffix s s' H.
  - apply suffix_nil_inv in Hsuffix. subst tx'. discriminate H.
  - destruct tx' as [| r' tx']; [discriminate H |].
    apply suffix_cons_inv in Hsuffix as [Heq | Hsuffix];
      [| eapply IH; eassumption].
    injection Heq as -> ->.
    simpl in H. apply applyReduction_postponed in H
      as (rest' & s1 & Hs & Hk).
    eapply IH; eassumption.
Qed.

Lemma checkTransactionConflicts_postpone tx s s' :
  checkTransactionConflicts tx s = Ok ConflictType.kPostpone s' ->
  postponeSubstitutions s = true /\ Exists postponable tx.
Proof.
  intros H. unfold checkTransactionConflicts in H.
  apply bind_Ok in H as ([[] | r] & s1 & Hloop & H); [discriminate |].
  injection H as -> _.
  apply (for_each_Return_at eq) in Hloop
    as (reduction & [] & s0 & Hin & <- & Hbody);
    [| intros ? ?; follow ltac:(fail)].
  rewrite Exists_exists. unfold postponable.
  run_in Hbody; ok_inv Hbody.
  all: try match goal with
       | Hflow : (if ?c then Return ConflictType.kConflict else _) = _ |- _ =>
           destruct c; discriminate Hflow
       end.
  all: destruct (postponeSubstitutions _); [| discriminate Hbody].
  all: split; [reflexivity | exists reduction;
         split; [apply list_elem_of_In; exact Hin |]].
  all: repeat match goal with
       | Hz : (_ =? _) = true |- _ => apply Z.eqb_eq in Hz
       | Hz : (_ <? _) = true |- _ => apply Z.ltb_lt in Hz
       | Hz : (_ <? _) = false |- _ => apply Z.ltb_ge in Hz
       | Hz : (_ <=? _) = true |- _ => apply Z.leb_le in Hz
       end.
  all: tauto.
Qed.

(** [Postponed] comes from the conflict check alone: the transaction has
    then had no effect, substitutions are being postponed, and the
    transaction holds a substitution, a replacement or a sparsification. *)
Theorem postponed_has_no_effect tx s s' :
  applyTransaction tx s = Ok ApplyResult.kPostponed s' ->
  s' = s /\ postponeSubstitutions s = true /\ Exists postponable tx.
Proof.
  unfold applyTransaction. intros H.
  apply bind_Ok in H as (conflictType & s1 & Hcheck & H).
  pose proof (checkTransactionConflicts_body_readonly tx _ _ _ Hcheck).
  subst s1. destruct conflictType.
  - exfalso. eapply applyReductions_not_postponed; [reflexivity | exact H].
  - discriminate H.
  - injection H as <-. split; [reflexivity |].
    exact (checkTransactionConflicts_postpone _ _ _ Hcheck).
Qed.

End Conflicts.

(** ** Locks on modified columns *)

(** A loop that ends in [Next] has run every iteration, and each of them
    ended in [Next]. *)
Lemma for_each_Next_at (R : relation ProblemUpdate) `{!PreOrder R}
    {A S T} (l : list A) (body : A -> S -> M (Flow S T)) :
  (forall x locals, respects R (body x locals)) ->
  forall locals s locals' s',
    for_each l body locals s = Ok (Next locals') s' ->
    forall x, In x l ->
    exists locals1 s1 locals2 s2,
      R s s1 /\ body x locals1 s1 = Ok (Next locals2) s2.
Proof.
  intros Hbody. induction l as [| y l IH]; intros locals s locals' s' H x Hin;
    simpl in H.
  - destruct Hin.
  - apply bind_Ok in H as ([locals1 | r] & s1 & Hy & H); [| discriminate H].
    destruct Hin as [-> | Hin].
    + exists locals, s, locals1, s1. split; [reflexivity | exact Hy].
    + destruct (IH _ _ _ _ H x Hin) as (l1 & s2 & l2 & s3 & HR & Hx).
      exists l1, s2, l2, s3. split; [| exact Hx].
      transitivity s1; [eapply Hbody; exact Hy | exact HR].
Qed.

(** A record that locks column [c]. *)
Definition locks_column (c : Z) (reduction : Reduction.t) : Prop :=
  Reduction.col reduction = c /\
  (Reduction.row reduction = ColReduction.LOCKED \/
   Reduction.row reduction = ColReduction.LOCKED_STRONG).

Section Locks.
Context {env : Env}.

(** The conflict check does not pass a lock on a modified column. *)
Lemma lock_on_modified_is_no_NoConflict c st reduction tx s s' :
  index (view Field.col_state s) c = Some st ->
  Flags.test st State.kModified = true ->
  locks_column c reduction ->
  In reduction tx ->
  checkTransactionConflicts tx s <> Ok ConflictType.kNoConflict s'.
Proof.
  intros Hst Hm [Hcol Hrow] Hin H.
  unfold checkTransactionConflicts in H.
  apply bind_Ok in H as ([[] | r] & s1 & Hloop & H).
  - apply (for_each_Next_at eq) with (x := reduction) in Hloop
      as ([] & s0 & [] & s2 & <- & Hbody);
      [| intros ? ?; follow ltac:(fail) | exact Hin].
    pose proof (index_Some_range _ _ _ Hst) as [Hc0 _].
    destruct reduction as [newval row col]. simpl in Hcol, Hrow. subst col.
    cbn [Reduction.row Reduction.col] in Hbody. lens_simpl.
    assert ((0 <=? c) = true) as Hc by lia.
    destruct Hrow as [-> | ->];
      run_in Hbody; rewrite Hm in Hbody; discriminate Hbody.
  - unfold ret in H. injection H as -> _.
    apply (for_each_Return_at eq) in Hloop
      as (x & [] & s0 & _ & <- & Hbody);
      [| intros ? ?; follow ltac:(fail)].
    run_in Hbody; ok_inv Hbody.
    all: repeat match goal with
         | Hflow : (if ?c then _ else _) = Return ConflictType.kNoConflict
           |- _ => destruct c; discriminate Hflow
         end.
    all: try discriminate.
    all: destruct (postponeSubstitutions _); discriminate Hbody.
Qed.

(** Claim C2, as amended.  A transaction that consists of a [LOCKED_STRONG]
    operation on a column whose per-round state does not record [Modified]
    is applied, and a second such transaction in the same round is applied
    as well, leaving the state as the first one left it: a lock does not
    conflict with an earlier lock.  When the state of the column records
    [Modified], a transaction that starts with a [LOCKED] or
    [LOCKED_STRONG] operation on it is rejected and leaves the state
    unchanged, and a transaction that holds such an operation anywhere is
    never applied: whenever [applyTransaction] returns, the state is
    unchanged and the result is [Rejected], or [Postponed] while
    substitutions are postponed and the transaction also holds a
    substitution, a replacement or a sparsification. *)
Theorem lock_strong_conflicts_with_modified_only c v s st :
  index (view Field.col_state s) c = Some st ->
  c < size (view Ref.cflags s) ->
  let lock := Reduction.mk v ColReduction.LOCKED_STRONG c in
  (Flags.test st State.kModified = false ->
   exists s1,
     applyTransaction [lock] s = Ok ApplyResult.kApplied s1 /\
     applyTransaction [lock] s1 = Ok ApplyResult.kApplied s1) /\
  (Flags.test st State.kModified = true ->
   forall reduction, locks_column c reduction ->
     (forall rest,
        applyTransaction (reduction :: rest) s =
          Ok ApplyResult.kRejected s) /\
     (forall tx result s',
        In reduction tx ->
        applyTransaction tx s = Ok result s' ->
        s' = s /\
        (result = ApplyResult.kRejected \/
         result = ApplyResult.kPostponed /\
         postponeSubstitutions s = true /\ Exists postponable tx))).
Proof.
  intros Hst Hc lock. subst lock.
  split; [exact (proj1 (lock_strong_twice c v s st Hst Hc)) |].
  intros Hm reduction Hlock. split.
  - intros rest.
    pose proof (index_Some_range _ _ _ Hst) as [Hc0 _].
    assert ((0 <=? c) = true) as Hr by lia.
    destruct Hlock as [Hcol Hrow].
    destruct reduction as [newval row col]. simpl in Hcol, Hrow. subst col.
    destruct (applyTransaction (Reduction.mk newval row c :: rest) s)
      as [r s1 | e] eqn:H;
      unfold applyTransaction, checkTransactionConflicts, for_each in H;
      cbn [Reduction.row Reduction.col Reduction.newval] in H;
      destruct Hrow as [-> | ->]; run_in H; ok_inv H; reflexivity.
  - intros tx result s' Hin H.
    unfold applyTransaction in H.
    apply bind_Ok in H as (conflictType & s1 & Hcheck & H).
    pose proof (checkTransactionConflicts_body_readonly tx _ _ _ Hcheck).
    subst s1. destruct conflictType.
    + exfalso.
      exact (lock_on_modified_is_no_NoConflict _ _ _ _ _ _ Hst Hm Hlock
               Hin Hcheck).
    + unfold ret in H. injection H as <- <-.
      split; [reflexivity | left; reflexivity].
    + unfold ret in H. injection H as <- <-.
      split; [reflexivity | right].
      split; [reflexivity |].
      exact (checkTransactionConflicts_postpone _ _ _ Hcheck).
Qed.

End Locks.

(** Column 0 of two has been modified in this round. *)
Definition modified_first : ProblemUpdate :=
  over Field.col_state (fun _ => [State.kModified; State.kUnmodified])
    (over Field.dirty_col_states (fun _ => [0]) (Examples.blank 2 0)).

(** The record that substitutes column [c] by row [r]. *)
Definition substitute (c r : Z) : Reduction.t :=
  Reduction.mk (inject_Z r) ColReduction.SUBSTITUTE c.

Lemma lock_strong_conflicts_with_modified_only_witness :
  (exists s1,
     applyTransaction (env := Examples.debug) [Examples.lock_strong 5]
       (Examples.blank 6 0) = Ok ApplyResult.kApplied s1 /\
     applyTransaction (env := Examples.debug) [Examples.lock_strong 5] s1 =
       Ok ApplyResult.kApplied s1) /\
  applyTransaction (env := Examples.debug)
    [Examples.lock_strong 0; Examples.lock_strong 1] modified_first =
    Ok ApplyResult.kRejected modified_first /\
  (exists result s',
     applyTransaction (env := Examples.debug)
       [substitute 1 0; Examples.lock_strong 0] modified_first =
       Ok result s' /\
     result = ApplyResult.kPostponed /\
     s' = modified_first /\
     (result = ApplyResult.kRejected \/
      result = ApplyResult.kPostponed /\
      postponeSubstitutions modified_first = true /\
      Exists postponable [substitute 1 0; Examples.lock_strong 0])).
Proof.
  split.
  - apply (lock_strong_conflicts_with_modified_only (env := Examples.debug)
             5 0%Q (Examples.blank 6 0) State.kUnmodified);
      reflexivity.
  - destruct (lock_strong_conflicts_with_modified_only
                (env := Examples.debug) 0 0%Q modified_first
                State.kModified eq_refl eq_refl) as [_ Hmodified].
    destruct (Hmodified eq_refl (Examples.lock_strong 0)
                (conj eq_refl (or_intror eq_refl))) as [Hfirst Hany].
    split; [apply Hfirst |].
    eexists _, _. split; [vm_compute; reflexivity |].
    split; [reflexivity |].
    apply Hany; [right; left; reflexivity | vm_compute; reflexivity].
Defined.


(** ** Bound changes *)

(** Only the activities and the list of changed activities differ. *)
Definition updates_activities : relation ProblemUpdate := fun s s' =>
  exists activities changed,
    s' = over Ref.activities (fun _ => activities)
           (over Field.changed_activities (fun _ => changed) s).

#[export] Instance updates_activities_preorder : PreOrder updates_activities.
Proof.
  split.
  - intros s. exists (view Ref.activities s), (changed_activities s).
    destruct s as [[] ]. reflexivity.
  - intros s1 s2 s3 (a1 & c1 & ->) (a2 & c2 & ->).
    exists a2, c2. destruct s1 as [[] ]. reflexivity.
Qed.

Section Bounds.
Context {env : Env}.

Lemma update_activities_only colvec type oldbound newbound oldbound_inf
    s u s' :
  update_activities_after_boundchange colvec type oldbound newbound
    oldbound_inf update_activity s = Ok u s' ->
  updates_activities s s'.
Proof.
  revert s u s'.
  change (respects updates_activities
            (update_activities_after_boundchange colvec type oldbound
               newbound oldbound_inf update_activity)).
  follow ltac:(
    idtac;
    match goal with
    | |- updates_activities ?s ?t =>
        exists (view Ref.activities t), (changed_activities t);
        destruct s as [[] ]; reflexivity
    end).
Qed.

(** Symbolic execution through the update of the activities. *)
Ltac run_bounds H :=
  repeat first
    [ progress monad_unfold
    | progress lens_simpl
    | match goal with
      | Hq : update_activities_after_boundchange _ _ _ _ _ _ _ = Ok _ _
        |- _ => apply update_activities_only in Hq as (? & ? & ->)
      end
    | progress flag_simpl_in H
    | discriminate H
    | step_in H ].

(** A call of [changeLB] that returns [kReduced] changes, among the bounds,
    only the lower bound of [col].  The new lower bound does not exceed a
    finite upper bound, and when the old lower bound was finite and the
    domain was not empty, the new one is strictly above it: the domain only
    shrinks and never becomes empty. *)
Theorem changeLB_tightens col val s s' f lb ub lb' :
  changeLB col val s = Ok PresolveStatus.kReduced s' ->
  index (view Ref.cflags s) col = Some f ->
  index (view Ref.lbs s) col = Some lb ->
  index (view Ref.ubs s) col = Some ub ->
  index (view Ref.lbs s') col = Some lb' ->
  view Ref.ubs s' = view Ref.ubs s /\
  view Ref.lbs s' = <[Z.to_nat col := lb']> (view Ref.lbs s) /\
  (Flags.test f ColFlag.kUbInf = false -> lb' <= ub)%Q /\
  (Flags.test f ColFlag.kLbInf = false ->
   Flags.test f ColFlag.kUbInf = true \/ (lb <= ub)%Q -> lb < lb')%Q.
Proof.
  intros H Hf Hlb Hub Hlb'.
  unfold changeLB, setColState, getNCols, getColumnCoefficients in H.
  run_bounds H; ok_inv H; lens_simpl.
  all: rewrite index_insert_eq in Hlb' by in_range; injection Hlb' as <-.
  all: split; [reflexivity | split; [reflexivity |]].
  all: compare_facts.
  all: split; [intros Hfinite | intros Hfinite Hdomain].
  all: try discriminate.
  all: lra.
Qed.


(** The same for [changeUB] and the upper bound. *)
Theorem changeUB_tightens col val s s' f lb ub ub' :
  changeUB col val s = Ok PresolveStatus.kReduced s' ->
  index (view Ref.cflags s) col = Some f ->
  index (view Ref.lbs s) col = Some lb ->
  index (view Ref.ubs s) col = Some ub ->
  index (view Ref.ubs s') col = Some ub' ->
  view Ref.lbs s' = view Ref.lbs s /\
  view Ref.ubs s' = <[Z.to_nat col := ub']> (view Ref.ubs s) /\
  (Flags.test f ColFlag.kLbInf = false -> lb <= ub')%Q /\
  (Flags.test f ColFlag.kUbInf = false ->
   Flags.test f ColFlag.kLbInf = true \/ (lb <= ub)%Q -> ub' < ub)%Q.
Proof.
  intros H Hf Hlb Hub Hub'.
  unfold changeUB, setColState, getNCols, getColumnCoefficients in H.
  run_bounds H; ok_inv H; lens_simpl.
  all: rewrite index_insert_eq in Hub' by in_range; injection Hub' as <-.
  all: split; [reflexivity | split; [reflexivity |]].
  all: compare_facts.
  all: split; [intros Hfinite | intros Hfinite Hdomain].
  all: try discriminate.
  all: lra.
Qed.


(** A call of [fixCol] that returns [kReduced] leaves the column fixed at
    [val]: both bounds equal [val] and are finite, the column is flagged
    [kFixed] and recorded in [deleted_cols], and it was not fixed before. *)
Theorem fixCol_fixes col val s s' f :
  fixCol col val s = Ok PresolveStatus.kReduced s' ->
  index (view Ref.cflags s) col = Some f ->
  Flags.test f ColFlag.kFixed = false /\
  deleted_cols s' = deleted_cols s ++ [col] /\
  exists lb' ub' f',
    index (view Ref.lbs s') col = Some lb' /\
    index (view Ref.ubs s') col = Some ub' /\
    index (view Ref.cflags s') col = Some f' /\
    (lb' == val)%Q /\ (ub' == val)%Q /\
    Flags.test f' ColFlag.kFixed = true /\
    Flags.test f' ColFlag.kLbInf = false /\
    Flags.test f' ColFlag.kUbInf = false.
Proof.
  intros H Hf.
  unfold fixCol, markColFixed, setColState, getNCols,
    getColumnCoefficients in H.
  run_bounds H; ok_inv H; lens_simpl.
  all: split; [reflexivity | split; [reflexivity |]].
  all: eexists _, _, _.
  all: do 3 (split;
         [first [eassumption
                | repeat flag_simpl; reflexivity] |]).
  all: compare_facts.
  all: split; [first [reflexivity | symmetry; assumption] |].
  all: split; [first [reflexivity | symmetry; assumption] |].
  all: split; [repeat flag_simpl; reflexivity |].
  all: split; repeat flag_simpl;
         first [assumption | apply test_unset_covered; reflexivity].
Qed.

End Bounds.


(** ** Singleton rows *)

(** The flags of the rows, the list of redundant rows and their count are
    as before. *)
Definition rows_untouched : relation ProblemUpdate := fun s s' =>
  row_flags (constraintMatrix (problem s')) =
    row_flags (constraintMatrix (problem s)) /\
  redundant_rows s' = redundant_rows s /\
  ndeletedrows (stats s') = ndeletedrows (stats s).

#[export] Instance rows_untouched_preorder : PreOrder rows_untouched.
Proof.
  split; [intros s; repeat split |].
  intros s1 s2 s3 (? & ? & ?) (? & ? & ?). repeat split; congruence.
Qed.

Section SingletonRows.
Context {env : Env}.

Lemma bound_changes_leave_rows col val :
  respects rows_untouched (fixCol col val) /\
  respects rows_untouched (changeLB col val) /\
  respects rows_untouched (changeUB col val).
Proof. split; [| split]; follow ltac:(repeat split). Qed.

(** A singleton row that [removeSingletonRow] turns into a bound change is
    marked redundant when the call returns, whatever the bound change
    reports, infeasibility included. *)
Theorem removeSingletonRow_marks_redundant row s status s' rf :
  removeSingletonRow row s = Ok status s' ->
  index (view Ref.rowsize s) row = Some 1 ->
  index (view Ref.rflags s) row = Some rf ->
  Flags.test rf RowFlag.kRedundant = false ->
  redundant_rows s' = redundant_rows s ++ [row] /\
  ndeletedrows (stats s') = ndeletedrows (stats s) + 1 /\
  view Ref.rflags s' =
    <[Z.to_nat row := Flags.set rf RowFlag.kRedundant]> (view Ref.rflags s).
Proof.
  intros H Hsize Hrf Hredundant.
  unfold removeSingletonRow, markRowRedundant, getRowCoefficients,
    divide in H.
  repeat first
    [ progress monad_unfold
    | progress lens_simpl
    | match goal with
      | Hq : fixCol _ _ _ = Ok _ _ |- _ =>
          apply (proj1 (bound_changes_leave_rows _ _)) in Hq
            as (? & ? & ?)
      | Hq : changeLB _ _ _ = Ok _ _ |- _ =>
          apply (proj1 (proj2 (bound_changes_leave_rows _ _))) in Hq
            as (? & ? & ?)
      | Hq : changeUB _ _ _ = Ok _ _ |- _ =>
          apply (proj2 (proj2 (bound_changes_leave_rows _ _))) in Hq
            as (? & ? & ?)
      end
    | match goal with
      | Hd : row_flags (constraintMatrix (problem _)) = _ |- _ =>
          progress rewrite Hd in H
      end
    | progress flag_simpl_in H
    | discriminate H
    | step_in H ];
    ok_inv H; lens_simpl.
  all: repeat match goal with
       | Hd : row_flags (constraintMatrix (problem _)) = _ |- _ =>
           rewrite Hd in *; clear Hd
       | Hd : redundant_rows _ = _ |- _ => rewrite Hd in *; clear Hd
       | Hd : ndeletedrows (stats _) = _ |- _ => rewrite Hd in *; clear Hd
       end.
  all: try congruence.
  all: repeat split; (reflexivity || lia || congruence).
Qed.

End SingletonRows.

(** ** Small coefficients *)

(** A loop whose iterations respect [R] on the elements of the list. *)
Lemma respects_for_each_In (R : relation ProblemUpdate) `{!PreOrder R}
    {A S T} (l : list A) (body : A -> S -> M (Flow S T)) :
  (forall x locals, In x l -> respects R (body x locals)) ->
  forall locals, respects R (for_each l body locals).
Proof.
  induction l as [| x l IH]; intros Hbody locals; simpl.
  - rule respects_ret.
  - rule respects_bind; [apply Hbody; left; reflexivity |].
    intros [locals' | r]; [| rule respects_ret].
    apply IH. intros y locals1 Hy. apply Hbody. right. exact Hy.
Qed.

(** What [cleanupSmallCoefficients] does for [row], whose coefficients are
    [rowvec]: the entries it appends to the buffer of the matrix are
    entries [(row, col, 0)] for a column [col] of that row, and it moves
    the sides and the flags of that row; the columns, the stored matrix and
    the other rows are as before. *)
Definition cleans_row (row : Z) (rowvec : SparseVectorView)
    : relation ProblemUpdate := fun s s' =>
  (exists entries,
     matrix_buffer s' = matrix_buffer s ++ entries /\
     Forall (fun t => t_row t = row /\ t_val t = 0%Q /\
                      exists value, In (t_col t, value) rowvec) entries) /\
  (forall r, r <> row ->
     index (view Ref.lhs s') r = index (view Ref.lhs s) r /\
     index (view Ref.rhs s') r = index (view Ref.rhs s) r /\
     index (view Ref.rflags s') r = index (view Ref.rflags s) r) /\
  variableDomains (problem s') = variableDomains (problem s) /\
  row_storage (constraintMatrix (problem s')) =
    row_storage (constraintMatrix (problem s)) /\
  col_storage (constraintMatrix (problem s')) =
    col_storage (constraintMatrix (problem s)).

#[export] Instance cleans_row_preorder row rowvec :
  PreOrder (cleans_row row rowvec).
Proof.
  split.
  - intros s. split; [exists []; split; [symmetry; apply app_nil_r | constructor] |].
    repeat split.
  - intros s1 s2 s3 ((l1 & Hb1 & Hz1) & Hr1 & Hd1 & Hrs1 & Hcs1)
      ((l2 & Hb2 & Hz2) & Hr2 & Hd2 & Hrs2 & Hcs2).
    split; [| split; [| repeat split; congruence]].
    + exists (l1 ++ l2). split.
      * rewrite Hb2, Hb1, app_assoc. reflexivity.
      * apply Forall_app. split; assumption.
    + intros r Hr. destruct (Hr1 r Hr) as (? & ? & ?).
      destruct (Hr2 r Hr) as (? & ? & ?). repeat split; congruence.
Qed.

Section SmallCoefficients.
Context {env : Env}.

Ltac cleans_side :=
  lens_simpl;
  split;
  [ first [ eexists [_]; split;
            [reflexivity
            | repeat constructor; eexists; eassumption]
          | exists []; split; [symmetry; apply app_nil_r | constructor] ]
  | split; [| repeat split];
    intros r Hr; lens_simpl;
    repeat split; try reflexivity; apply index_insert_ne; in_range ].

(** [cleanupSmallCoefficients] touches its row only: every entry it
    appends to the buffer of the matrix sets a coefficient of that row to
    zero, and the sides and the flags of the other rows, the columns and
    the stored matrix are as before. *)
Theorem cleanupSmallCoefficients_cleans_row row s u s' :
  cleanupSmallCoefficients row s = Ok u s' ->
  exists rowvec,
    index (row_storage (constraintMatrix (problem s))) row = Some rowvec /\
    cleans_row row rowvec s s'.
Proof.
  intros H. unfold cleanupSmallCoefficients in H.
  apply bind_Ok in H as (rowvec & s0 & Hrow & H).
  unfold getRowCoefficients, vec_at in Hrow. lens_simpl.
  destruct (index (row_storage (constraintMatrix (problem s))) row)
    as [rowvec0 |]; [| discriminate].
  injection Hrow as <- <-.
  exists rowvec0. split; [reflexivity |].
  match type of H with
  | ?m _ = _ =>
      assert (respects (cleans_row row rowvec0) m) as Hm;
        [| exact (Hm _ _ _ H)]
  end.
  clear H.
  do 3 (rule respects_bind; [follow ltac:(fail) | intros _]).
  rule respects_bind; [| intros _; rule respects_ret].
  apply respects_for_each_In; [exact _ |].
  intros [col value] total_mod Hin.
  follow cleans_side.
Qed.

End SmallCoefficients.

(** Two rows over two columns: the row [x + 1e-11 y = 0], whose second
    coefficient is below [minabscoeff = 1e-10], and an empty row. *)
Definition tiny_coefficient : ProblemUpdate :=
  over Ref.rowsize (fun _ => [2; 0])
    (over Ref.colsize (fun _ => [1; 1])
       (over (Ref.consMatrix ▷ Field.row_storage)
          (fun _ => [[(0, 1%Q); (1, 1 # 100000000000)]; []])
          (over (Ref.consMatrix ▷ Field.col_storage)
             (fun _ => [[(0, 1%Q)]; [(0, 1 # 100000000000)]])
             (Examples.blank 2 2)))).

Lemma cleanupSmallCoefficients_cleans_row_witness :
  exists s',
    cleanupSmallCoefficients (env := Examples.debug) 0 tiny_coefficient =
      Ok tt s' /\
    matrix_buffer s' = [mkTriplet 0 1 0] /\
    exists rowvec,
      index (row_storage (constraintMatrix (problem tiny_coefficient))) 0 =
        Some rowvec /\
      cleans_row 0 rowvec tiny_coefficient s'.
Proof.
  eexists. split; [vm_compute; reflexivity |].
  split; [reflexivity |].
  eapply (cleanupSmallCoefficients_cleans_row (env := Examples.debug) 0
            tiny_coefficient tt).
  vm_compute. reflexivity.
Defined.


(** ** Changed activities *)

(** Induction on the iterations of a loop, from the last one backwards. *)
Lemma for_each_rev_ind {A S T}
    (P : S -> ProblemUpdate -> Flow S T -> ProblemUpdate -> Prop)
    (l : list A) (body : A -> S -> M (Flow S T)) :
  (forall locals s, P locals s (Next locals) s) ->
  (forall x locals s flow s',
     In x l -> body x locals s = Ok flow s' ->
     match flow with
     | Return r => P locals s (Return r) s'
     | Next locals' =>
         forall flow2 s2, P locals' s' flow2 s2 -> P locals s flow2 s2
     end) ->
  forall locals s flow s',
    for_each l body locals s = Ok flow s' -> P locals s flow s'.
Proof.
  intros Hnil Hbody.
  induction l as [| x l IH]; intros locals s flow s' H; simpl in H.
  - injection H as <- <-. apply Hnil.
  - apply bind_Ok in H as (flow1 & s1 & Hx & H).
    pose proof (Hbody x locals s flow1 s1 (or_introl eq_refl) Hx) as Hstep.
    destruct flow1 as [locals' | r].
    + apply Hstep. apply IH; [| exact H].
      intros y locals0 s0 flow0 s0' Hin. apply Hbody. right. exact Hin.
    + injection H as <- <-. exact Hstep.
Qed.

Section ChangedActivities.
Context {env : Env}.

(** When [checkChangedActivities] reports [kUnchanged] it has changed
    nothing: no row was marked redundant and no side was dropped. *)
Theorem checkChangedActivities_unchanged s s' :
  checkChangedActivities s = Ok PresolveStatus.kUnchanged s' -> s' = s.
Proof.
  unfold checkChangedActivities. intros H.
  apply bind_Ok in H as (changed & s0 & Hread & H).
  unfold read, gets in Hread. injection Hread as _ <-.
  apply bind_Ok in H as (flow & s1 & Hloop & H).
  apply (for_each_rev_ind
           (fun locals s flow s' =>
              match flow with
              | Next status =>
                  status = PresolveStatus.kUnchanged ->
                  locals = PresolveStatus.kUnchanged /\ s' = s
              | Return r => r = PresolveStatus.kInfeasible
              end)) in Hloop.
  - destruct flow as [status | r]; injection H as -> <-.
    + apply Hloop. reflexivity.
    + discriminate Hloop.
  - intros locals s2 Hlocals. split; [exact Hlocals | reflexivity].
  - clear. intros r locals s flow s' _ Hbody.
    unfold markRowRedundant in Hbody.
    run_in Hbody; ok_inv Hbody.
    all: try reflexivity.
    all: intros [status | r'] s2; try (intros; assumption).
    all: try (intros Hrest Hstatus; specialize (Hrest Hstatus);
              destruct Hrest as [Hrest _]; discriminate Hrest).
    all: intros Hrest; exact Hrest.
Qed.

End ChangedActivities.


(** ** The postsolve trail of fixed columns *)

(** The column is flagged [kFixed]. *)
Definition is_fixed (s : ProblemUpdate) (col : Z) : bool :=
  match index (view Ref.cflags s) col with
  | Some f => Flags.test f ColFlag.kFixed
  | None => false
  end.

(** The bounds and flags of the columns, the list of deleted columns and
    the postsolve trail are as before. *)
Definition silent : relation ProblemUpdate := fun s s' =>
  variableDomains (problem s') = variableDomains (problem s) /\
  deleted_cols s' = deleted_cols s /\
  postsolve s' = postsolve s.

#[export] Instance silent_preorder : PreOrder silent.
Proof.
  split; [intros s; repeat split |].
  intros s1 s2 s3 (? & ? & ?) (? & ? & ?). repeat split; congruence.
Qed.

Section FixedColumns.
Context {env : Env}.

(** [removeFixedCols] tells postsolve once about every entry of
    [deleted_cols] that is flagged [kFixed], and about no other column; the
    bounds and flags of the columns and the list itself are as before. *)
Theorem removeFixedCols_notifies_once s u s' :
  removeFixedCols s = Ok u s' ->
  variableDomains (problem s') = variableDomains (problem s) /\
  deleted_cols s' = deleted_cols s /\
  exists events,
    postsolve s' = postsolve s ++ events /\
    length events = length (List.filter (is_fixed s) (deleted_cols s)).
Proof.
  unfold removeFixedCols. intros H.
  apply bind_Ok in H as (deleted & s0 & Hread & H).
  unfold read, gets in Hread. injection Hread as <- <-.
  lens_simpl.
  match type of H with
  | for_each_ _ ?body _ = _ => set (step := body) in H
  end.
  revert H. generalize (deleted_cols s) at 1 3 as l. intros l.
  revert s u s'.
  induction l as [| col l IH]; intros s u s' H; simpl in H.
  - injection H as _ <-. repeat split. exists []. split; [| reflexivity].
    symmetry. apply app_nil_r.
  - apply bind_Ok in H as ([] & s1 & Hcol & H).
    apply IH in H as (Hdomains & Hdeleted & events & Htrail & Hcount).
    clear IH. subst step. cbv beta in Hcol.
    assert (variableDomains (problem s1) = variableDomains (problem s) /\
            deleted_cols s1 = deleted_cols s /\
            exists event,
              postsolve s1 =
                postsolve s ++ (if is_fixed s col then [event] else []))
      as (Hdomains1 & Hdeleted1 & event & Htrail1).
    { clear - Hcol.
      apply bind_Ok in Hcol as (fixed & s0 & Hfixed & Hcol).
      apply test_at_Ok in Hfixed as (-> & f & Hf & ->).
      unfold is_fixed. rewrite Hf.
      destruct (Flags.test f ColFlag.kFixed); cbn [negb] in Hcol.
      2: { unfold ret in Hcol. injection Hcol as <-.
           split; [reflexivity | split; [reflexivity |]].
           exists (FixedCol 0 0). symmetry. apply app_nil_r. }
      skip_read Hcol. destruct x.
      { do 2 skip_read Hcol. unfold push_back, modify in Hcol.
        injection Hcol as <-.
        split; [reflexivity | split; [reflexivity |]].
        eexists. reflexivity. }
      skip_read Hcol. destruct x.
      { do 2 skip_read Hcol. unfold push_back, modify in Hcol.
        injection Hcol as <-.
        split; [reflexivity | split; [reflexivity |]].
        eexists. reflexivity. }
      do 2 skip_read Hcol.
      apply bind_Ok in Hcol as ([] & s2 & Hpush & Hcol).
      unfold push_back, modify in Hpush. injection Hpush as <-.
      match type of Hcol with
      | ?m _ = _ =>
          assert (respects silent m) as Hframe by follow ltac:(repeat split)
      end.
      apply Hframe in Hcol as (Hd & Hdel & Hp).
      split; [exact Hd | split; [exact Hdel |]].
      eexists. rewrite Hp. reflexivity. }
    rewrite Hdomains1 in Hdomains. rewrite Hdeleted1 in Hdeleted.
    split; [exact Hdomains | split; [exact Hdeleted |]].
    exists ((if is_fixed s col then [event] else []) ++ events).
    split.
    + rewrite Htrail, Htrail1, app_assoc. reflexivity.
    + rewrite length_app, Hcount. simpl.
      replace (List.filter (is_fixed s1) l)
        with (List.filter (is_fixed s) l).
      * destruct (is_fixed s col); reflexivity.
      * apply filter_ext. intros c. unfold is_fixed. lens_simpl.
        rewrite Hdomains1. reflexivity.
Qed.

End FixedColumns.


(** ** The order of the columns for substitution *)

Ltac order_facts :=
  repeat match goal with
  | Hz : (_ <? _) = true |- _ => apply Z.ltb_lt in Hz
  | Hz : (_ <? _) = false |- _ => apply Z.ltb_ge in Hz
  end.

Section ColumnOrder.
Context {env : Env}.

(** [isColBetterForSubstitution] never prefers each of two columns to the
    other, and no column to itself. *)
Theorem isColBetterForSubstitution_asymmetric b col1 col2 s s' :
  isColBetterForSubstitution b col1 col2 s = Ok true s' ->
  isColBetterForSubstitution b col2 col1 s = Ok false s.
Proof.
  unfold isColBetterForSubstitution, vec_read. intros H.
  run_in H; ok_inv H.
  all: run.
  all: order_facts.
  all: first [reflexivity | exfalso; lia | f_equal; apply Z.ltb_ge; lia].
Qed.

(** It is transitive: with asymmetry, a strict order on the columns, as
    sorting by it requires. *)
Theorem isColBetterForSubstitution_transitive b col1 col2 col3 s s' s'' :
  isColBetterForSubstitution b col1 col2 s = Ok true s' ->
  isColBetterForSubstitution b col2 col3 s = Ok true s'' ->
  isColBetterForSubstitution b col1 col3 s = Ok true s.
Proof.
  unfold isColBetterForSubstitution, vec_read. intros H12 H23.
  run_in H12; ok_inv H12.
  all: run_in H23; ok_inv H23.
  all: run.
  all: order_facts.
  all: first [reflexivity | exfalso; lia | f_equal; apply Z.ltb_lt; lia].
Qed.

End ColumnOrder.

(** ** Compression *)

(** The run of [compress] when it does compress. *)
Ltac peel_compress H :=
  unfold compress in H;
  do 4 peel_read H;
  match type of H with
  | (if ?c then _ else _) _ = _ => destruct c eqn:Hskip
  end;
  [ unfold ret in H; injection H as <- <-
  | peel_read H;
    match type of H with
    | context [problem_compress ?c ?f ?p] =>
        destruct (problem_compress c f p) as [p' [rowmapping colmapping]]
    end;
    peel_write H; do 5 skip_read H;
    peel_read H; peel_write H; peel_read H; peel_write H;
    do 3 peel_write H;
    do 2 peel_read H; peel_write H; peel_read H; do 2 peel_write H;
    do 2 peel_read H;
    unfold ret in H; injection H as <- <- ].

Section Compression.
Context {env : Env} (compressor : Compressor).

(** [compress] keeps the split of the singleton columns in range, however
    the index vectors are renumbered: as many columns count as new as
    before, or all of them when fewer are left. *)
Theorem compress_keeps_split full b s b' s' :
  compress compressor full b s = Ok b' s' ->
  0 <= firstNewSingletonCol s <= size (singletonColumns s) ->
  0 <= firstNewSingletonCol s' <= size (singletonColumns s') /\
  size (singletonColumns s') - firstNewSingletonCol s' =
    Z.min (size (singletonColumns s'))
      (size (singletonColumns s) - firstNewSingletonCol s).
Proof.
  intros H Hsplit. peel_compress H; [lia |].
  lens_simpl. cbn. unfold size in *. lia.
Qed.

(** After [compress] every column and every row counts as active: the
    deletions so far are the deletions at the last compression. *)
Theorem compress_resets_active_counts full b s b' s' :
  compress compressor full b s = Ok b' s' ->
  getNActiveCols b' s' = getNCols s' /\
  getNActiveRows b' s' = getNRows s'.
Proof.
  intros H. peel_compress H.
  - apply andb_true_iff in Hskip as [Hskip _].
    apply andb_true_iff in Hskip as [Hcols Hrows].
    apply Z.eqb_eq in Hcols, Hrows.
    unfold getNActiveCols, getNActiveRows, getNCols, getNRows in *.
    revert Hcols Hrows. monad_unfold. lens_simpl. intros Hcols Hrows.
    split; f_equal; lia.
  - unfold getNActiveCols, getNActiveRows, getNCols, getNRows.
    monad_unfold. lens_simpl. cbn. split; f_equal; lia.
Qed.

End Compression.

(** ** Rounding the bounds of integral columns *)

Section Rounding.
Context {env : Env}.

(** [roundIntegralColumns] on an integral column leaves integral finite
    bounds: the lower bound rounded up, the upper bound rounded down.  The
    flags are as before, and the status changes, to [kReduced], only when a
    bound does. *)
Theorem roundIntegralColumns_rounds col status s status' s' f :
  roundIntegralColumns col status s = Ok status' s' ->
  index (view Ref.cflags s) col = Some f ->
  Flags.test f ColFlag.kIntegral = true ->
  view Ref.cflags s' = view Ref.cflags s /\
  (forall lb, Flags.test f ColFlag.kLbInf = false ->
     index (view Ref.lbs s) col = Some lb ->
     exists lb', index (view Ref.lbs s') col = Some lb' /\
       (lb' == inject_Z (Qceiling lb))%Q) /\
  (forall ub, Flags.test f ColFlag.kUbInf = false ->
     index (view Ref.ubs s) col = Some ub ->
     exists ub', index (view Ref.ubs s') col = Some ub' /\
       (ub' == inject_Z (Qfloor ub))%Q) /\
  (status' = PresolveStatus.kReduced \/ status' = status /\ s' = s).
Proof.
  unfold roundIntegralColumns. intros H Hf Hintegral.
  run_in H; ok_inv H; compare_facts.
  all: lens_simpl.
  all: split; [reflexivity |].
  all: split; [intros lb' Hinf Hlb | split; [intros ub' Hinf Hub |]].
  all: try congruence.
  all: try (right; split; reflexivity).
  all: try (left; reflexivity).
  all: eexists; split; [first [apply index_insert_eq; in_range | eassumption] |].
  all: try reflexivity.
  all: try (symmetry; congruence).
  all: congruence.
Qed.

(** Rounding twice is rounding once: on the state it leaves,
    [roundIntegralColumns] changes nothing and keeps the status. *)
Theorem roundIntegralColumns_idempotent col status s status' s' :
  roundIntegralColumns col status s = Ok status' s' ->
  roundIntegralColumns col status' s' = Ok status' s'.
Proof.
  unfold roundIntegralColumns. intros H.
  run_in H; ok_inv H.
  all: run.
  all: try reflexivity.
  all: exfalso.
  all: match goal with
       | Hc : Qne_bool (inject_Z _) (inject_Z _) = true |- _ =>
           rewrite ?Qceiling_Z, ?Qfloor_Z in Hc; unfold Qne_bool in Hc;
           rewrite Qeq_bool_refl in Hc; discriminate Hc
       end.
Qed.

End Rounding.

(** ** Dual fixing *)

Section DualFix.
Context {env : Env}.

(** A column that [apply_dualfix] reduces is fixed at one of its bounds,
    which is finite: at the lower bound when nothing locks the column
    downward and the objective does not decrease with it, at the upper bound
    in the mirrored case.  The other bound is kept, the column is flagged
    fixed with both bounds finite and is appended to the deleted columns;
    dual reductions are enabled. *)
Theorem apply_dualfix_fixes locks col s s' :
  apply_dualfix locks col s = Ok PresolveStatus.kReduced s' ->
  dualreds presolveOptions <> 0 /\
  deleted_cols s' = deleted_cols s ++ [col] /\
  (exists f', index (view Ref.cflags s') col = Some f' /\
     Flags.test f' ColFlag.kFixed = true /\
     Flags.test f' ColFlag.kLbInf = false /\
     Flags.test f' ColFlag.kUbInf = false) /\
  exists l c f bound,
    index locks col = Some l /\
    index (view Ref.obj_coefficients s) col = Some c /\
    index (view Ref.cflags s) col = Some f /\
    index (view Ref.lbs s') col = Some bound /\
    index (view Ref.ubs s') col = Some bound /\
    (down l = 0 /\ (0 <= c)%Q /\ Flags.test f ColFlag.kLbInf = false /\
     view Ref.lbs s' = view Ref.lbs s
     \/
     up l = 0 /\ (c <= 0)%Q /\ Flags.test f ColFlag.kUbInf = false /\
     view Ref.ubs s' = view Ref.ubs s).
Proof.
  unfold apply_dualfix, is_dualfix_enabled, vec_read, markColFixed.
  intros H.
  run_in H; ok_inv H; compare_facts; lens_simpl.
  all: repeat match goal with
       | Hz : (_ =? _) = true |- _ => apply Z.eqb_eq in Hz
       | Hz : (_ =? _) = false |- _ => apply Z.eqb_neq in Hz
       end.
  all: split; [lia |].
  all: split; [reflexivity |].
  all: split;
    [eexists; split; [repeat flag_simpl; reflexivity |];
     split; [repeat flag_simpl; reflexivity |];
     split; repeat flag_simpl;
       first [reflexivity | assumption
             | apply test_unset_covered; reflexivity] |].
  all: eexists _, _, _, _.
  all: do 3 (split; [reflexivity |]).
  all: split; [first [eassumption | repeat flag_simpl; reflexivity] |].
  all: split; [first [eassumption | repeat flag_simpl; reflexivity] |].
  all: first [left; repeat split; solve [assumption | reflexivity]
             | right; repeat split; solve [assumption | reflexivity]].
Qed.

(** Whenever [apply_dualfix] does not reduce, it changes nothing.  It then
    reports no change, or an unbounded or infeasible problem; the latter
    only with dual reductions enabled and for a column of nonzero
    objective. *)
Theorem apply_dualfix_otherwise_no_effect locks col s status s' :
  apply_dualfix locks col s = Ok status s' ->
  status <> PresolveStatus.kReduced ->
  s' = s /\
  (status = PresolveStatus.kUnchanged \/
   status = PresolveStatus.kUnbndOrInfeas /\
   dualreds presolveOptions <> 0 /\
   exists c, index (view Ref.obj_coefficients s) col = Some c /\
     ~ (c == 0)%Q).
Proof.
  unfold apply_dualfix, is_dualfix_enabled, vec_read, markColFixed.
  intros H Hstatus.
  run_in H; ok_inv H; compare_facts; lens_simpl.
  all: try congruence.
  all: repeat match goal with
       | Hz : (_ =? _) = true |- _ => apply Z.eqb_eq in Hz
       | Hz : (_ =? _) = false |- _ => apply Z.eqb_neq in Hz
       end.
  all: split; [reflexivity |].
  all: first [left; reflexivity
             | right; split; [reflexivity |]; split; [lia |];
               eexists; split; [reflexivity | assumption]].
Qed.

End DualFix.

(** ** The worklists of the trivial column presolve *)

(** The sizes of the columns are as before; the list of the empty columns
    has grown by columns of size 0 and the list of the singleton columns
    by columns of size 1. *)
Definition lists_columns : relation ProblemUpdate := fun s s' =>
  view Ref.colsize s' = view Ref.colsize s /\
  (exists added, emptyColumns s' = emptyColumns s ++ added /\
     Forall (fun c => index (view Ref.colsize s) c = Some 0) added) /\
  (exists added, singletonColumns s' = singletonColumns s ++ added /\
     Forall (fun c => index (view Ref.colsize s) c = Some 1) added).

#[export] Instance lists_columns_preorder : PreOrder lists_columns.
Proof.
  split.
  - intros s. split; [reflexivity |].
    split; exists []; (split; [symmetry; apply app_nil_r | constructor]).
  - intros s1 s2 s3 (Hsize1 & (e1 & He1 & Hz1) & (n1 & Hn1 & Ho1))
      (Hsize2 & (e2 & He2 & Hz2) & (n2 & Hn2 & Ho2)).
    rewrite Hsize1 in Hz2, Ho2.
    split; [congruence |].
    split; [exists (e1 ++ e2) | exists (n1 ++ n2)].
    + split; [rewrite He2, He1; symmetry; apply app_assoc |].
      apply Forall_app; split; assumption.
    + split; [rewrite Hn2, Hn1; symmetry; apply app_assoc |].
      apply Forall_app; split; assumption.
Qed.

(** A write to another member keeps the lists. *)
Ltac lists_side :=
  idtac;
  lazymatch goal with
  | |- lists_columns ?s _ =>
      split; [reflexivity |];
      split; exists []; (split; [symmetry; apply app_nil_r | constructor])
  end.

(** Go along a step that keeps the lists. *)
Ltac chain :=
  match goal with
  | Hr : lists_columns ?a ?b |- lists_columns ?a _ =>
      etransitivity; [exact Hr |]; clear Hr
  end.

Section ColumnWorklists.
Context {env : Env}.

Lemma trivialColumnPresolve_col_lists locks col status :
  respects lists_columns (trivialColumnPresolve_col locks col status).
Proof.
  intros s flow s' H. unfold trivialColumnPresolve_col in H.
  skip_read H.
  match type of H with (if ?c then _ else _) _ = _ => destruct c end.
  { unfold ret in H. injection H as _ <-. reflexivity. }
  frame_call lists_columns lists_side H.
  frame_call lists_columns lists_side H.
  skip_read H.
  frame_call lists_columns lists_side H.
  do 3 chain.
  match type of H with
  | (match ?x with _ => _ end) _ = _ => destruct x as [[status' |] | r]
  end.
  1, 3: unfold ret in H; injection H as _ <-; reflexivity.
  frame_call lists_columns lists_side H.
  chain.
  repeat match type of H with
         | (if ?c then _ else _) _ = _ => destruct c
         end.
  1, 2: unfold ret in H; injection H as _ <-; reflexivity.
  apply bind_Ok in H as (colsize & s4 & Hsize & H).
  unfold vec_at in Hsize.
  match type of Hsize with
  | match ?x with _ => _ end = _ => destruct x as [n |] eqn:Hn
  end; [| discriminate].
  injection Hsize as <- <-.
  apply bind_Ok in H as ([] & s5 & Hpush & H).
  unfold ret in H. injection H as _ <-.
  destruct (Z.eqb_spec n 0) as [-> | Hn0];
    [| destruct (Z.eqb_spec n 1) as [-> | Hn1]].
  - unfold push_back, modify in Hpush. injection Hpush as <-.
    split; [reflexivity |]. split.
    + exists [col]. split; [reflexivity |]. repeat constructor. exact Hn.
    + exists []. split; [symmetry; apply app_nil_r | constructor].
  - unfold push_back, modify in Hpush. injection Hpush as <-.
    split; [reflexivity |]. split.
    + exists []. split; [symmetry; apply app_nil_r | constructor].
    + exists [col]. split; [reflexivity |]. repeat constructor. exact Hn.
  - unfold ret in Hpush. injection Hpush as <-. reflexivity.
Qed.

(** [trivialColumnPresolve] changes no column size, and what it appends to
    the lists of empty and of singleton columns are columns of size 0 and
    of size 1. *)
Theorem trivialColumnPresolve_lists_by_size locks s status s' :
  trivialColumnPresolve locks s = Ok status s' ->
  lists_columns s s'.
Proof.
  revert s status s'.
  change (respects lists_columns (trivialColumnPresolve locks)).
  unfold trivialColumnPresolve.
  rule respects_bind; [follow lists_side | intros n].
  rule respects_bind;
    [| intros [status | r]; rule respects_ret].
  rule respects_for_each. intros col status.
  apply trivialColumnPresolve_col_lists.
Qed.

End ColumnWorklists.

(** ** The conflict states and their dirty lists *)

(** Every row and every column whose state is not [kUnmodified] is listed
    as dirty. *)
Definition tracked (s : ProblemUpdate) : Prop :=
  (forall row st, index (row_state s) row = Some st ->
     st <> State.kUnmodified -> In row (dirty_row_states s)) /\
  (forall col st, index (col_state s) col = Some st ->
     st <> State.kUnmodified -> In col (dirty_col_states s)).

Definition keeps_tracked : relation ProblemUpdate := fun s s' =>
  tracked s -> tracked s'.

#[export] Instance keeps_tracked_preorder : PreOrder keeps_tracked.
Proof.
  split; [intros s H; exact H |].
  intros s1 s2 s3 H1 H2 H. exact (H2 (H1 H)).
Qed.

(** The states are all [kUnmodified]. *)
Definition all_unmodified (states : list Z) : Prop :=
  Forall (fun st => st = State.kUnmodified) states.

Lemma index_lookup {A} (v : list A) i x :
  index v i = Some x -> v !! Z.to_nat i = Some x.
Proof. unfold index. destruct (i <? 0); [discriminate | trivial]. Qed.

Lemma index_insert {A} (v : list A) i j x y :
  index (<[Z.to_nat i := x]> v) j = Some y ->
  0 <= i -> i = j /\ y = x \/ i <> j /\ index v j = Some y.
Proof.
  unfold index. intros H Hi.
  destruct (Z.ltb_spec j 0) as [| Hj]; [discriminate |].
  destruct (Z.eq_dec i j) as [-> | Hne].
  - left. split; [reflexivity |].
    apply list_lookup_insert_Some in H as [[_ [-> _]] | [Hne _]];
      [reflexivity | congruence].
  - right. split; [exact Hne |].
    rewrite list_lookup_insert_ne in H by lia. exact H.
Qed.

Lemma unmodified_tracked s : unmodified s -> tracked s.
Proof.
  intros [Hrows Hcols].
  split; intros i st Hi Hst; contradiction Hst;
    [exact (index_Forall _ _ _ _ Hrows Hi)
    | exact (index_Forall _ _ _ _ Hcols Hi)].
Qed.

(** The loop that resets the states of the listed indices. *)
Section ClearLoop.
Context (l : Lens ProblemUpdate (list Z)).
Hypothesis view_over : forall f s, view l (over l f s) = f (view l s).
Hypothesis over_over : forall f g s,
  over l f (over l g s) = over l (fun v => f (g v)) s.
Hypothesis over_view : forall s, over l (fun _ => view l s) s = s.

Lemma clear_loop indices : forall s u s',
  for_each_ indices (fun i => vec_set l i State.kUnmodified) s = Ok u s' ->
  exists states, s' = over l (fun _ => states) s /\
    forall i st, index states i = Some st ->
      st <> State.kUnmodified ->
      ~ In i indices /\ index (view l s) i = Some st.
Proof.
  induction indices as [| j indices IH]; intros s u s' H; simpl in H.
  - unfold ret in H. injection H as _ <-.
    exists (view l s). split; [symmetry; apply over_view |].
    intros i st Hi _. split; [intros [] | exact Hi].
  - apply bind_Ok in H as ([] & s1 & Hset & H).
    unfold vec_set, vec_modify in Hset.
    destruct (index (view l s) j) as [old |] eqn:Hold; [| discriminate].
    injection Hset as <-.
    apply IH in H as (states & -> & Hstates).
    exists states. split; [apply over_over |].
    intros i st Hi Hst.
    destruct (Hstates i st Hi Hst) as [Hnotin Hprev].
    rewrite view_over in Hprev.
    apply index_insert in Hprev as [[_ ->] | [Hne Hprev]].
    + contradiction Hst. reflexivity.
    + split; [| exact Hprev]. intros [-> | Hin]; contradiction.
    + unfold index in Hold. destruct (Z.ltb_spec j 0); [discriminate | lia].
Qed.

End ClearLoop.

Lemma all_unmodified_index states :
  (forall i st, index states i = Some st -> st = State.kUnmodified) ->
  all_unmodified states.
Proof.
  intros H. apply Forall_lookup_2. intros n st Hn.
  apply (H (Z.of_nat n)). unfold index.
  destruct (Z.ltb_spec (Z.of_nat n) 0); [lia |].
  rewrite Nat2Z.id. exact Hn.
Qed.

Lemma all_unmodified_resize n states :
  all_unmodified states -> all_unmodified (resize n states).
Proof.
  intros H. unfold resize. apply Forall_app. split.
  - apply Forall_take. exact H.
  - apply Forall_replicate. reflexivity.
Qed.

Section ClearStates.
Context {env : Env} (compressor : Compressor)
  (compressOptions : CompressOptions).

(** [clearStates] leaves every row and column unmodified and the dirty
    lists empty, provided that the modified rows and columns were all
    listed as dirty; this holds with and without the asserts, and also
    when the problem is compressed at the end. *)
Theorem clearStates_clears b s b' s' :
  tracked s ->
  clearStates compressor compressOptions b s = Ok b' s' ->
  unmodified s' /\
  dirty_row_states s' = [] /\ dirty_col_states s' = [].
Proof.
  intros [Hrows Hcols] H. unfold clearStates in H.
  peel_read H.
  apply bind_Ok in H as ([] & s1 & Hloop & H).
  apply (clear_loop Field.row_state) in Hloop as (rstates & -> & Hrstates);
    [| intros; destruct s0; reflexivity ..].
  assert (all_unmodified rstates) as Hr.
  { apply all_unmodified_index. intros i st Hi.
    destruct (Z.eq_dec st State.kUnmodified) as [| Hst]; [assumption |].
    destruct (Hrstates i st Hi Hst) as [Hnotin Hprev].
    contradiction Hnotin. exact (Hrows i st Hprev Hst). }
  clear Hrstates.
  peel_write H. skip_read H. peel_read H.
  apply bind_Ok in H as ([] & s2 & Hloop & H).
  apply (clear_loop Field.col_state) in Hloop as (cstates & -> & Hcstates);
    [| intros; destruct s0; reflexivity ..].
  assert (all_unmodified cstates) as Hc.
  { apply all_unmodified_index. intros i st Hi.
    destruct (Z.eq_dec st State.kUnmodified) as [| Hst]; [assumption |].
    destruct (Hcstates i st Hi Hst) as [Hnotin Hprev].
    contradiction Hnotin. exact (Hcols i st Hprev Hst). }
  clear Hcstates.
  peel_write H. skip_read H.
  destruct (compressfac_nonzero compressOptions).
  - peel_read H. skip_read H.
    match type of H with
    | (if ?c then _ else _) _ = _ => destruct c
    end.
    + peel_compress H; unfold unmodified; lens_simpl; cbn;
        repeat split;
        first [assumption | apply all_unmodified_resize; assumption].
    + unfold ret in H. injection H as _ <-.
      unfold unmodified. lens_simpl. cbn. repeat split; assumption.
  - unfold ret in H. injection H as _ <-.
    unfold unmodified. lens_simpl. cbn. repeat split; assumption.
Qed.

End ClearStates.

Section Marking.
Context {env : Env}.

(** What [setColState] and [setRowState] do when they return. *)
Lemma setColState_Ok col flags s u s' :
  setColState col flags s = Ok u s' ->
  exists st, index (col_state s) col = Some st /\
    s' = over Field.col_state
           (fun v => <[Z.to_nat col := Flags.set st flags]> v)
           (if Flags.equal st State.kUnmodified
            then over Field.dirty_col_states (fun v => v ++ [col]) s
            else s).
Proof.
  intros H. unfold setColState in H.
  skip_read H.
  apply bind_Ok in H as (st & s1 & Hst & H).
  unfold vec_at in Hst. lens_simpl.
  destruct (index (col_state s) col) as [st0 |] eqn:Hcol; [| discriminate].
  injection Hst as <- <-.
  apply bind_Ok in H as ([] & s2 & Hpush & H).
  exists st0. split; [reflexivity |].
  unfold vec_modify in H.
  destruct (Flags.equal st0 State.kUnmodified);
    unfold when, push_back, modify, ret in Hpush; injection Hpush as <-;
    lens_simpl; rewrite Hcol in H; injection H as _ <-; reflexivity.
Qed.

Lemma setRowState_Ok row flags s u s' :
  setRowState row flags s = Ok u s' ->
  exists st, index (row_state s) row = Some st /\
    s' = over Field.row_state
           (fun v => <[Z.to_nat row := Flags.set st flags]> v)
           (if Flags.equal st State.kUnmodified
            then over Field.dirty_row_states (fun v => v ++ [row]) s
            else s).
Proof.
  intros H. unfold setRowState in H.
  do 2 skip_read H.
  apply bind_Ok in H as (st & s1 & Hst & H).
  unfold vec_at in Hst. lens_simpl.
  destruct (index (row_state s) row) as [st0 |] eqn:Hrow; [| discriminate].
  injection Hst as <- <-.
  apply bind_Ok in H as ([] & s2 & Hpush & H).
  exists st0. split; [reflexivity |].
  unfold vec_modify in H.
  destruct (Flags.equal st0 State.kUnmodified);
    unfold when, push_back, modify, ret in Hpush; injection Hpush as <-;
    lens_simpl; rewrite Hrow in H; injection H as _ <-; reflexivity.
Qed.

Lemma index_nonneg {A} (v : list A) i x : index v i = Some x -> 0 <= i.
Proof.
  unfold index. destruct (Z.ltb_spec i 0); [discriminate | lia].
Qed.

Lemma setColState_keeps_tracked col flags :
  respects keeps_tracked (setColState col flags).
Proof.
  intros s u s' H [Hrows Hcols].
  apply setColState_Ok in H as (st & Hst & ->).
  pose proof (index_nonneg _ _ _ Hst) as Hcol.
  destruct (Flags.equal st State.kUnmodified) eqn:Hequal; lens_simpl.
  all: split; [exact Hrows |].
  all: intros c st' Hc Hmod.
  all: apply index_insert in Hc as [[<- _] | [_ Hc]]; [| | exact Hcol].
  - apply in_or_app. right. left. reflexivity.
  - apply in_or_app. left. exact (Hcols c st' Hc Hmod).
  - apply (Hcols col st Hst). unfold Flags.equal in Hequal.
    apply Z.eqb_neq. exact Hequal.
  - exact (Hcols c st' Hc Hmod).
Qed.

Lemma setRowState_keeps_tracked row flags :
  respects keeps_tracked (setRowState row flags).
Proof.
  intros s u s' H [Hrows Hcols].
  apply setRowState_Ok in H as (st & Hst & ->).
  pose proof (index_nonneg _ _ _ Hst) as Hrow.
  destruct (Flags.equal st State.kUnmodified) eqn:Hequal; lens_simpl.
  all: split; [| exact Hcols].
  all: intros r st' Hr Hmod.
  all: apply index_insert in Hr as [[<- _] | [_ Hr]]; [| | exact Hrow].
  - apply in_or_app. right. left. reflexivity.
  - apply in_or_app. left. exact (Hrows r st' Hr Hmod).
  - apply (Hrows row st Hst). unfold Flags.equal in Hequal.
    apply Z.eqb_neq. exact Hequal.
  - exact (Hrows r st' Hr Hmod).
Qed.

(** A write to another member keeps the states tracked. *)
Ltac tracked_side :=
  idtac;
  lazymatch goal with
  | |- keeps_tracked _ _ => intros Htracked; exact Htracked
  end.

(** Follow a member function down to the calls that set a state. *)
Ltac track_step continue :=
  lazymatch goal with
  | |- respects _ (setColState _ _) => rule setColState_keeps_tracked
  | |- respects _ (setRowState _ _) => rule setRowState_keeps_tracked
  | |- respects _ (case_SPARSIFY _ _ _ _ _ _ _ _) => continue
  | |- respects _ (?k _) =>
      first [is_var k; continue | follow_step tracked_side]
  | |- _ => follow_step tracked_side
  end.

Ltac track := repeat track_step ltac:(fail).

Lemma case_SPARSIFY_tracked continue eqrow n eqrowvec rest :
  (forall rest', rest' `suffix_of` rest ->
     respects keeps_tracked (continue rest')) ->
  forall i ncancel ncanceledrows,
  respects keeps_tracked
    (case_SPARSIFY continue eqrow n eqrowvec rest i ncancel ncanceledrows).
Proof.
  induction rest as [| candidate rest IH]; intros Hk i nc ncr; simpl.
  - destruct (i =? n); [| rule respects_fault].
    rule respects_bind; [track | intros _; apply Hk; reflexivity].
  - destruct (i =? n).
    + rule respects_bind; [track | intros _; apply Hk; reflexivity].
    + assert (forall i nc ncr, respects keeps_tracked
                (case_SPARSIFY continue eqrow n eqrowvec rest i nc ncr))
        as Hrest.
      { apply IH. intros rest' Hs. apply Hk.
        apply suffix_cons_r. exact Hs. }
      repeat track_step ltac:(apply Hrest).
Qed.

Lemma applyReduction_tracked reduction rest continue :
  (forall rest', rest' `suffix_of` rest ->
     respects keeps_tracked (continue rest')) ->
  respects keeps_tracked (applyReduction reduction rest continue).
Proof.
  intros Hk. unfold applyReduction. cbv zeta.
  repeat track_step ltac:(
    first [ apply Hk; solve [reflexivity | apply suffix_cons_r; reflexivity]
          | apply case_SPARSIFY_tracked; exact Hk ]).
Qed.

Lemma applyReductions_tracked tx :
  forall tx', tx' `suffix_of` tx ->
  respects keeps_tracked (applyReductions tx').
Proof.
  induction tx as [| reduction rest IH]; intros tx' Hsuffix.
  - apply suffix_nil_inv in Hsuffix. subst tx'. simpl. rule respects_ret.
  - destruct tx' as [| r' tx']; [simpl; rule respects_ret |].
    apply suffix_cons_inv in Hsuffix as [Heq | Hsuffix];
      [| apply IH; exact Hsuffix].
    injection Heq as -> ->. simpl.
    apply applyReduction_tracked. exact IH.
Qed.

(** [setColState] lists the column as dirty, once, and keeps every
    modified state listed. *)
Theorem setColState_lists_column col flags s u s' :
  setColState col flags s = Ok u s' ->
  tracked s ->
  tracked s' /\ In col (dirty_col_states s') /\
  exists st, index (col_state s) col = Some st /\
    index (col_state s') col = Some (Flags.set st flags) /\
    dirty_col_states s' =
      dirty_col_states s ++
        (if Flags.equal st State.kUnmodified then [col] else []).
Proof.
  intros H Htracked.
  split; [exact (setColState_keeps_tracked _ _ _ _ _ H Htracked) |].
  apply setColState_Ok in H as (st & Hst & ->).
  assert (dirty_col_states
            (over Field.col_state
               (fun v => <[Z.to_nat col := Flags.set st flags]> v)
               (if Flags.equal st State.kUnmodified
                then over Field.dirty_col_states (fun v => v ++ [col]) s
                else s)) =
          dirty_col_states s ++
            (if Flags.equal st State.kUnmodified then [col] else []))
    as Hdirty.
  { destruct (Flags.equal st State.kUnmodified); lens_simpl;
      [reflexivity | symmetry; apply app_nil_r]. }
  split.
  - rewrite Hdirty. apply in_or_app.
    destruct (Flags.equal st State.kUnmodified) eqn:Hequal.
    + right. left. reflexivity.
    + left. apply (proj2 Htracked col st Hst).
      apply Z.eqb_neq. exact Hequal.
  - exists st. split; [exact Hst |]. split; [| exact Hdirty].
    destruct (Flags.equal st State.kUnmodified); lens_simpl;
      apply index_insert_eq; in_range.
Qed.

(** Whatever a transaction does to the states, and whatever its result,
    [applyTransaction] keeps every modified row and column listed as
    dirty. *)
Theorem applyTransaction_keeps_tracked tx s result s' :
  applyTransaction tx s = Ok result s' ->
  tracked s -> tracked s'.
Proof.
  revert s result s'.
  change (respects keeps_tracked (applyTransaction tx)).
  unfold applyTransaction.
  rule respects_bind; [track | intros []].
  - apply (applyReductions_tracked tx). reflexivity.
  - rule respects_ret.
  - rule respects_ret.
Qed.

(** So does [flush], through the bound changes of the singleton rows it
    removes. *)
Theorem flush_keeps_tracked s status s' :
  flush s = Ok status s' -> tracked s -> tracked s'.
Proof.
  revert s status s'.
  change (respects keeps_tracked flush).
  unfold flush. track.
Qed.

End Marking.

(** ** The trivial row presolve *)

(** A loop that returns has run the iterations before the one that
    returns, and each of them ended in [Next]. *)
Lemma for_each_Return_split {A S T} (l : list A)
    (body : A -> S -> M (Flow S T)) :
  forall locals s r s',
    for_each l body locals s = Ok (Return r) s' ->
    exists done x rest locals1 s1,
      l = done ++ x :: rest /\
      for_each done body locals s = Ok (Next locals1) s1 /\
      body x locals1 s1 = Ok (Return r) s'.
Proof.
  induction l as [| x l IH]; intros locals s r s' H; simpl in H.
  - discriminate.
  - apply bind_Ok in H as ([locals' | r'] & s1 & Hx & H).
    + apply IH in H as (done & y & rest & locals1 & s2 & -> & Hdone & Hy).
      exists (x :: done), y, rest, locals1, s2.
      split; [reflexivity |]. split; [| exact Hy].
      simpl. unfold bind. rewrite Hx. exact Hdone.
    + injection H as <- <-.
      exists [], x, l, locals, s.
      split; [reflexivity |]. split; [reflexivity | exact Hx].
Qed.

Section RowPresolve.
Context {env : Env}.

(** The loop over the rows is left early on infeasibility only. *)
Lemma trivialRowPresolve_row_Return row status s r s' :
  trivialRowPresolve_row row status s = Ok (Return r) s' ->
  r = PresolveStatus.kInfeasible.
Proof.
  unfold trivialRowPresolve_row. intros H.
  apply bind_Ok in H as (rowsize & s1 & _ & H).
  apply bind_Ok in H as (flow & s2 & Hflow & H).
  destruct flow as [status' | r'].
  - apply bind_Ok in H as (? & ? & _ & H). discriminate H.
  - unfold ret in H. injection H as <- _.
    repeat match type of Hflow with
           | (if ?c then _ else _) _ = _ => destruct c eqn:?
           end.
    + last_call Hflow; unfold ret in Hflow; congruence.
    + apply bind_Ok in Hflow as (st & s3 & _ & Hflow).
      destruct (PresolveStatus.eqb st PresolveStatus.kInfeasible) eqn:Hst;
        [| discriminate Hflow].
      unfold ret in Hflow. injection Hflow as <- _.
      destruct st; try discriminate Hst; reflexivity.
    + last_call Hflow; unfold ret in Hflow; congruence.
Qed.

(** An iteration that goes on does not leave the status [Infeasible]. *)
Lemma trivialRowPresolve_row_Next row status s status' s' :
  trivialRowPresolve_row row status s = Ok (Next status') s' ->
  status <> PresolveStatus.kInfeasible ->
  status' <> PresolveStatus.kInfeasible.
Proof.
  unfold trivialRowPresolve_row. intros H Hstatus.
  apply bind_Ok in H as (rowsize & s1 & _ & H).
  apply bind_Ok in H as (flow & s2 & Hflow & H).
  destruct flow as [status1 | r']; [| discriminate H].
  apply bind_Ok in H as (? & ? & _ & H).
  unfold ret in H. injection H as -> _.
  repeat match type of Hflow with
         | (if ?c then _ else _) _ = _ => destruct c eqn:?
         end.
  - last_call Hflow; unfold ret in Hflow; congruence.
  - apply bind_Ok in Hflow as (st & s3 & _ & Hflow).
    destruct (PresolveStatus.eqb st PresolveStatus.kInfeasible) eqn:Hst;
      [discriminate Hflow |].
    unfold ret in Hflow. injection Hflow as <- _.
    intros ->. discriminate Hst.
  - last_call Hflow; unfold ret in Hflow; congruence.
Qed.

Lemma trivialRowPresolve_rows_Next rows :
  forall status s status' s',
  for_each rows trivialRowPresolve_row status s = Ok (Next status') s' ->
  status <> PresolveStatus.kInfeasible ->
  status' <> PresolveStatus.kInfeasible.
Proof.
  induction rows as [| row rows IH]; intros status s status' s' H Hstatus;
    simpl in H.
  - unfold ret in H. injection H as <- _. exact Hstatus.
  - apply bind_Ok in H as ([status1 | r] & s1 & Hrow & H);
      [| discriminate H].
    apply (IH _ _ _ _ H).
    exact (trivialRowPresolve_row_Next _ _ _ _ _ Hrow Hstatus).
Qed.

(** [trivialRowPresolve] either leaves the loop over the rows at a row
    that is infeasible, with the rows before it done, and reports
    [Infeasible]; or it goes through all rows, applies the coefficient
    changes they asked for, and reports a status other than [Infeasible]:
    the buffer of the matrix is then empty. *)
Theorem trivialRowPresolve_flushes s status s' :
  trivialRowPresolve s = Ok status s' ->
  let rows := seqZ 0 (size (view Ref.rflags s)) in
  (status = PresolveStatus.kInfeasible /\
   exists done row rest st s0,
     rows = done ++ row :: rest /\
     for_each done trivialRowPresolve_row PresolveStatus.kUnchanged s =
       Ok (Next st) s0 /\
     trivialRowPresolve_row row st s0 =
       Ok (Return PresolveStatus.kInfeasible) s') \/
  (status <> PresolveStatus.kInfeasible /\
   exists s1,
     for_each rows trivialRowPresolve_row PresolveStatus.kUnchanged s =
       Ok (Next status) s1 /\
     flushChangedCoeffs s1 = Ok tt s' /\
     matrix_buffer s' = []).
Proof.
  intros H rows. subst rows. unfold trivialRowPresolve in H.
  skip_read H. peel_read H.
  apply bind_Ok in H as ([status' | r] & s1 & Hloop & H).
  - right.
    apply bind_Ok in H as ([] & s2 & Hflush & H).
    unfold ret in H. injection H as <- <-.
    split.
    + apply (trivialRowPresolve_rows_Next _ _ _ _ _ Hloop). discriminate.
    + exists s1. split; [exact Hloop |]. split; [exact Hflush |].
      exact (flushChangedCoeffs_empties _ _ _ Hflush).
  - left.
    unfold ret in H. injection H as <- <-.
    apply for_each_Return_split in Hloop
      as (done & row & rest & st & s0 & Hrows & Hdone & Hrow).
    pose proof (trivialRowPresolve_row_Return _ _ _ _ _ Hrow). subst r.
    split; [reflexivity |].
    exists done, row, rest, st, s0. auto.
Qed.

End RowPresolve.

Lemma trivialRowPresolve_flushes_witness :
  exists s1 s',
    for_each (seqZ 0 2) (trivialRowPresolve_row (env := Examples.debug))
      PresolveStatus.kUnchanged tiny_coefficient =
      Ok (Next PresolveStatus.kReduced) s1 /\
    matrix_buffer s1 = [mkTriplet 0 1 0] /\
    trivialRowPresolve (env := Examples.debug) tiny_coefficient =
      Ok PresolveStatus.kReduced s' /\
    flushChangedCoeffs (env := Examples.debug) s1 = Ok tt s' /\
    matrix_buffer s' = [].
Proof.
  eexists _, _. split; [vm_compute; reflexivity |].
  split; [reflexivity |]. split; [vm_compute; reflexivity |].
  destruct (trivialRowPresolve_flushes (env := Examples.debug)
              tiny_coefficient PresolveStatus.kReduced _
              ltac:(vm_compute; reflexivity))
    as [[Hstatus _] | (_ & s1 & Hloop & Hflush & Hbuffer)];
    [discriminate Hstatus |].
  assert (Ok (Next PresolveStatus.kReduced) s1 =
          Ok (Next PresolveStatus.kReduced) _) as Hsame
    by (rewrite <- Hloop; vm_compute; reflexivity).
  injection Hsame as ->.
  split; [exact Hflush | exact Hbuffer].
Defined.

(** ** The theorems at concrete problems *)

(** One column [0 <= x <= 1] in one row [2 x = 1]. *)
Definition singleton_row : ProblemUpdate :=
  over Ref.rowsize (fun _ => [1])
    (over Ref.colsize (fun _ => [1])
       (over (Ref.consMatrix ▷ Field.row_storage) (fun _ => [[(0, 2%Q)]])
          (over (Ref.consMatrix ▷ Field.col_storage) (fun _ => [[(0, 2%Q)]])
             (over Ref.lhs (fun _ => [1%Q])
                (over Ref.rhs (fun _ => [1%Q]) (Examples.blank 1 1)))))).

Lemma flush_status_witness :
  exists status s',
    flush (env := Examples.debug) three_singletons = Ok status s' /\
    (status = PresolveStatus.kInfeasible \/
     status = PresolveStatus.kReduced \/
     status = PresolveStatus.kUnbndOrInfeas /\
     dualreds (presolveOptions (Env := Examples.debug)) <> 0).
Proof.
  eexists _, _. split; [vm_compute; reflexivity |].
  eapply (flush_status (env := Examples.debug) three_singletons).
  vm_compute. reflexivity.
Defined.

(** The row of [singleton_row] is listed as a singleton row, and a change
    of its coefficient is pending. *)
Definition pending_singleton_row : ProblemUpdate :=
  over Field.singletonRows (fun _ => [0])
    (over Field.matrix_buffer (fun _ => [mkTriplet 0 0 3]) singleton_row).

Lemma pending_singleton_row_tracked : tracked pending_singleton_row.
Proof.
  apply unmodified_tracked.
  split; apply Forall_replicate; reflexivity.
Qed.

Lemma flush_empties_matrix_buffer_witness :
  exists status s',
    matrix_buffer pending_singleton_row = [mkTriplet 0 0 3] /\
    flush (env := Examples.debug) pending_singleton_row = Ok status s' /\
    matrix_buffer s' = [].
Proof.
  eexists _, _. split; [reflexivity |].
  split; [vm_compute; reflexivity |].
  eapply (flush_empties_matrix_buffer (env := Examples.debug)
            pending_singleton_row).
  vm_compute. reflexivity.
Defined.

Lemma removeSingletonRow_marks_redundant_witness :
  exists status s',
    removeSingletonRow (env := Examples.debug) 0 singleton_row =
      Ok status s' /\
    redundant_rows s' = [0] /\
    ndeletedrows (stats s') = 1.
Proof.
  eexists _, _. split; [vm_compute; reflexivity |].
  edestruct (removeSingletonRow_marks_redundant (env := Examples.debug)
               0 singleton_row) as (Hrows & Hn & _);
    [vm_compute; reflexivity | reflexivity | reflexivity | reflexivity |].
  split; [exact Hrows | exact Hn].
Defined.

(** The record that changes the lower bound of a column. *)
Definition lower_bound (c : Z) (v : Q) : Reduction.t :=
  Reduction.mk v ColReduction.LOWER_BOUND c.

Lemma blank_unmodified ncols nrows : unmodified (Examples.blank ncols nrows).
Proof. split; apply Forall_replicate; reflexivity. Qed.

Lemma no_conflict_while_unmodified_witness :
  exists result s',
    unmodified (Examples.blank 1 1) /\
    checkTransactionConflicts (env := Examples.debug)
      [Examples.lock_strong 0; lower_bound 0 (1 # 2)] (Examples.blank 1 1) =
      Ok result s' /\
    result <> ConflictType.kConflict.
Proof.
  eexists _, _. split; [apply blank_unmodified |].
  split; [vm_compute; reflexivity |].
  eapply (no_conflict_while_unmodified (env := Examples.debug)
            [Examples.lock_strong 0; lower_bound 0 (1 # 2)]
            (Examples.blank 1 1)).
  - apply blank_unmodified.
  - vm_compute. reflexivity.
Defined.

Lemma postponed_has_no_effect_witness :
  let tx := [substitute 0 0] in
  applyTransaction (env := Examples.debug) tx singleton_row =
    Ok ApplyResult.kPostponed singleton_row /\
  postponeSubstitutions singleton_row = true /\ Exists postponable tx.
Proof.
  intros tx. split; [vm_compute; reflexivity |].
  destruct (postponed_has_no_effect (env := Examples.debug) tx
              singleton_row singleton_row) as (_ & Hpostpone & Htx);
    [vm_compute; reflexivity |].
  split; [exact Hpostpone | exact Htx].
Defined.

Lemma changeLB_tightens_witness :
  exists s',
    changeLB (env := Examples.debug) 0 (1 # 2) (Examples.blank 1 0) =
      Ok PresolveStatus.kReduced s' /\
    view Ref.ubs s' = [1%Q] /\ view Ref.lbs s' = [1 # 2] /\
    (0 < 1 # 2)%Q.
Proof.
  eexists. split; [vm_compute; reflexivity |].
  edestruct (changeLB_tightens (env := Examples.debug) 0 (1 # 2)
               (Examples.blank 1 0)) as (Hubs & Hlbs & _ & Hlt);
    [vm_compute; reflexivity | reflexivity | reflexivity | reflexivity
    | reflexivity |].
  split; [exact Hubs |]. split; [exact Hlbs |].
  apply Hlt; [reflexivity | right; discriminate].
Defined.

Lemma changeUB_tightens_witness :
  exists s',
    changeUB (env := Examples.debug) 0 (1 # 2) (Examples.blank 1 0) =
      Ok PresolveStatus.kReduced s' /\
    view Ref.lbs s' = [0%Q] /\ view Ref.ubs s' = [1 # 2] /\
    (1 # 2 < 1)%Q.
Proof.
  eexists. split; [vm_compute; reflexivity |].
  edestruct (changeUB_tightens (env := Examples.debug) 0 (1 # 2)
               (Examples.blank 1 0)) as (Hlbs & Hubs & _ & Hlt);
    [vm_compute; reflexivity | reflexivity | reflexivity | reflexivity
    | reflexivity |].
  split; [exact Hlbs |]. split; [exact Hubs |].
  apply Hlt; [reflexivity | right; discriminate].
Defined.

Lemma fixCol_fixes_witness :
  exists s',
    fixCol (env := Examples.debug) 0 (1 # 2) (Examples.blank 1 0) =
      Ok PresolveStatus.kReduced s' /\
    deleted_cols s' = [0].
Proof.
  eexists. split; [vm_compute; reflexivity |].
  edestruct (fixCol_fixes (env := Examples.debug) 0 (1 # 2)
               (Examples.blank 1 0)) as (_ & Hdeleted & _);
    [vm_compute; reflexivity | reflexivity |].
  exact Hdeleted.
Defined.

(** The row of [singleton_row] is listed as changed. *)
Definition changed_row : ProblemUpdate :=
  over Field.changed_activities (fun _ => [0]) singleton_row.

Lemma checkChangedActivities_unchanged_witness :
  checkChangedActivities (env := Examples.debug) changed_row =
    Ok PresolveStatus.kUnchanged changed_row /\
  changed_row = changed_row.
Proof.
  split; [vm_compute; reflexivity |].
  apply (checkChangedActivities_unchanged (env := Examples.debug)).
  vm_compute. reflexivity.
Defined.

(** Two columns, the first of them fixed at 0 and listed as deleted
    together with the second, which is not fixed. *)
Definition fixed_column : ProblemUpdate :=
  over Field.deleted_cols (fun _ => [0; 1])
    (over Ref.cflags (fun _ => [ColFlag.kFixed; ColFlag.kNone])
       (over Ref.ubs (fun _ => [0%Q; 1%Q]) (Examples.blank 2 0))).

Lemma removeFixedCols_notifies_once_witness :
  exists s',
    removeFixedCols (env := Examples.debug) fixed_column = Ok tt s' /\
    deleted_cols s' = [0; 1] /\
    exists events,
      postsolve s' = postsolve fixed_column ++ events /\
      length events = 1%nat.
Proof.
  eexists. split; [vm_compute; reflexivity |].
  edestruct (removeFixedCols_notifies_once (env := Examples.debug)
               fixed_column tt) as (_ & Hdeleted & Hevents);
    [vm_compute; reflexivity |].
  split; [exact Hdeleted | exact Hevents].
Defined.

(** Two columns of sizes 1 and 2, in the order of the permutation. *)
Definition two_columns : ProblemUpdate :=
  over Ref.colsize (fun _ => [1; 2]) (Examples.blank 2 0).

Definition bookkeeping : Bookkeeping := mkBookkeeping [0; 1; 2] [] 0 0.

(** Three columns of the same size; the objective is zero on the first. *)
Definition three_columns : ProblemUpdate :=
  over Ref.obj_coefficients (fun _ => [0%Q; 1%Q; 1%Q]) (Examples.blank 3 0).

Lemma isColBetterForSubstitution_asymmetric_witness :
  isColBetterForSubstitution bookkeeping 0 1 two_columns =
    Ok true two_columns /\
  isColBetterForSubstitution bookkeeping 1 0 two_columns =
    Ok false two_columns.
Proof.
  split; [reflexivity |].
  apply (isColBetterForSubstitution_asymmetric bookkeeping 0 1 two_columns
           two_columns).
  reflexivity.
Defined.

Lemma isColBetterForSubstitution_transitive_witness :
  isColBetterForSubstitution bookkeeping 0 1 three_columns =
    Ok true three_columns /\
  isColBetterForSubstitution bookkeeping 1 2 three_columns =
    Ok true three_columns /\
  isColBetterForSubstitution bookkeeping 0 2 three_columns =
    Ok true three_columns.
Proof.
  split; [reflexivity |]. split; [reflexivity |].
  apply (isColBetterForSubstitution_transitive bookkeeping 0 1 2
           three_columns three_columns three_columns);
    reflexivity.
Defined.

(** A compression that renumbers the index vectors as if column 1 had
    been dropped: an index vector keeps the indices the mapping does not
    send to [-1].  The problem itself is handed back as it is. *)
Definition drop_deleted : Compressor :=
  {| problem_compress _ p := (p, ([], [0; -1; 1]));
     compress_index_vector mapping v :=
       omap (fun i => match index mapping i with
                      | Some j => if j <? 0 then None else Some j
                      | None => Some i
                      end) v;
     postsolve_compress _ _ _ p := p |}.

(** Column 1 of three singleton columns has been deleted; columns 1 and 2
    are new. *)
Definition one_deleted : ProblemUpdate :=
  over Ref.ndeletedcols (fun _ => 1)
    (over Field.singletonColumns (fun _ => [0; 1; 2])
       (over Field.firstNewSingletonCol (fun _ => 1)
          (Examples.blank 3 0))).

Lemma compress_keeps_split_witness :
  exists b' s',
    compress (env := Examples.debug) drop_deleted false bookkeeping
      one_deleted = Ok b' s' /\
    singletonColumns s' = [0; 1] /\
    0 <= firstNewSingletonCol s' <= size (singletonColumns s') /\
    size (singletonColumns s') - firstNewSingletonCol s' =
      Z.min (size (singletonColumns s'))
        (size (singletonColumns one_deleted) -
         firstNewSingletonCol one_deleted).
Proof.
  eexists _, _. split; [vm_compute; reflexivity |].
  split; [reflexivity |].
  eapply (compress_keeps_split (env := Examples.debug) drop_deleted
            false bookkeeping one_deleted).
  - vm_compute. reflexivity.
  - vm_compute. split; discriminate.
Defined.

Lemma compress_resets_active_counts_witness :
  exists b' s',
    compress (env := Examples.debug) drop_deleted false bookkeeping
      one_deleted = Ok b' s' /\
    lastcompress_ndelcols b' = 1 /\
    getNActiveCols b' s' = getNCols s' /\
    getNActiveRows b' s' = getNRows s'.
Proof.
  eexists _, _. split; [vm_compute; reflexivity |].
  split; [reflexivity |].
  eapply (compress_resets_active_counts (env := Examples.debug)
            drop_deleted false bookkeeping one_deleted).
  vm_compute. reflexivity.
Defined.

(** One integral column with the bounds [1/2 <= x <= 5/2]. *)
Definition fractional_bounds : ProblemUpdate :=
  over Ref.cflags (fun _ => [ColFlag.kIntegral])
    (over Ref.lbs (fun _ => [1 # 2])
       (over Ref.ubs (fun _ => [5 # 2]) (Examples.blank 1 0))).

Lemma roundIntegralColumns_rounds_witness :
  exists s',
    roundIntegralColumns 0 PresolveStatus.kUnchanged fractional_bounds =
      Ok PresolveStatus.kReduced s' /\
    view Ref.lbs s' = [1%Q] /\ view Ref.ubs s' = [2%Q] /\
    (exists lb', index (view Ref.lbs s') 0 = Some lb' /\
       (lb' == inject_Z (Qceiling (1 # 2)))%Q).
Proof.
  eexists. split; [vm_compute; reflexivity |].
  split; [reflexivity |]. split; [reflexivity |].
  edestruct (roundIntegralColumns_rounds 0 PresolveStatus.kUnchanged
               fractional_bounds) as (_ & Hlb & _);
    [vm_compute; reflexivity | reflexivity | reflexivity |].
  apply Hlb; reflexivity.
Defined.

Lemma roundIntegralColumns_idempotent_witness :
  exists s',
    roundIntegralColumns 0 PresolveStatus.kUnchanged fractional_bounds =
      Ok PresolveStatus.kReduced s' /\
    roundIntegralColumns 0 PresolveStatus.kReduced s' =
      Ok PresolveStatus.kReduced s'.
Proof.
  eexists. split; [vm_compute; reflexivity |].
  apply (roundIntegralColumns_idempotent 0 PresolveStatus.kUnchanged
           fractional_bounds).
  vm_compute. reflexivity.
Defined.

(** No row locks the column. *)
Definition unlocked : list Locks := [mkLocks 0 0].

(** A row locks the column in both directions. *)
Definition locked : list Locks := [mkLocks 1 1].

Lemma apply_dualfix_fixes_witness :
  exists s',
    apply_dualfix (env := Examples.debug) unlocked 0 (Examples.blank 1 0) =
      Ok PresolveStatus.kReduced s' /\
    view Ref.ubs s' = [0%Q] /\
    deleted_cols s' = deleted_cols (Examples.blank 1 0) ++ [0].
Proof.
  eexists. split; [vm_compute; reflexivity |].
  split; [reflexivity |].
  edestruct (apply_dualfix_fixes (env := Examples.debug) unlocked 0
               (Examples.blank 1 0)) as (_ & Hdeleted & _);
    [vm_compute; reflexivity |].
  exact Hdeleted.
Defined.

Lemma apply_dualfix_otherwise_no_effect_witness :
  exists status s',
    apply_dualfix (env := Examples.debug) locked 0 (Examples.blank 1 0) =
      Ok status s' /\
    status <> PresolveStatus.kReduced /\
    s' = Examples.blank 1 0.
Proof.
  eexists _, _. split; [vm_compute; reflexivity |].
  split; [discriminate |].
  edestruct (apply_dualfix_otherwise_no_effect (env := Examples.debug)
               locked 0 (Examples.blank 1 0)) as [Hsame _];
    [vm_compute; reflexivity | discriminate |].
  exact Hsame.
Defined.

(** An empty column, a singleton column, and a column of size 2. *)
Definition sized_columns : ProblemUpdate :=
  over Ref.colsize (fun _ => [0; 1; 2]) (Examples.blank 3 0).

Lemma trivialColumnPresolve_lists_by_size_witness :
  exists status s',
    trivialColumnPresolve (env := Examples.debug)
      [mkLocks 1 1; mkLocks 1 1; mkLocks 1 1] sized_columns =
      Ok status s' /\
    emptyColumns s' = [0] /\ singletonColumns s' = [1] /\
    lists_columns sized_columns s'.
Proof.
  eexists _, _. split; [vm_compute; reflexivity |].
  split; [reflexivity |]. split; [reflexivity |].
  eapply (trivialColumnPresolve_lists_by_size (env := Examples.debug)
            [mkLocks 1 1; mkLocks 1 1; mkLocks 1 1] sized_columns).
  vm_compute. reflexivity.
Defined.

(** Column 0 has been modified in this round and is listed as dirty. *)
Definition modified_column : ProblemUpdate :=
  over Field.col_state (fun _ => [State.kModified])
    (over Field.dirty_col_states (fun _ => [0]) (Examples.blank 1 1)).

Lemma modified_column_tracked : tracked modified_column.
Proof.
  apply (setColState_keeps_tracked (env := Examples.debug) 0
           State.kModified (Examples.blank 1 1) tt);
    [reflexivity | apply unmodified_tracked, blank_unmodified].
Qed.

(** Compression is switched off. *)
Definition no_compression : CompressOptions :=
  mkCompressOptions false (fun _ _ => false).

Lemma clearStates_clears_witness :
  exists b' s',
    tracked modified_column /\
    clearStates (env := Examples.debug) drop_deleted no_compression
      bookkeeping modified_column = Ok b' s' /\
    col_state s' = [State.kUnmodified] /\
    unmodified s' /\ dirty_row_states s' = [] /\ dirty_col_states s' = [].
Proof.
  eexists _, _. split; [exact modified_column_tracked |].
  split; [vm_compute; reflexivity |].
  split; [reflexivity |].
  eapply (clearStates_clears (env := Examples.debug) drop_deleted
            no_compression bookkeeping modified_column).
  - exact modified_column_tracked.
  - vm_compute. reflexivity.
Defined.

Lemma setColState_lists_column_witness :
  setColState (env := Examples.debug) 0 State.kModified
    (Examples.blank 1 1) = Ok tt modified_column /\
  tracked (Examples.blank 1 1) /\
  tracked modified_column /\ In 0 (dirty_col_states modified_column).
Proof.
  split; [reflexivity |].
  split; [apply unmodified_tracked, blank_unmodified |].
  edestruct (setColState_lists_column (env := Examples.debug) 0
               State.kModified (Examples.blank 1 1) tt modified_column)
    as (Htracked & Hin & _);
    [reflexivity | apply unmodified_tracked, blank_unmodified |].
  split; [exact Htracked | exact Hin].
Defined.

Lemma applyTransaction_keeps_tracked_witness :
  exists s',
    applyTransaction (env := Examples.debug)
      [Examples.lock_strong 0; lower_bound 0 (1 # 2)] (Examples.blank 1 1) =
      Ok ApplyResult.kApplied s' /\
    tracked (Examples.blank 1 1) /\
    dirty_col_states s' = [0] /\ tracked s'.
Proof.
  eexists. split; [vm_compute; reflexivity |].
  split; [apply unmodified_tracked, blank_unmodified |].
  split; [reflexivity |].
  eapply (applyTransaction_keeps_tracked (env := Examples.debug)
            [Examples.lock_strong 0; lower_bound 0 (1 # 2)]
            (Examples.blank 1 1)).
  - vm_compute. reflexivity.
  - apply unmodified_tracked, blank_unmodified.
Defined.

Lemma flush_keeps_tracked_witness :
  exists status s',
    flush (env := Examples.debug) pending_singleton_row = Ok status s' /\
    col_state pending_singleton_row = [State.kUnmodified] /\
    col_state s' = [State.kBoundsModified] /\
    dirty_col_states s' = [0] /\
    tracked pending_singleton_row /\ tracked s'.
Proof.
  eexists _, _. split; [vm_compute; reflexivity |].
  split; [reflexivity |]. split; [reflexivity |]. split; [reflexivity |].
  split; [exact pending_singleton_row_tracked |].
  eapply (flush_keeps_tracked (env := Examples.debug)
            pending_singleton_row).
  - vm_compute. reflexivity.
  - exact pending_singleton_row_tracked.
Defined.

